(** * create-bucket-cms: the installer's core, embedded and verified

    The development follows the repository's two source files:
    - [util.js]: directory location, slug normalisation, environment-file
      writing, port probing, project validation;
    - [index.js]: the orchestrator [integrateBucketCMS], in its two variants
      (the early one without authentication adapters, and the later one that
      selects and installs an adapter).

    Effects are explicit: the file system is a finite tree, every operation of
    the orchestrator runs in a state-and-exception monad over a world made of
    that tree and a trace of the effects performed so far. *)

From Stdlib Require Import ZArith List String Ascii Lia Bool ZifyBool.
From stdpp Require Import base tactics option strings gmap.
Import ListNotations.

Local Open Scope string_scope.
Local Open Scope list_scope.

(* ===================================================================== *)
(** * Paths and the file-system tree *)
(* ===================================================================== *)

(** A path is the list of its segments; [path.join dir name] on a directory
    path and an entry name is the extension of the list by one segment. *)
Definition path := list string.

Definition path_join (a b : path) : path := a ++ b.

(** Directory entries.  A directory lists its children in the order in which
    [fs.readdir] yields them. *)
#[warnings="-register-all"]
Inductive entry : Type :=
| File (name : string) (content : string)
| Dir (name : string) (children : list entry).

Definition FS := list entry.

Definition entry_name (e : entry) : string :=
  match e with File n _ => n | Dir n _ => n end.

(** [item.isDirectory()] *)
Definition isDirectory (e : entry) : bool :=
  match e with File _ _ => false | Dir _ _ => true end.

Definition children_of (e : entry) : list entry :=
  match e with File _ _ => [] | Dir _ cs => cs end.

Fixpoint entry_size (e : entry) : nat :=
  match e with
  | File _ _ => 1
  | Dir _ cs =>
      S ((fix sum (l : list entry) : nat :=
            match l with [] => 0 | c :: l' => entry_size c + sum l' end) cs)
  end.

Fixpoint entries_size (es : list entry) : nat :=
  match es with [] => 0 | c :: l => entry_size c + entries_size l end.

(** What a path denotes: a regular file with its content, or a directory with
    its listing. *)
Inductive node : Type :=
| NFile (content : string)
| NDir (entries : list entry).

Definition node_of (e : entry) : node :=
  match e with File _ c => NFile c | Dir _ cs => NDir cs end.

Definition entry_of (n : string) (nd : node) : entry :=
  match nd with NFile c => File n c | NDir cs => Dir n cs end.

Definition find_entry (n : string) (es : list entry) : option entry :=
  List.find (fun e => String.eqb (entry_name e) n) es.

(** Resolution of a path from the root listing. *)
Fixpoint stat (es : list entry) (p : path) : option node :=
  match p with
  | [] => Some (NDir es)
  | n :: p' =>
      match find_entry n es with
      | None => None
      | Some (File _ c) => match p' with [] => Some (NFile c) | _ => None end
      | Some (Dir _ cs) => stat cs p'
      end
  end.

(** [fs.existsSync] *)
Definition existsSync (fs : FS) (p : path) : bool :=
  match stat fs p with Some _ => true | None => false end.

(** [fs.readdir dir {withFileTypes: true}]: the entries of a directory, or
    [None] when the path is missing or not a directory (the call rejects). *)
Definition readdir (fs : FS) (p : path) : option (list entry) :=
  match stat fs p with Some (NDir es) => Some es | _ => None end.

(** No two entries of one directory share a name, at every depth. *)
Fixpoint nodupb (l : list string) : bool :=
  match l with
  | [] => true
  | x :: l' => negb (existsb (String.eqb x) l') && nodupb l'
  end.

Fixpoint wf_entry (e : entry) : bool :=
  match e with
  | File _ _ => true
  | Dir _ cs =>
      nodupb (map entry_name cs) &&
      (fix all (l : list entry) : bool :=
         match l with [] => true | c :: l' => wf_entry c && all l' end) cs
  end.

Definition wf_fs (es : list entry) : bool :=
  nodupb (map entry_name es) && forallb wf_entry es.

(* ===================================================================== *)
(** * DirectoryLocator: [getAppDirectoryPath] *)
(* ===================================================================== *)

(** Errors a call can raise. *)
Inductive error : Type :=
| ENOENT (p : path)
| EEXIST (p : path)
| EISDIR (p : path)
| ENOTDIR (p : path)
| ECOPY (src dst : path)
| TypeError (msg : string)
| SyntaxError (msg : string)
| RangeError (msg : string)
| NetworkError (msg : string)
| ExitCode (cmd : list string)
| OutOfFuel.

(** The outcome of a call: a returned value or a raised error. *)
Inductive outcome (A : Type) : Type :=
| Returned (a : A)
| Threw (e : error).
Arguments Returned {A} a.
Arguments Threw {A} e.

(** [item.name === "app"] on a directory item. *)
Definition is_app_dir (e : entry) : bool :=
  isDirectory e && String.eqb (entry_name e) "app".

(** The [for (const item of items)] loop of [getAppDirectoryPath].  The
    work-list [dirsToCheck] is kept with its top first: the head of the list
    is the last element of the JavaScript array, so [push] is a cons and
    [pop] takes the head.  [inl p] is the early [return fullPath]. *)
Fixpoint scan_items (dir : path) (items : list entry) (dirsToCheck : list path)
  : path + list path :=
  match items with
  | [] => inr dirsToCheck
  | item :: items' =>
      if isDirectory item then
        let fullPath := path_join dir [entry_name item] in
        if String.eqb (entry_name item) "app" then inl fullPath
        else scan_items dir items' (fullPath :: dirsToCheck)
      else scan_items dir items' dirsToCheck
  end.

(** The [while (dirsToCheck.length > 0)] loop.  [None] is fuel exhaustion;
    the returned [option path] is the path found or [null]. *)
Fixpoint locate_loop (fuel : nat) (fs : FS) (dirsToCheck : list path)
  : option (outcome (option path)) :=
  match fuel with
  | O => None
  | S fuel' =>
      match dirsToCheck with
      | [] => Some (Returned None)
      | dir :: rest =>
          match readdir fs dir with
          | None => Some (Threw (ENOENT dir))
          | Some items =>
              match scan_items dir items rest with
              | inl fullPath => Some (Returned (Some fullPath))
              | inr dirsToCheck' => locate_loop fuel' fs dirsToCheck'
              end
          end
      end
  end.

(** Fuel that always suffices on a well-formed tree: one step per directory
    visited, plus the final test of the empty work-list. *)
Definition locate_fuel (fs : FS) : nat := S (S (entries_size fs)).

Definition getAppDirectoryPath (fs : FS) (startDir : path)
  : option (outcome (option path)) :=
  locate_loop (locate_fuel fs) fs [startDir].

(** ** The traversal order, stated on the tree

    A directory is examined as a whole: if one of its children is a directory
    named "app", the first such child (in listing order) is the answer.
    Otherwise its sub-directories are explored last-listed first, each one
    completely before the one listed before it. *)
Fixpoint first_app_in (dir : path) (e : entry) : option path :=
  match e with
  | File _ _ => None
  | Dir _ cs =>
      if existsb is_app_dir cs then Some (path_join dir ["app"])
      else
        (fix visit (l : list entry) : option path :=
           match l with
           | [] => None
           | c :: l' =>
               match visit l' with
               | Some q => Some q
               | None => first_app_in (path_join dir [entry_name c]) c
               end
           end) cs
  end.

Definition first_app (dir : path) (es : list entry) : option path :=
  first_app_in dir (Dir "" es).

(** All directories named "app" below a directory, at any depth. *)
Fixpoint app_dirs_in (dir : path) (e : entry) : list path :=
  match e with
  | File _ _ => []
  | Dir _ cs =>
      (fix each (l : list entry) : list path :=
         match l with
         | [] => []
         | c :: l' =>
             (if is_app_dir c then [path_join dir [entry_name c]] else [])
               ++ app_dirs_in (path_join dir [entry_name c]) c ++ each l'
         end) cs
  end.

Definition app_dirs (dir : path) (es : list entry) : list path :=
  app_dirs_in dir (Dir "" es).

(** A host tree with two candidates: [src/app] is listed before [lib/app]. *)
Definition two_apps_fs : FS :=
  [ File "package.json" "{}";
    Dir "src" [ Dir "app" [ File "page.tsx" "" ] ];
    File "next.config.js" "";
    Dir "lib" [ Dir "vendor" []; Dir "app" [] ] ].

(** ** Views of the locator's work-list used in the proofs *)

(** A work-list entry together with the listing its path denotes. *)
Abbreviation resolved := (path * list entry)%type (only parsing).

Definition subdirs (dir : path) (items : list entry) : list resolved :=
  map (fun c => (path_join dir [entry_name c], children_of c))
      (List.filter isDirectory items).

Fixpoint visit_rev (dir : path) (l : list entry) : option path :=
  match l with
  | [] => None
  | c :: l' =>
      match visit_rev dir l' with
      | Some q => Some q
      | None => first_app_in (path_join dir [entry_name c]) c
      end
  end.

Fixpoint search_stack (st : list resolved) : option path :=
  match st with
  | [] => None
  | (p, es) :: st' =>
      match first_app p es with
      | Some q => Some q
      | None => search_stack st'
      end
  end.

Fixpoint stack_weight (st : list resolved) : nat :=
  match st with
  | [] => 0
  | (_, es) :: st' => S (entries_size es) + stack_weight st'
  end.

Fixpoint each_app (dir : path) (l : list entry) : list path :=
  match l with
  | [] => []
  | c :: l' =>
      (if is_app_dir c then [path_join dir [entry_name c]] else [])
        ++ app_dirs_in (path_join dir [entry_name c]) c ++ each_app dir l'
  end.

Definition resolves (fs : FS) (r : resolved) : Prop :=
  readdir fs (fst r) = Some (snd r) /\ wf_fs (snd r) = true.

(* ===================================================================== *)
(** * ProjectDescriptor: [slugify] *)
(* ===================================================================== *)

(** A JavaScript string is a sequence of UTF-16 code units. *)
Definition jsstring := list N.

(** Code units of an ASCII literal. *)
Definition js (s : string) : jsstring := map N_of_ascii (list_ascii_of_string s).

Definition hyphen : N := 45.

Definition is_hyphen (c : N) : bool := N.eqb c hyphen.

Definition is_upper (c : N) : bool := N.leb 65 c && N.leb c 90.

Definition is_ascii_unit (c : N) : bool := N.ltb c 128.

(** [\w] without the unicode flag: [A-Za-z0-9_]. *)
Definition is_word (c : N) : bool :=
  (N.leb 48 c && N.leb c 57) || (N.leb 65 c && N.leb c 90)
  || N.eqb c 95 || (N.leb 97 c && N.leb c 122).

(** [\s]: the white-space and line-terminator code units. *)
Definition is_space (c : N) : bool :=
  (N.leb 9 c && N.leb c 13) || N.eqb c 32 || N.eqb c 160 || N.eqb c 5760
  || (N.leb 8192 c && N.leb c 8202) || N.eqb c 8232 || N.eqb c 8233
  || N.eqb c 8239 || N.eqb c 8287 || N.eqb c 12288 || N.eqb c 65279.

Definition ascii_lower (c : N) : N := if is_upper c then (c + 32)%N else c.

(** [String.prototype.toLowerCase].  On a string of ASCII code units it is
    the letter-wise mapping; on any other string it is the built-in Unicode
    mapping, which is a parameter of the model. *)
Definition toLowerCase (unicode_lower : jsstring -> jsstring) (s : jsstring)
  : jsstring :=
  if forallb is_ascii_unit s then map ascii_lower s else unicode_lower s.

(** [.replace(/\s+/g, "-")]: every maximal run of white space becomes one
    hyphen. *)
Fixpoint replace_spaces (s : jsstring) : jsstring :=
  match s with
  | [] => []
  | c :: s' =>
      if is_space c then
        match s' with
        | c2 :: _ => if is_space c2 then replace_spaces s'
                     else hyphen :: replace_spaces s'
        | [] => [hyphen]
        end
      else c :: replace_spaces s'
  end.

(** [.replace(/[^\w\-]+/g, "")]: only word characters and hyphens stay. *)
Definition remove_non_word (s : jsstring) : jsstring :=
  List.filter (fun c => is_word c || is_hyphen c) s.

(** [.replace(/\-\-+/g, "-")]: every run of two or more hyphens becomes one
    hyphen. *)
Fixpoint collapse_hyphens (s : jsstring) : jsstring :=
  match s with
  | [] => []
  | c :: s' =>
      if is_hyphen c then
        match s' with
        | c2 :: _ => if is_hyphen c2 then collapse_hyphens s'
                     else c :: collapse_hyphens s'
        | [] => [c]
        end
      else c :: collapse_hyphens s'
  end.

(** [.replace(/^-+/, "")] *)
Fixpoint trim_start (s : jsstring) : jsstring :=
  match s with
  | [] => []
  | c :: s' => if is_hyphen c then trim_start s' else s
  end.

(** [.replace(/-+$/, "")] *)
Fixpoint trim_end (s : jsstring) : jsstring :=
  match s with
  | [] => []
  | c :: s' =>
      match trim_end s' with
      | [] => if is_hyphen c then [] else [c]
      | r => c :: r
      end
  end.

Definition slugify (unicode_lower : jsstring -> jsstring) (str : jsstring)
  : jsstring :=
  trim_end
    (trim_start
       (collapse_hyphens
          (remove_non_word
             (replace_spaces
                (toLowerCase unicode_lower str))))).

(** The built-in lower-casing leaves no ASCII capital letter behind. *)
Definition lowers (unicode_lower : jsstring -> jsstring) : Prop :=
  forall s, forallb (fun c => negb (is_upper c)) (unicode_lower s) = true.

(** A stand-in for the built-in mapping that lowers ASCII letters only. *)
Definition ascii_only_lower (s : jsstring) : jsstring := map ascii_lower s.

(** The characters a slug is made of, and the shape of a slug. *)
Definition is_slug_char (c : N) : bool :=
  (is_word c && negb (is_upper c)) || is_hyphen c.

Fixpoint no_double_hyphen (s : jsstring) : bool :=
  match s with
  | [] => true
  | c :: s' =>
      match s' with
      | c2 :: _ => negb (is_hyphen c && is_hyphen c2) && no_double_hyphen s'
      | [] => true
      end
  end.

Definition starts_with_hyphen (s : jsstring) : bool :=
  match s with c :: _ => is_hyphen c | [] => false end.

Fixpoint ends_with_hyphen (s : jsstring) : bool :=
  match s with
  | [] => false
  | c :: s' => match s' with [] => is_hyphen c | _ => ends_with_hyphen s' end
  end.

Definition is_slug (s : jsstring) : bool :=
  forallb is_slug_char s && no_double_hyphen s
  && negb (starts_with_hyphen s) && negb (ends_with_hyphen s).

(** A name with a non-ASCII code unit (U+00C9), an apostrophe and runs of
    spaces and hyphens. *)
Definition sample_name : jsstring := js "  " ++ [201%N] ++ js "mile's  App--2 ".

(* ===================================================================== *)
(** * File-system operations *)
(* ===================================================================== *)

(** Replace the entry named [n] where it stands, or add it at the end. *)
Fixpoint set_entry (n : string) (nd : node) (es : list entry) : list entry :=
  match es with
  | [] => [entry_of n nd]
  | e :: es' =>
      if String.eqb (entry_name e) n then entry_of n nd :: es'
      else e :: set_entry n nd es'
  end.

Definition remove_entry (n : string) (es : list entry) : list entry :=
  List.filter (fun e => negb (String.eqb (entry_name e) n)) es.

(** Store a node at a path whose parent directory exists. *)
Fixpoint put (es : list entry) (p : path) (nd : node) : option (list entry) :=
  match p with
  | [] => match nd with NDir cs => Some cs | NFile _ => None end
  | n :: p' =>
      match p' with
      | [] => Some (set_entry n nd es)
      | _ :: _ =>
          match find_entry n es with
          | Some (Dir _ cs) =>
              match put cs p' nd with
              | Some cs' => Some (set_entry n (NDir cs') es)
              | None => None
              end
          | _ => None
          end
      end
  end.

(** [fs.remove]: delete a file or a whole directory; a missing path is not
    an error. *)
Fixpoint rm (es : list entry) (p : path) : list entry :=
  match p with
  | [] => []
  | n :: p' =>
      match p' with
      | [] => remove_entry n es
      | _ :: _ =>
          match find_entry n es with
          | Some (Dir _ cs) => set_entry n (NDir (rm cs p')) es
          | _ => es
          end
      end
  end.

(** [fs.ensureDir]: create the directory and its missing ancestors. *)
Fixpoint mkdirp (es : list entry) (p : path) : option (list entry) :=
  match p with
  | [] => Some es
  | n :: p' =>
      match find_entry n es with
      | None =>
          match mkdirp [] p' with
          | Some cs' => Some (set_entry n (NDir cs') es)
          | None => None
          end
      | Some (Dir _ cs) =>
          match mkdirp cs p' with
          | Some cs' => Some (set_entry n (NDir cs') es)
          | None => None
          end
      | Some (File _ _) => None
      end
  end.

(** Copy one entry into a directory listing, under its own name: a file
    replaces a file, a directory is merged into a directory, and a file never
    replaces a directory nor a directory a file. *)
Fixpoint merge_entry (e : entry) (dst : list entry) : option (list entry) :=
  match e with
  | File n c =>
      match find_entry n dst with
      | Some (Dir _ _) => None
      | _ => Some (set_entry n (NFile c) dst)
      end
  | Dir n cs =>
      let merge_all :=
        fix merge_all (l : list entry) (acc : list entry) : option (list entry) :=
          match l with
          | [] => Some acc
          | c :: l' =>
              match merge_entry c acc with
              | Some acc' => merge_all l' acc'
              | None => None
              end
          end in
      match find_entry n dst with
      | Some (File _ _) => None
      | Some (Dir _ ds) =>
          match merge_all cs ds with
          | Some ds' => Some (set_entry n (NDir ds') dst)
          | None => None
          end
      | None =>
          match merge_all cs [] with
          | Some ds' => Some (set_entry n (NDir ds') dst)
          | None => None
          end
      end
  end.

Fixpoint is_prefix (p q : path) : bool :=
  match p, q with
  | [], _ => true
  | a :: p', b :: q' => String.eqb a b && is_prefix p' q'
  | _ :: _, [] => false
  end.

(** [path.dirname] and [path.basename] of a non-empty path. *)
Fixpoint split_last (p : path) : option (path * string) :=
  match p with
  | [] => None
  | n :: p' =>
      match split_last p' with
      | None => Some ([], n)
      | Some (d, b) => Some (n :: d, b)
      end
  end.

Definition dirname (p : path) : path :=
  match split_last p with Some (d, _) => d | None => [] end.

(** [fs.mkdir] *)
Definition fs_mkdir (fs : FS) (p : path) : outcome FS :=
  match stat fs p with
  | Some _ => Threw (EEXIST p)
  | None =>
      match stat fs (dirname p) with
      | Some (NDir _) =>
          match put fs p (NDir []) with
          | Some fs' => Returned fs'
          | None => Threw (ENOENT p)
          end
      | _ => Threw (ENOENT p)
      end
  end.

(** [fs.ensureDir] *)
Definition fs_ensureDir (fs : FS) (p : path) : outcome FS :=
  match mkdirp fs p with
  | Some fs' => Returned fs'
  | None => Threw (ENOTDIR p)
  end.

(** [fs.copy src dest] of fs-extra, overwriting by default: the parent of
    the destination is created when missing; copying onto oneself or into
    one's own sub-tree is refused. *)
Definition fs_copy (fs : FS) (src dst : path) : outcome FS :=
  match stat fs src with
  | None => Threw (ENOENT src)
  | Some nd =>
      if is_prefix src dst then Threw (ECOPY src dst)
      else
        match split_last dst with
        | None => Threw (ECOPY src dst)
        | Some (parent, name) =>
            match mkdirp fs parent with
            | None => Threw (ENOTDIR parent)
            | Some fs1 =>
                match stat fs1 parent with
                | Some (NDir listing) =>
                    match merge_entry (entry_of name nd) listing with
                    | Some listing' =>
                        match put fs1 parent (NDir listing') with
                        | Some fs2 => Returned fs2
                        | None => Threw (ENOENT parent)
                        end
                    | None => Threw (ECOPY src dst)
                    end
                | _ => Threw (ENOTDIR parent)
                end
            end
        end
  end.

(** [fs.writeFile] *)
Definition fs_writeFile (fs : FS) (p : path) (data : string) : outcome FS :=
  match stat fs p with
  | Some (NDir _) => Threw (EISDIR p)
  | _ =>
      match split_last p with
      | None => Threw (EISDIR p)
      | Some (parent, _) =>
          match stat fs parent with
          | Some (NDir _) =>
              match put fs p (NFile data) with
              | Some fs' => Returned fs'
              | None => Threw (ENOENT p)
              end
          | _ => Threw (ENOENT p)
          end
      end
  end.

(** [fs.appendFile]: creates the file when it is missing. *)
Definition fs_appendFile (fs : FS) (p : path) (data : string) : outcome FS :=
  match stat fs p with
  | Some (NFile c) =>
      match put fs p (NFile (c +:+ data)) with
      | Some fs' => Returned fs'
      | None => Threw (ENOENT p)
      end
  | _ => fs_writeFile fs p data
  end.

(** [fs.readFile path "utf8"] *)
Definition fs_readFile (fs : FS) (p : path) : outcome string :=
  match stat fs p with
  | Some (NFile c) => Returned c
  | Some (NDir _) => Threw (EISDIR p)
  | None => Threw (ENOENT p)
  end.

(* ===================================================================== *)
(** * The world and its monad *)
(* ===================================================================== *)

(** Effects the installer performs, in the order it performs them. *)
Inductive event : Type :=
| EvLog (msg : string)
| EvError (msg : string)
| EvPrompt (names : list string)
| EvSpinner (msg : string)
| EvMkdir (p : path)
| EvEnsureDir (p : path)
| EvCopy (src dst : path) (overwrite : bool)
| EvRemove (p : path)
| EvWriteFile (p : path) (data : string)
| EvAppendFile (p : path) (data : string)
| EvFetch (url : string)
| EvExec (cmd : list string)
| EvListen (port : Z)
| EvOpen (port : Z) (route : path).

(** The world: the file system, the effects performed so far, and whether
    the orchestrator's [spinner] variable has been assigned. *)
Record world : Type := mkWorld {
  w_fs : FS;
  w_log : list event;
  w_spinner : bool
}.

Definition M (A : Type) : Type := world -> outcome A * world.

Definition ret {A} (a : A) : M A := fun w => (Returned a, w).

Definition bind {A B} (m : M A) (k : A -> M B) : M B :=
  fun w =>
    match m w with
    | (Returned a, w') => k a w'
    | (Threw e, w') => (Threw e, w')
    end.

Definition throw {A} (e : error) : M A := fun w => (Threw e, w).

(** [try { body } catch (error) { handler }] *)
Definition try_catch {A} (body : M A) (handler : error -> M A) : M A :=
  fun w =>
    match body w with
    | (Returned a, w') => (Returned a, w')
    | (Threw e, w') => handler e w'
    end.

Notation "'let*' x ':=' m 'in' k" := (bind m (fun x => k))
  (at level 10, x name, m at level 100, k at level 200).
Notation "'do' m 'then' k" := (bind m (fun _ => k))
  (at level 10, m at level 100, k at level 200).

Definition emit (ev : event) : M unit :=
  fun w => (Returned tt, mkWorld (w_fs w) (w_log w ++ [ev]) (w_spinner w)).

Definition emit_all (evs : list event) : M unit :=
  fun w => (Returned tt, mkWorld (w_fs w) (w_log w ++ evs) (w_spinner w)).

Definition get_fs : M FS := fun w => (Returned (w_fs w), w).

(** A file-system call that changes the tree: on success the new tree is
    installed and the effect recorded; on failure the call throws and the
    tree is left as it was. *)
Definition fs_call (f : FS -> outcome FS) (ev : event) : M unit :=
  fun w =>
    match f (w_fs w) with
    | Returned fs' => (Returned tt, mkWorld fs' (w_log w ++ [ev]) (w_spinner w))
    | Threw e => (Threw e, w)
    end.

Definition lift {A} (f : FS -> outcome A) : M A :=
  fun w => (f (w_fs w), w).

Definition console_log (msg : string) : M unit := emit (EvLog msg).
Definition console_error (msg : string) : M unit := emit (EvError msg).

Definition existsSyncM (p : path) : M bool :=
  fun w => (Returned (existsSync (w_fs w) p), w).

Definition mkdir (p : path) : M unit := fs_call (fun fs => fs_mkdir fs p) (EvMkdir p).
Definition ensureDir (p : path) : M unit :=
  fs_call (fun fs => fs_ensureDir fs p) (EvEnsureDir p).
Definition copy (src dst : path) (overwrite : bool) : M unit :=
  fs_call (fun fs => fs_copy fs src dst) (EvCopy src dst overwrite).
Definition remove (p : path) : M unit :=
  fs_call (fun fs => Returned (rm fs p)) (EvRemove p).
Definition writeFile (p : path) (data : string) : M unit :=
  fs_call (fun fs => fs_writeFile fs p data) (EvWriteFile p data).
Definition appendFile (p : path) (data : string) : M unit :=
  fs_call (fun fs => fs_appendFile fs p data) (EvAppendFile p data).
Definition readFile (p : path) : M string := lift (fun fs => fs_readFile fs p).

(* ===================================================================== *)
(** * ConfigMerger: [writeEnvVariables] *)
(* ===================================================================== *)

Definition nl : string := String (ascii_of_nat 10) "".

(** [Array.prototype.join] *)
Fixpoint join (sep : string) (l : list string) : string :=
  match l with
  | [] => ""
  | [x] => x
  | x :: l' => x +:+ sep +:+ join sep l'
  end.

Definition path_string (p : path) : string := join "/" p.

(** [`${key}=${value}`] *)
Definition env_line (kv : string * string) : string := fst kv +:+ "=" +:+ snd kv.

(** [Object.entries(envVariables).map(...).join("\n")]; the object is given
    by its entries, in its own property order. *)
Definition envData (envVariables : list (string * string)) : string :=
  join nl (map env_line envVariables).

Definition envPath (projectDir : path) : path := path_join projectDir [".env.local"].

Definition writeEnvVariables (envVariables : list (string * string))
  (projectDir : path) : M unit :=
  let* present := existsSyncM (envPath projectDir) in
  if present then
    do console_log ("appending environment variables at "
                    +:+ path_string (envPath projectDir)) then
    appendFile (envPath projectDir) (nl +:+ envData envVariables)
  else
    do console_log ("writing environment variables at "
                    +:+ path_string (envPath projectDir)) then
    writeFile (envPath projectDir) (envData envVariables).

(** The lines of a text, as [text.split("\n")] gives them. *)
Fixpoint split_lines (s : string) : list string :=
  match s with
  | EmptyString => [""]
  | String c s' =>
      if Ascii.eqb c (ascii_of_nat 10) then "" :: split_lines s'
      else
        match split_lines s' with
        | [] => [String c ""]
        | l :: ls => String c l :: ls
        end
  end.

Definition line_count (s : string) : nat := length (split_lines s).

Fixpoint newline_free (s : string) : bool :=
  match s with
  | EmptyString => true
  | String c s' => negb (Ascii.eqb c (ascii_of_nat 10)) && newline_free s'
  end.

Definition entry_newline_free (kv : string * string) : bool :=
  newline_free (fst kv) && newline_free (snd kv).

(** The content of the configuration file of a project, if there is one. *)
Definition env_content (w : world) (projectDir : path) : option string :=
  match stat (w_fs w) (envPath projectDir) with
  | Some (NFile c) => Some c
  | _ => None
  end.

(** The world after a call, whatever its outcome. *)
Definition after {A} (m : M A) (w : world) : world := snd (m w).

Definition empty_project : world :=
  mkWorld [ File "package.json" "{}"; File "next.config.js" ""; Dir "app" [] ]
          [] false.

(* ===================================================================== *)
(** * AuthAdapterSelector *)
(* ===================================================================== *)

(** The parsed manifest: its [name] and its [dependencies] (package name to
    version constraint), each possibly absent from the file. *)
Record manifest : Type := mkManifest {
  m_name : option jsstring;
  m_dependencies : option (gmap string string)
}.

(** The value of [packageJson.dependencies && packageJson.dependencies[key]];
    [None] is [undefined]. *)
Definition dependency (m : manifest) (key : string) : option string :=
  match m_dependencies m with
  | Some deps => deps !! key
  | None => None
  end.

(** Truthiness of such a value: [undefined] and the empty string are falsy. *)
Definition truthy (v : option string) : bool :=
  match v with
  | Some s => negb (String.eqb s "")
  | None => false
  end.

Inductive AuthProfile : Type := NextAuth | Clerk | LocalhostBypass.

(** The [if (hasNextAuth) ... else if (hasClerk) ... else ...] chain. *)
Definition select_profile (hasNextAuth hasClerk : option string) : AuthProfile :=
  if truthy hasNextAuth then NextAuth
  else if truthy hasClerk then Clerk
  else LocalhostBypass.

Definition authProfile (m : manifest) : AuthProfile :=
  select_profile (dependency m "next-auth") (dependency m "@clerk/nextjs").






(* ===================================================================== *)
(** * PortProbe: [getAvailablePort] *)
(* ===================================================================== *)

(** The network as the probe sees it: which ports can be bound now, and the
    port the system hands out when asked for port 0. *)
Record network : Type := mkNetwork {
  port_free : Z -> bool;
  ephemeral : Z
}.

Inductive listen_result : Type :=
| Listening (port : Z)      (* the callback of [server.listen] runs *)
| ListenError               (* the "error" event fires *)
| ListenThrows (e : error). (* [server.listen] throws: port out of range *)

Definition listen (net : network) (port : Z) : listen_result :=
  if (port <? 0)%Z || (65535 <? port)%Z then
    ListenThrows (RangeError "ERR_SOCKET_BAD_PORT")
  else if (port =? 0)%Z then Listening (ephemeral net)
  else if port_free net port then Listening port
  else ListenError.

(** The probe, with the ports it tried in order.  The server is closed
    before the port is returned, so the network is the same at each try. *)
Fixpoint probe (fuel : nat) (net : network) (startPort : Z)
  : option (list Z * outcome Z) :=
  match fuel with
  | O => None
  | S fuel' =>
      match listen net startPort with
      | Listening port => Some ([startPort], Returned port)
      | ListenThrows e => Some ([startPort], Threw e)
      | ListenError =>
          match probe fuel' net (startPort + 1)%Z with
          | Some (tried, r) => Some (startPort :: tried, r)
          | None => None
          end
      end
  end.

(** Past port 65535 [listen] throws, which bounds the recursion. *)
Definition getAvailablePort (net : network) (startPort : Z)
  : option (list Z * outcome Z) :=
  probe (S (Z.to_nat (65536 - startPort))) net startPort.

Fixpoint range (start : Z) (n : nat) : list Z :=
  match n with
  | O => []
  | S n' => start :: range (start + 1)%Z n'
  end.

Definition all_busy : network := mkNetwork (fun _ => false) 49152%Z.

Definition dev_machine : network :=
  mkNetwork (fun p => negb ((p =? 3000)%Z || (p =? 3001)%Z)) 49152%Z.

(* ===================================================================== *)
(** * External collaborators *)
(* ===================================================================== *)

(** Everything the installer obtains from outside: what the user types, what
    the network and the child processes do, and the built-ins of the run-time
    that the model does not spell out. *)
Record collaborators : Type := mkCollaborators {
  (** the project directory entered; [None] is a falsy answer *)
  answer_projectDir : option path;
  answer_packageManager : string;
  answer_bucketRoute : path;
  (** what is typed at the input question of that name; "" is a bare Enter *)
  answer_env : string -> string;
  answer_isCommercial : bool;
  answer_agreeToPay : bool;
  (** the dependency names of the remote manifest; [None] when the fetch fails *)
  repo_dependencies : option (list string);
  (** a child process: its effect on the tree, [None] for a non-zero exit *)
  run_process : list string -> FS -> option FS;
  (** [JSON.parse] on a manifest; [None] when it throws *)
  parse_json : string -> option manifest;
  net : network;
  (** whether the styling library has a style called [orange]; the other
      styles the installer uses (green, red, gray, blue, yellow) belong to
      the library's palette *)
  chalk_orange : bool;
  unicode_lower : jsstring -> jsstring
}.

Definition show_error (e : error) : string :=
  match e with
  | ENOENT p => "ENOENT: " +:+ path_string p
  | EEXIST p => "EEXIST: " +:+ path_string p
  | EISDIR p => "EISDIR: " +:+ path_string p
  | ENOTDIR p => "ENOTDIR: " +:+ path_string p
  | ECOPY s d => "copy: " +:+ path_string s +:+ " -> " +:+ path_string d
  | TypeError m => "TypeError: " +:+ m
  | SyntaxError m => "SyntaxError: " +:+ m
  | RangeError m => "RangeError: " +:+ m
  | NetworkError m => "NetworkError: " +:+ m
  | ExitCode cmd => "Command failed: " +:+ join " " cmd
  | OutOfFuel => "out of fuel"
  end.

(** [chalk.<style>(msg)]: the styles of the library's palette are there;
    [orange] is there only if the collaborator says so. *)
Definition chalk (c : collaborators) (style : string) (msg : string) : M string :=
  if String.eqb style "orange" && negb (chalk_orange c)
  then throw (TypeError "chalk.orange is not a function")
  else ret msg.

Definition log_styled (c : collaborators) (style msg : string) : M unit :=
  let* s := chalk c style msg in console_log s.

Definition error_styled (c : collaborators) (style msg : string) : M unit :=
  let* s := chalk c style msg in console_error s.

(** [spinner = ora(...)] *)
Definition spinner_create : M unit :=
  fun w => (Returned tt, mkWorld (w_fs w) (w_log w) true).

(** [spinner.start(msg)], [spinner.succeed(msg)], [spinner.fail(msg)] *)
Definition spinner_say (msg : string) : M unit :=
  fun w =>
    if w_spinner w then emit (EvSpinner msg) w
    else (Threw (TypeError "Cannot read properties of undefined"), w).

(** [execa(cmd, args)] *)
Definition exec (c : collaborators) (cmd : list string) : M unit :=
  fun w =>
    match run_process c cmd (w_fs w) with
    | Some fs' => (Returned tt, mkWorld fs' (w_log w ++ [EvExec cmd]) (w_spinner w))
    | None => (Threw (ExitCode cmd), w)
    end.

(** An input question: its name and its default. *)
Definition question := (string * option string)%type.

(** The answer to an input question: what was typed, or the default (or the
    empty string) on a bare Enter. *)
Definition input_answer (c : collaborators) (q : question) : string * string :=
  let typed := answer_env c (fst q) in
  (fst q,
   if String.eqb typed "" then match snd q with Some d => d | None => "" end
   else typed).

(** [inquirer.prompt(questions)] on input questions: the answers object, by
    its entries in question order. *)
Definition inquirer_prompt (c : collaborators) (questions : list question)
  : M (list (string * string)) :=
  do emit (EvPrompt (map fst questions)) then
  ret (map (input_answer c) questions).

(* ===================================================================== *)
(** * [util.js] *)
(* ===================================================================== *)

Definition repo_package_json : string :=
  "https://raw.githubusercontent.com/johnpolacek/bucket-cms/main/package.json".

Definition repo_git : string := "https://github.com/johnpolacek/bucket-cms.git".

Definition getDependenciesFromRepo (c : collaborators) (repoUrl : string)
  : M (list string) :=
  do emit (EvFetch repoUrl) then
  match repo_dependencies c with
  | Some deps => ret deps
  | None =>
      do error_styled c "red" "Error fetching dependencies from GitHub repo." then
      throw (NetworkError repoUrl)
  end.

Definition promptForPackageManager (c : collaborators) : M string :=
  do emit (EvPrompt ["packageManager"]) then ret (answer_packageManager c).

Definition checkIsNextProject (fs : FS) (dir : path) : bool :=
  forallb (fun file => existsSync fs (path_join dir [file]))
          ["package.json"; "next.config.js"].

Definition getProjectDirectory (c : collaborators) : M (option path) :=
  do emit (EvPrompt ["projectDir"]) then ret (answer_projectDir c).

Definition getAppDirectoryPathM (startDir : path) : M (option path) :=
  fun w =>
    match getAppDirectoryPath (w_fs w) startDir with
    | Some (Returned r) => (Returned r, w)
    | Some (Threw e) => (Threw e, w)
    | None => (Threw OutOfFuel, w)
    end.

(** [fs.readJson]: read and parse. *)
Definition readJson (c : collaborators) (p : path) : M manifest :=
  let* text := readFile p in
  match parse_json c text with
  | Some m => ret m
  | None => throw (SyntaxError (path_string p))
  end.

(** [getProjectName(projectDir)]; the argument is [None] when the caller
    passes none, and [path.join] then throws. *)
Definition getProjectName (c : collaborators) (projectDir : option path)
  : M jsstring :=
  try_catch
    (match projectDir with
     | None => throw (TypeError "The path argument must be of type string")
     | Some dir =>
         let* packageJsonData := readJson c (path_join dir ["package.json"]) in
         ret (match m_name packageJsonData with Some n => n | None => [] end)
     end)
    (fun e =>
       do error_styled c "red" "Could not retrieve project name." then
       throw e).

Definition string_of_js (s : jsstring) : string :=
  string_of_list_ascii (map ascii_of_N s).

Definition aws_questions (defaultBucketName : string) : list question :=
  [ ("AWS_ACCESS_KEY_ID", None);
    ("AWS_SECRET_ACCESS_KEY", None);
    ("AWS_REGION", None);
    ("AWS_S3_BUCKET_NAME", Some defaultBucketName) ].

Definition defaultBucketName (c : collaborators) (projectName : jsstring) : string :=
  string_of_js (slugify (unicode_lower c) projectName) +:+ "-bucket-cms".

(** [promptForEnvVariables], first version of [util.js]: four questions. *)
Definition promptForEnvVariables_4 (c : collaborators) (projectDir : option path)
  : M (list (string * string)) :=
  let* projectName := getProjectName c projectDir in
  inquirer_prompt c (aws_questions (defaultBucketName c projectName)).

(** [promptForEnvVariables], second version of [util.js]: a fifth question
    asks for the OpenAI key. *)
Definition promptForEnvVariables_5 (c : collaborators) (projectDir : option path)
  : M (list (string * string)) :=
  let* projectName := getProjectName c projectDir in
  inquirer_prompt c (aws_questions (defaultBucketName c projectName)
                     ++ [("OPENAI_API_KEY", None)]).

Definition promptForBucketRoute (c : collaborators) : M path :=
  do emit (EvPrompt ["bucketRoute"]) then ret (answer_bucketRoute c).

Definition getAvailablePortM (c : collaborators) (startPort : Z) : M Z :=
  fun w =>
    match getAvailablePort (net c) startPort with
    | Some (tried, r) =>
        (r, mkWorld (w_fs w) (w_log w ++ map EvListen tried) (w_spinner w))
    | None => (Threw OutOfFuel, w)
    end.

Definition checkLicenseStatus (c : collaborators) : M bool :=
  do emit (EvPrompt ["isCommercial"]) then
  if negb (answer_isCommercial c) then
    do log_styled c "green" "Bucket CMS is free for non-commercial projects!" then
    do log_styled c "blue" "For more details, check the license on GitHub" then
    ret true
  else
    do emit (EvPrompt ["agreeToPay"]) then
    if answer_agreeToPay c then
      do log_styled c "green" "Thank you for your understanding and support!" then
      ret true
    else
      do log_styled c "yellow" "To use Bucket CMS for commercial projects, you are required to purchase a license" then
      ret false.

(* ===================================================================== *)
(** * Reading a property of the answers object *)
(* ===================================================================== *)

(** [obj[key]] on an object given by its entries; [None] is [undefined]. *)
Definition js_prop (obj : list (string * string)) (key : string) : option string :=
  match List.find (fun kv => String.eqb (fst kv) key) obj with
  | Some kv => Some (snd kv)
  | None => None
  end.

Definition digit_value (a : ascii) : option Z :=
  let n := Z.of_nat (nat_of_ascii a) in
  if (48 <=? n)%Z && (n <=? 57)%Z then Some (n - 48)%Z else None.

(** [ToNumber] on a string of decimal digits (the empty string is 0); every
    other string is taken as [NaN], here [None]. *)
Fixpoint to_number_from (acc : Z) (s : string) : option Z :=
  match s with
  | EmptyString => Some acc
  | String a s' =>
      match digit_value a with
      | Some d => to_number_from (10 * acc + d)%Z s'
      | None => None
      end
  end.

(** [v > n] for a property value [v] and a number [n]: [undefined] converts
    to [NaN], and no comparison with [NaN] holds. *)
Definition js_gt (v : option string) (n : Z) : bool :=
  match v with
  | None => false
  | Some s =>
      match to_number_from 0 s with
      | Some z => (n <? z)%Z
      | None => false
      end
  end.

(** [v === n] for a property value [v] and a number [n]: neither
    [undefined] nor a string is strictly equal to a number. *)
Definition js_strict_eq_number (v : option string) (n : Z) : bool :=
  match v with
  | None => false
  | Some _ => false
  end.

(* ===================================================================== *)
(** * [index.js]: the steps both variants share *)
(* ===================================================================== *)

(** Lines 27-39: ask for the project directory, validate it, locate the
    app directory.  [None] is the early [return]. *)
Definition locate_project (c : collaborators) : M (option (path * path)) :=
  let* projectDir := getProjectDirectory c in
  let* fs := get_fs in
  match projectDir with
  | Some dir =>
      if checkIsNextProject fs dir then
        let* appDir := getAppDirectoryPathM dir in
        match appDir with
        | Some found =>
            let* present := existsSyncM found in
            if present then
              do log_styled c "green" ("Found: " +:+ path_string found) then
              ret (Some (dir, found))
            else
              do error_styled c "red"
                   "Error: /app directory not found in the provided Next.js project." then
              ret None
        | None =>
            (* [fs.existsSync(null)] is false *)
            do error_styled c "red"
                 "Error: /app directory not found in the provided Next.js project." then
            ret None
        end
      else
        do error_styled c "red" "This doesn't seem to be a Next.js project." then
        ret None
  | None =>
      do error_styled c "red" "This doesn't seem to be a Next.js project." then
      ret None
  end.

(** The [catch] block. *)
Definition on_error (c : collaborators) (e : error) : M unit :=
  do spinner_say "An error occurred while integrating Bucket CMS." then
  error_styled c "red" (show_error e).

(** Remove a stale clone, then clone the template. *)
Definition clone_template (c : collaborators) (tempDir : path) : M unit :=
  let* stale := existsSyncM tempDir in
  do (if stale then remove tempDir else ret tt) then
  do spinner_say "Cloning the Bucket CMS repository..." then
  do exec c ["git"; "clone"; repo_git; path_string tempDir] then
  spinner_say "Bucket CMS repository cloned.".

(** Copy the UI route and the API routes out of the clone. *)
Definition copy_routes (projectDir tempDir bucketRoute apiDir : path) : M unit :=
  let sourceBucketDir := path_join tempDir ["src"; "app"; "bucket"] in
  let targetBucketDir := path_join projectDir bucketRoute in
  do spinner_say ("Copying files to " +:+ path_string bucketRoute +:+ "...") then
  do ensureDir targetBucketDir then
  do copy sourceBucketDir targetBucketDir true then
  do spinner_say ("Files copied to " +:+ path_string bucketRoute +:+ ".") then
  let sourceApiDir := path_join tempDir ["src"; "app"; "api"; "bucket"] in
  do spinner_say "Copying bucket api routes to /api directory..." then
  do copy sourceApiDir apiDir true then
  spinner_say ("Bucket api routes copied to " +:+ path_string apiDir +:+ " directory.").

Definition dev_command (packageManager : string) : list string :=
  if String.eqb packageManager "yarn" then ["yarn"; "dev"]
  else if String.eqb packageManager "pnpm" then ["pnpm"; "run"; "dev"]
  else ["npm"; "run"; "dev"].

(** Probe a port, schedule the browser, start the dev server.  The address
    the browser is sent to is kept as the port and the route it is built
    from. *)
Definition launch (c : collaborators) (projectDir bucketRoute : path)
  (packageManager : string) : M unit :=
  do log_styled c "green" "Bucket CMS has been successfully integrated!" then
  let* port := getAvailablePortM c 3000 in
  do emit (EvOpen port bucketRoute) then
  do console_log "Starting up dev server..." then
  do remove (path_join projectDir [".next"]) then
  exec c (dev_command packageManager).

Definition announce_env (c : collaborators) : M unit :=
  do log_styled c "green" "Your project has been updated with Bucket CMS files" then
  do console_log "Next up, let's connect to your S3 bucket on AWS." then
  do console_log "We will be setting up some local environment variables." then
  console_log "You can skip and do this later in the UI if you would prefer.".

Definition stored_message : string :=
  "Environment variables stored successfully!".

(* ===================================================================== *)
(** * [index.js], first variant (no authentication adapters) *)
(* ===================================================================== *)

(** Lines 100-108, for a given argument of the prompt: the write is guarded
    by [envVariables.length > 0]. *)
Definition guarded_env_step (c : collaborators) (promptArgument : option path)
  (projectDir : path) : M unit :=
  let* envVariables := promptForEnvVariables_4 c promptArgument in
  do (if js_gt (js_prop envVariables "length") 0
      then writeEnvVariables envVariables projectDir
      else ret tt) then
  if js_strict_eq_number (js_prop envVariables "length") 4
  then log_styled c "green" stored_message
  else ret tt.

(** The call of line 101 passes no argument to the prompt. *)
Definition env_step_A (c : collaborators) (projectDir : path) : M unit :=
  guarded_env_step c None projectDir.

(** Lines 41-93. *)
Definition install_A (c : collaborators) (projectDir appDir : path)
  : M (path * string) :=
  let* present := existsSyncM (path_join appDir ["api"]) in
  do (if present then ret tt else mkdir (path_join appDir ["api"])) then
  let apiDir := path_join appDir ["api"; "bucket"] in
  do spinner_create then
  do spinner_say "Fetching Bucket CMS package dependencies..." then
  let* dependencies := getDependenciesFromRepo c repo_package_json in
  do spinner_say "Found dependencies" then
  let* packageManager := promptForPackageManager c in
  do spinner_say "Installing dependencies..." then
  do exec c (packageManager :: "install" :: dependencies) then
  do spinner_say "Dependencies installed." then
  let tempDir := path_join projectDir [".bucket-cms-temp"] in
  do clone_template c tempDir then
  let* bucketRoute := promptForBucketRoute c in
  do copy_routes projectDir tempDir bucketRoute apiDir then
  do remove tempDir then
  ret (bucketRoute, packageManager).

(** From the environment step to the end of the [try] block. *)
Definition finish_A (c : collaborators) (projectDir bucketRoute : path)
  (packageManager : string) : M unit :=
  do announce_env c then
  do env_step_A c projectDir then
  launch c projectDir bucketRoute packageManager.

Definition integrateBucketCMS_A (c : collaborators) : M unit :=
  do log_styled c "green" "Welcome to Bucket CMS! Let's get started..." then
  try_catch
    (let* located := locate_project c in
     match located with
     | None => ret tt
     | Some (projectDir, appDir) =>
         let* installed := install_A c projectDir appDir in
         finish_A c projectDir (fst installed) (snd installed)
     end)
    (on_error c).

(* ===================================================================== *)
(** * [index.js], second variant (with authentication adapters) *)
(* ===================================================================== *)

(** Lines 107-123: read the manifest and detect the authentication
    solution.  The result is the pair [hasNextAuth], [hasClerk]. *)
Definition detect_auth (c : collaborators) (projectDir : path)
  : M (option string * option string) :=
  let packageJsonPath := path_join projectDir ["package.json"] in
  do log_styled c "green" ("Reading " +:+ path_string packageJsonPath +:+ "...") then
  let* packageJson := readJson c packageJsonPath in
  let hasNextAuth := dependency packageJson "next-auth" in
  let hasClerk := dependency packageJson "@clerk/nextjs" in
  do (if truthy hasNextAuth then log_styled c "green" "NextAuth detected."
      else if truthy hasClerk then log_styled c "green" "Clerk auth detected."
      else
        do log_styled c "orange" "Warning: No auth solution detected." then
        do log_styled c "orange" "Localhost auth bypass will be used." then
        log_styled c "orange" "Add authentication to use Bucket CMS in production.") then
  ret (hasNextAuth, hasClerk).

(** [String.prototype.includes] *)
Fixpoint starts_with (needle hay : string) : bool :=
  match needle, hay with
  | EmptyString, _ => true
  | String a n', String b h' => Ascii.eqb a b && starts_with n' h'
  | String _ _, EmptyString => false
  end.

Fixpoint includes (needle hay : string) : bool :=
  starts_with needle hay
  || match hay with
     | EmptyString => false
     | String _ h' => includes needle h'
     end.

Definition auth_dir (tempDir : path) (name : string) : path :=
  path_join tempDir ["src"; "app"; "api"; "bucket"; "auth"; name].

Definition profile_dir (p : AuthProfile) : string :=
  match p with
  | NextAuth => "next-auth"
  | Clerk => "clerk"
  | LocalhostBypass => "localhost-only"
  end.

Definition adapter_source (tempDir : path) (p : AuthProfile) : path :=
  path_join (auth_dir tempDir (profile_dir p)) ["get-session-user.ts"].

Definition adapter_target (apiDir : path) : path :=
  path_join apiDir ["auth"; "get-session-user.ts"].

(** Lines 125-178. *)
Definition install_B (c : collaborators) (projectDir appDir : path)
  : M string :=
  let* present := existsSyncM (path_join appDir ["api"]) in
  do (if present then log_styled c "gray" "api directory found"
      else
        do log_styled c "gray" "api directory not found, creating new..." then
        do mkdir (path_join appDir ["api"]) then
        log_styled c "green" "api directory created") then
  let apiDir := path_join appDir ["api"; "bucket"] in
  do spinner_say "Fetching Bucket CMS package dependencies..." then
  let* repoDependencies := getDependenciesFromRepo c repo_package_json in
  let dependencies :=
    List.filter (includes "clerk")
      (List.filter (fun dep => negb (String.eqb dep "next-auth")) repoDependencies) in
  do spinner_say "Loaded dependencies" then
  let* packageManager := promptForPackageManager c in
  do spinner_say "Installing dependencies..." then
  do exec c (packageManager :: "install" :: dependencies) then
  do spinner_say "Dependencies installed." then
  let tempDir := path_join projectDir [".bucket-cms-temp"] in
  do clone_template c tempDir then
  let bucketRoute := path_join appDir ["bucket"] in
  do copy_routes projectDir tempDir bucketRoute apiDir then
  ret packageManager.

(** Lines 180-197: put the adapter of the detected solution in place. *)
Definition configure_auth (c : collaborators)
  (hasNextAuth hasClerk : option string) (tempDir apiDir : path) : M unit :=
  do spinner_say "Configuring auth..." then
  let targetAuthFilePath := adapter_target apiDir in
  if truthy hasNextAuth then
    do copy (adapter_source tempDir NextAuth) targetAuthFilePath true then
    spinner_say "Replaced get-session-user.ts with NextAuth version."
  else if truthy hasClerk then
    do log_styled c "gray" ("sourceAuthFilePath: "
                            +:+ path_string (adapter_source tempDir Clerk)) then
    do log_styled c "gray" ("targetAuthFilePath: "
                            +:+ path_string targetAuthFilePath) then
    do copy (adapter_source tempDir Clerk) targetAuthFilePath true then
    spinner_say "Replaced get-session-user.ts with Clerk version."
  else
    do copy (adapter_source tempDir LocalhostBypass) targetAuthFilePath true then
    spinner_say "Replaced get-session-user.ts with localhost bypass.".

(** Lines 199-207: remove the three adapter directories of the clone. *)
Definition remove_auth_directories (c : collaborators) (tempDir : path) : M unit :=
  do log_styled c "gray" "Cleaning up..." then
  do remove (auth_dir tempDir "localhost-only") then
  do remove (auth_dir tempDir "next-auth") then
  remove (auth_dir tempDir "clerk").

(** Lines 222-228: the prompt gets the project directory, the write is
    unconditional. *)
Definition env_step_B (c : collaborators) (projectDir : path) : M unit :=
  let* envVariables := promptForEnvVariables_5 c (Some projectDir) in
  do writeEnvVariables envVariables projectDir then
  if js_strict_eq_number (js_prop envVariables "length") 4
  then log_styled c "green" stored_message
  else ret tt.

(** Lines 209-248. *)
Definition finish_B (c : collaborators) (projectDir appDir : path)
  (packageManager : string) : M unit :=
  let tempDir := path_join projectDir [".bucket-cms-temp"] in
  do copy (path_join tempDir ["public"; "bucket-cms-logo.jpg"])
          (path_join projectDir ["public"; "bucket-cms-logo.jpg"]) true then
  do remove tempDir then
  do announce_env c then
  do env_step_B c projectDir then
  launch c projectDir (path_join appDir ["bucket"]) packageManager.

(** The steps after the app directory has been located. *)
Definition integrate_B (c : collaborators) (projectDir appDir : path) : M unit :=
  let tempDir := path_join projectDir [".bucket-cms-temp"] in
  let apiDir := path_join appDir ["api"; "bucket"] in
  let* detected := detect_auth c projectDir in
  let* packageManager := install_B c projectDir appDir in
  do configure_auth c (fst detected) (snd detected) tempDir apiDir then
  do remove_auth_directories c tempDir then
  finish_B c projectDir appDir packageManager.

Definition integrateBucketCMS_B (c : collaborators) : M unit :=
  do log_styled c "green" "Welcome to Bucket CMS! Let's get started..." then
  do spinner_create then
  let* _licensed := checkLicenseStatus c in
  try_catch
    (let* located := locate_project c in
     match located with
     | None => ret tt
     | Some (projectDir, appDir) => integrate_B c projectDir appDir
     end)
    (on_error c).

(* ===================================================================== *)
(** * Views of a run used in the statements *)
(* ===================================================================== *)

(** Events that change the host's disk. *)
Definition mutates (ev : event) : bool :=
  match ev with
  | EvMkdir _ | EvEnsureDir _ | EvCopy _ _ _ | EvRemove _
  | EvWriteFile _ _ | EvAppendFile _ _ | EvExec _ => true
  | _ => false
  end.

(** Events of [fs.writeFile] and [fs.appendFile], the two calls that
    [writeEnvVariables] alone makes. *)
Definition writes_file (ev : event) : bool :=
  match ev with
  | EvWriteFile _ _ | EvAppendFile _ _ => true
  | _ => false
  end.

(** A computation only ever extends the trace, and with events of a given
    kind; and it never unsets the [spinner] variable. *)
Definition appends_only {A} (ok : event -> Prop) (m : M A) : Prop :=
  forall w, exists added,
    w_log (snd (m w)) = w_log w ++ added
    /\ Forall ok added
    /\ (w_spinner w = true -> w_spinner (snd (m w)) = true).

(** A computation that leaves the file system as it is. *)
Definition read_only {A} (m : M A) : Prop :=
  forall w, w_fs (snd (m w)) = w_fs w.

(** The host project fails validation: no usable answer, a directory
    without the two required files, or no app directory below it. *)
Definition validation_fails (c : collaborators) (fs : FS) : Prop :=
  match answer_projectDir c with
  | None => True
  | Some dir =>
      checkIsNextProject fs dir = false
      \/ (checkIsNextProject fs dir = true
          /\ getAppDirectoryPath fs dir = Some (Returned None))
  end.

(** A user who accepts every default, on a machine where port 3000 is
    taken; the fetch and the child processes succeed and touch nothing. *)
Definition quiet_user : collaborators :=
  mkCollaborators (Some []) "pnpm" ["src"; "app"; "bucket"] (fun _ => "")
    false false (Some ["next"; "react"]) (fun _ fs => Some fs)
    (fun _ => Some (mkManifest (Some (js "shop")) None))
    dev_machine false ascii_only_lower.

(** A directory that is not a host project: the framework configuration
    file is missing. *)
Definition not_a_project : world :=
  mkWorld [ File "package.json" "{}"; Dir "app" [] ] [] false.

Definition not_a_write (ev : event) : Prop := writes_file ev = false.

(** ** The adapter step of the second variant *)




Definition replaced_message (p : AuthProfile) : string :=
  match p with
  | NextAuth => "Replaced get-session-user.ts with NextAuth version."
  | Clerk => "Replaced get-session-user.ts with Clerk version."
  | LocalhostBypass => "Replaced get-session-user.ts with localhost bypass."
  end.

(** The adapter copy followed by the removal of the three candidate
    directories, as they appear in the trace. *)
Definition adapter_block (tempDir apiDir : path) (p : AuthProfile) : list event :=
  [ EvCopy (adapter_source tempDir p) (adapter_target apiDir) true;
    EvSpinner (replaced_message p);
    EvLog "Cleaning up...";
    EvRemove (auth_dir tempDir "localhost-only");
    EvRemove (auth_dir tempDir "next-auth");
    EvRemove (auth_dir tempDir "clerk") ].


(** The manifest the run reads: the parsed content of package.json. *)
Definition manifest_of (c : collaborators) (fs : FS) (projectDir : path)
  : option manifest :=
  match stat fs (path_join projectDir ["package.json"]) with
  | Some (NFile text) => parse_json c text
  | _ => None
  end.


(** A path below a start path that goes through no directory named "app". *)
Definition below (start p : path) : Prop :=
  exists q, p = start ++ q /\ ~ In "app" q.



(* ===================================================================== *)
(** * The minimal host project *)
(* ===================================================================== *)

(** The template repository as the clone leaves it on disk. *)
Definition template : list entry :=
  [ Dir "src"
      [ Dir "app"
          [ Dir "bucket" [ File "page.tsx" "admin page" ];
            Dir "api"
              [ Dir "bucket"
                  [ Dir "items" [ File "route.ts" "items route" ];
                    Dir "auth"
                      [ File "get-session-user.ts" "placeholder";
                        Dir "localhost-only"
                          [ File "get-session-user.ts" "localhost adapter" ];
                        Dir "next-auth"
                          [ File "get-session-user.ts" "next-auth adapter" ];
                        Dir "clerk"
                          [ File "get-session-user.ts" "clerk adapter" ] ] ] ] ] ];
    Dir "public" [ File "bucket-cms-logo.jpg" "logo" ] ].

(** A host project with a manifest, the framework configuration file and an
    empty app directory. *)
Definition minimal_project : world :=
  mkWorld [ File "package.json" "name: My Shop, dependencies: next";
            File "next.config.js" "";
            Dir "app" [] ]
          [] false.

(** The manifest of that project: a name, and no authentication library
    among the dependencies. *)
Definition minimal_manifest : manifest :=
  mkManifest (Some (js "My Shop")) (Some {[ "next" := "14.0.0" ]}).

(** Child processes that succeed: the clone puts the template at the given
    place of the project root, the others leave the tree alone. *)
Definition succeeding_process (cmd : list string) (fs : FS) : option FS :=
  match cmd with
  | "git" :: "clone" :: _ :: target :: _ => Some (set_entry target (NDir template) fs)
  | _ => Some fs
  end.

(** Collaborators that all succeed, for a user who types [typed] at the
    input questions; [orange] says whether the styling library has that
    style. *)
Definition succeeding (typed : string -> string) (orange : bool) : collaborators :=
  mkCollaborators (Some []) "pnpm" ["app"; "bucket"] typed false false
    (Some ["next"; "react"; "@clerk/nextjs"; "next-auth"])
    succeeding_process (fun _ => Some minimal_manifest)
    dev_machine orange ascii_only_lower.

Definition five_keys : list string :=
  [ "AWS_ACCESS_KEY_ID"; "AWS_SECRET_ACCESS_KEY"; "AWS_REGION";
    "AWS_S3_BUCKET_NAME"; "OPENAI_API_KEY" ].









(* ===================================================================== *)
(** * [findAppDirectory]: the recursive search of [util.js] *)
(* ===================================================================== *)

(** The result of one call: the directories searched so far, in order (each
    call prints its progress message once, before it reads its directory),
    and the outcome. *)
Definition search_result := (list path * outcome (option path))%type.

(** The [for (const entry of entries)] loop of [findAppDirectory]; [recur]
    is the recursive call.  A non-null [nestedPath] is returned at once, a
    null one lets the loop go on with the next entry. *)
Fixpoint find_in_entries (recur : path -> option search_result) (dir : path)
  (entries : list entry) : option search_result :=
  match entries with
  | [] => Some ([], Returned None)
  | entry :: entries' =>
      if isDirectory entry then
        if String.eqb (entry_name entry) "app"
        then Some ([], Returned (Some (path_join dir [entry_name entry])))
        else
          match recur (path_join dir [entry_name entry]) with
          | None => None
          | Some (searched, Returned (Some nestedPath)) =>
              Some (searched, Returned (Some nestedPath))
          | Some (searched, Threw e) => Some (searched, Threw e)
          | Some (searched, Returned None) =>
              match find_in_entries recur dir entries' with
              | Some (searched', r) => Some (searched ++ searched', r)
              | None => None
              end
          end
      else find_in_entries recur dir entries'
  end.

(** [findAppDirectory(dir)] with a bound on the depth of the recursion;
    [None] is fuel exhaustion. *)
Fixpoint search_dir (fuel : nat) (fs : FS) (dir : path) : option search_result :=
  match fuel with
  | O => None
  | S fuel' =>
      match readdir fs dir with
      | None => Some ([dir], Threw (ENOENT dir))
      | Some entries =>
          match find_in_entries (search_dir fuel' fs) dir entries with
          | Some (searched, r) => Some (dir :: searched, r)
          | None => None
          end
      end
  end.

(** No directory of a tree is nested deeper than the tree has entries. *)
Definition search_fuel (fs : FS) : nat := S (entries_size fs).

Definition findAppDirectory (fs : FS) (dir : path) : option search_result :=
  search_dir (search_fuel fs) fs dir.

(** The outcome of a search, without the directories searched. *)
Definition found (r : option search_result) : option (outcome (option path)) :=
  match r with Some (_, o) => Some o | None => None end.

(** A host tree where a nested candidate is listed before a direct child
    named "app". *)
Definition nested_first_fs : FS :=
  [ File "package.json" "{}";
    Dir "packages" [ Dir "admin" [ Dir "app" [] ] ];
    Dir "app" [ File "page.tsx" "" ] ].

(* ===================================================================== *)
(** * The route validator, and further views of a run *)
(* ===================================================================== *)

(** What a [validate] callback of a question returns: [true], or the message
    shown before the question is asked again. *)
Inductive validation : Type :=
| Valid
| Invalid (message : string).

(** The [validate] callback of [promptForBucketRoute]. *)
Definition bucketRoute_validate (input : string) : validation :=
  if negb (includes "/app/" input) && negb (includes "/pages/" input)
  then Invalid "The route should start with either /app or /pages."
  else Valid.

(** [s] occurs in [t] as a substring. *)
Definition occurs_in (s t : string) : Prop :=
  exists pre post, t = pre +:+ s +:+ post.

(** The answers the environment prompt of the second variant returns for a
    project of the given name. *)
Definition env_answers (c : collaborators) (projectName : jsstring)
  : list (string * string) :=
  map (input_answer c)
      (aws_questions (defaultBucketName c projectName) ++ [("OPENAI_API_KEY", None)]).

Definition manifest_name (m : manifest) : jsstring :=
  match m_name m with Some n => n | None => [] end.

(** An event that installs no package outside [allowed]. *)
Definition installs_only (allowed : string -> Prop) (ev : event) : Prop :=
  match ev with
  | EvExec (_ :: verb :: packages) => verb = "install" -> Forall allowed packages
  | _ => True
  end.

(** An event that is no part of the launch: no port is probed, no browser
    is scheduled, no dev server is started. *)
Definition not_a_launch (ev : event) : Prop :=
  match ev with
  | EvListen _ => False
  | EvOpen _ _ => False
  | EvExec cmd => forall packageManager, cmd <> dev_command packageManager
  | _ => True
  end.



(** A computation that throws from every world. *)
Definition never_returns {A} (m : M A) : Prop :=
  forall w, exists e w', m w = (Threw e, w').

(** An event that changes the disk at most by creating one directory. *)
Definition at_most_mkdir (ev : event) : Prop :=
  match ev with
  | EvMkdir _ => True
  | _ => mutates ev = false
  end.

(* ===================================================================== *)
(** * Properties *)
(* ===================================================================== *)

(** Induction on entries, with the hypothesis available for every child. *)
Lemma entry_nested_ind (P : entry -> Prop) :
  (forall n c, P (File n c)) ->
  (forall n cs, Forall P cs -> P (Dir n cs)) ->
  forall e, P e.
Proof.
  intros HFile HDir. fix IH 1. intros [n c | n cs].
  - apply HFile.
  - apply HDir. induction cs as [| c cs IHcs]; constructor.
    + apply IH.
    + apply IHcs.
Qed.

(** ** Names and lookups *)

Lemma nodupb_NoDup l : nodupb l = true -> NoDup l.
Proof.
  induction l as [| x l IH]; simpl; intros H.
  - constructor.
  - apply andb_true_iff in H as [Hx Hl]. constructor; [| auto].
    apply negb_true_iff in Hx. intros Hin.
    apply list_elem_of_In in Hin.
    assert (existsb (String.eqb x) l = true) as E.
    { apply existsb_exists. exists x. split; [exact Hin | apply String.eqb_refl]. }
    congruence.
Qed.

Lemma wf_entry_Dir n cs : wf_entry (Dir n cs) = wf_fs cs.
Proof.
  reflexivity.
Qed.

Lemma wf_fs_child es e : wf_fs es = true -> In e es -> wf_entry e = true.
Proof.
  unfold wf_fs. intros H Hin. apply andb_true_iff in H as [_ H].
  rewrite forallb_forall in H. auto.
Qed.

Lemma find_entry_In es e :
  nodupb (map entry_name es) = true -> In e es ->
  find_entry (entry_name e) es = Some e.
Proof.
  unfold find_entry. induction es as [| c es IH]; simpl; intros Hnd Hin; [done |].
  apply andb_true_iff in Hnd as [Hc Hnd].
  destruct Hin as [-> | Hin].
  - by rewrite String.eqb_refl.
  - destruct (String.eqb_spec (entry_name c) (entry_name e)) as [E | _]; [| auto].
    exfalso. apply negb_true_iff in Hc.
    assert (existsb (String.eqb (entry_name c)) (map entry_name es) = true) as X.
    { apply existsb_exists. exists (entry_name e). split.
      - apply in_map. exact Hin.
      - rewrite E. apply String.eqb_refl. }
    congruence.
Qed.

Lemma find_entry_name n es e : find_entry n es = Some e -> entry_name e = n /\ In e es.
Proof.
  unfold find_entry. intros H. apply find_some in H as [Hin E].
  apply String.eqb_eq in E. auto.
Qed.

Lemma stat_app fs p q :
  stat fs (p ++ q) =
  match stat fs p with
  | Some (NDir es) => stat es q
  | Some (NFile c) => match q with [] => Some (NFile c) | _ => None end
  | None => None
  end.
Proof.
  revert fs. induction p as [| n p IH]; intros fs; simpl.
  - done.
  - destruct (find_entry n fs) as [[m c | m cs] |]; [| apply IH | done].
    destruct p; simpl; [done |]. by destruct q.
Qed.

Lemma stat_wf fs p es : wf_fs fs = true -> stat fs p = Some (NDir es) -> wf_fs es = true.
Proof.
  revert fs. induction p as [| n p IH]; intros fs Hwf; simpl.
  - by intros [= <-].
  - destruct (find_entry n fs) as [[m c | m cs] |] eqn:E; [by destruct p | | done].
    apply find_entry_name in E as [_ Hin].
    apply IH. rewrite <- (wf_entry_Dir m). eapply wf_fs_child; eauto.
Qed.

Lemma entry_size_Dir n cs : entry_size (Dir n cs) = S (entries_size cs).
Proof. reflexivity. Qed.

Lemma entries_size_In e es : In e es -> entry_size e <= entries_size es.
Proof.
  induction es as [| c es IH]; simpl; [done |].
  intros [-> | Hin]; [lia |]. specialize (IH Hin). lia.
Qed.

Lemma stat_size fs p es : stat fs p = Some (NDir es) -> entries_size es <= entries_size fs.
Proof.
  revert fs. induction p as [| n p IH]; intros fs; simpl.
  - by intros [= <-].
  - destruct (find_entry n fs) as [[m c | m cs] |] eqn:E; [by destruct p | | done].
    apply find_entry_name in E as [_ Hin]. intros H. apply IH in H.
    apply entries_size_In in Hin. rewrite entry_size_Dir in Hin. lia.
Qed.

Lemma readdir_child fs dir items c :
  readdir fs dir = Some items -> wf_fs items = true -> In c items ->
  isDirectory c = true ->
  readdir fs (path_join dir [entry_name c]) = Some (children_of c).
Proof.
  unfold readdir, path_join. intros Hd Hwf Hin Hc. rewrite stat_app.
  destruct (stat fs dir) as [[| es] |]; try done. injection Hd as ->.
  simpl. unfold wf_fs in Hwf. apply andb_true_iff in Hwf as [Hnd _].
  rewrite (find_entry_In _ _ Hnd Hin). by destruct c.
Qed.

(** ** The inner loop *)

Lemma scan_items_found dir items st :
  existsb is_app_dir items = true ->
  scan_items dir items st = inl (path_join dir ["app"]).
Proof.
  revert st. induction items as [| c items IH]; intros st; simpl; [done |].
  unfold is_app_dir at 1. destruct (isDirectory c); simpl; [| apply IH].
  destruct (String.eqb_spec (entry_name c) "app") as [-> | _]; simpl; [done | apply IH].
Qed.

Lemma scan_items_none dir items st :
  existsb is_app_dir items = false ->
  scan_items dir items st = inr (rev (map fst (subdirs dir items)) ++ st).
Proof.
  unfold subdirs. revert st.
  induction items as [| c items IH]; intros st; simpl; [done |].
  unfold is_app_dir at 1. destruct (isDirectory c); simpl.
  - destruct (String.eqb (entry_name c) "app"); simpl; [done |].
    intros H. rewrite (IH _ H). by rewrite <- app_assoc.
  - apply IH.
Qed.

(** ** The traversal order *)

Lemma first_app_unfold dir es :
  first_app dir es =
  if existsb is_app_dir es then Some (path_join dir ["app"]) else visit_rev dir es.
Proof.
  unfold first_app. simpl. destruct (existsb is_app_dir es); [done |].
  induction es as [| c es IH]; simpl; [done |]. by rewrite IH.
Qed.

Lemma first_app_in_Dir dir n cs : first_app_in dir (Dir n cs) = first_app dir cs.
Proof. reflexivity. Qed.

Lemma search_stack_app st1 st2 :
  search_stack (st1 ++ st2) =
  match search_stack st1 with Some q => Some q | None => search_stack st2 end.
Proof.
  induction st1 as [| [p es] st1 IH]; simpl; [done |].
  destruct (first_app p es); [done | apply IH].
Qed.

Lemma search_stack_subdirs dir items :
  search_stack (rev (subdirs dir items)) = visit_rev dir items.
Proof.
  unfold subdirs. induction items as [| c items IH]; [done |].
  destruct c as [n ct | n cs];
    cbn [List.filter isDirectory map rev visit_rev entry_name children_of].
  - rewrite IH. by destruct (visit_rev dir items).
  - rewrite search_stack_app, IH. cbn [search_stack].
    destruct (visit_rev dir items); [done |].
    rewrite first_app_in_Dir. by destruct (first_app _ cs).
Qed.

Lemma stack_weight_app st1 st2 :
  stack_weight (st1 ++ st2) = stack_weight st1 + stack_weight st2.
Proof. induction st1 as [| [p es] st1 IH]; simpl; [done |]. rewrite IH. lia. Qed.

Lemma stack_weight_subdirs dir items :
  stack_weight (rev (subdirs dir items)) <= entries_size items.
Proof.
  unfold subdirs. induction items as [| c items IH]; [done |].
  destruct c as [n ct | n cs];
    cbn [List.filter isDirectory map rev entries_size children_of].
  - lia.
  - rewrite stack_weight_app, entry_size_Dir. cbn [stack_weight]. lia.
Qed.

Lemma resolves_subdirs fs dir items :
  resolves fs (dir, items) -> Forall (resolves fs) (rev (subdirs dir items)).
Proof.
  intros [Hd Hwf]. simpl in *. apply Forall_rev. unfold subdirs.
  apply Forall_forall. intros r Hr.
  apply list_elem_of_In, in_map_iff in Hr as (c & <- & Hc).
  apply filter_In in Hc as [Hin Hdir]. split; simpl.
  - eapply readdir_child; eauto.
  - pose proof (wf_fs_child _ _ Hwf Hin) as W.
    destruct c as [| n cs]; [done |]. simpl. by rewrite <- (wf_entry_Dir n).
Qed.

(** The work-list loop computes the tree-order search of its work-list. *)
Lemma locate_loop_search fs fuel : forall st,
  Forall (resolves fs) st -> stack_weight st < fuel ->
  locate_loop fuel fs (map fst st) = Some (Returned (search_stack st)).
Proof.
  induction fuel as [| fuel IH]; intros st Hst Hw; [lia |].
  destruct st as [| [dir items] rest]; simpl; [done |].
  apply Forall_cons in Hst as [Hd Hrest].
  pose proof Hd as [Hread Hwf]. simpl in Hread, Hwf. rewrite Hread.
  rewrite first_app_unfold.
  destruct (existsb is_app_dir items) eqn:E.
  - by rewrite scan_items_found.
  - rewrite scan_items_none by done.
    rewrite <- map_rev, <- map_app, IH.
    + by rewrite search_stack_app, search_stack_subdirs.
    + apply Forall_app. split; [by apply resolves_subdirs | done].
    + rewrite stack_weight_app. pose proof (stack_weight_subdirs dir items).
      cbn [stack_weight] in Hw.
      lia.
Qed.

(** ** Candidates and the answer *)

Lemma visit_rev_Some dir cs p :
  visit_rev dir cs = Some p ->
  exists c, In c cs /\ first_app_in (path_join dir [entry_name c]) c = Some p.
Proof.
  induction cs as [| c cs IH]; cbn [visit_rev]; [done |].
  destruct (visit_rev dir cs) as [q |].
  - intros [= <-]. destruct IH as (c' & Hin & E); [done |].
    exists c'. split; [by right | done].
  - intros E. exists c. split; [by left | done].
Qed.

Lemma visit_rev_None dir cs :
  visit_rev dir cs = None ->
  forall c, In c cs -> first_app_in (path_join dir [entry_name c]) c = None.
Proof.
  induction cs as [| c cs IH]; cbn [visit_rev]; [done |].
  destruct (visit_rev dir cs) as [q |]; [done |].
  intros E c' [<- | Hin]; [done | by apply IH].
Qed.

Lemma app_dirs_in_Dir dir n cs : app_dirs_in dir (Dir n cs) = each_app dir cs.
Proof.
  induction cs as [| c cs IH]; [done |].
  cbn [each_app]. rewrite <- IH. reflexivity.
Qed.

Lemma In_each_app dir cs p :
  In p (each_app dir cs) <->
  exists c, In c cs /\
    ((is_app_dir c = true /\ p = path_join dir [entry_name c]) \/
     In p (app_dirs_in (path_join dir [entry_name c]) c)).
Proof.
  induction cs as [| c cs IH]; cbn [each_app].
  - split; [done | by intros (c & [] & _)].
  - rewrite !in_app_iff, IH. split.
    + intros [H | [H | (c' & Hin & H)]].
      * destruct (is_app_dir c) eqn:E; [| done].
        destruct H as [<- | []]. exists c. split; [by left | by left].
      * exists c. split; [by left | by right].
      * exists c'. split; [by right | done].
    + intros (c' & [<- | Hin] & [[E ->] | H]).
      * left. rewrite E. by left.
      * right. by left.
      * right. right. exists c'. split; [done | left; done].
      * right. right. exists c'. split; [done | by right].
Qed.

Lemma existsb_is_app_dir cs :
  existsb is_app_dir cs = true -> exists c, In c cs /\ is_app_dir c = true.
Proof. intros H. apply existsb_exists in H. exact H. Qed.

Lemma is_app_dir_name c : is_app_dir c = true -> entry_name c = "app".
Proof.
  unfold is_app_dir. intros H. apply andb_true_iff in H as [_ H].
  by apply String.eqb_eq.
Qed.

(** Whatever the search returns is one of the candidates. *)
Lemma first_app_in_candidate e : forall dir p,
  first_app_in dir e = Some p -> In p (app_dirs_in dir e).
Proof.
  induction e as [n c | n cs IH] using entry_nested_ind; intros dir p; [done |].
  rewrite first_app_in_Dir, first_app_unfold, app_dirs_in_Dir, In_each_app.
  destruct (existsb is_app_dir cs) eqn:E.
  - intros [= <-]. apply existsb_is_app_dir in E as (c & Hin & Hc).
    exists c. split; [done |]. left. split; [done |].
    by rewrite (is_app_dir_name _ Hc).
  - intros H. apply visit_rev_Some in H as (c & Hin & Hc).
    exists c. split; [done |]. right.
    rewrite Forall_forall in IH. apply IH; [by apply list_elem_of_In | done].
Qed.

(** When there are candidates, the search returns one. *)
Lemma first_app_in_finds e : forall dir,
  app_dirs_in dir e <> [] -> exists p, first_app_in dir e = Some p.
Proof.
  induction e as [n c | n cs IH] using entry_nested_ind; intros dir; [done |].
  rewrite first_app_in_Dir, first_app_unfold, app_dirs_in_Dir.
  destruct (existsb is_app_dir cs) eqn:E; [by eexists |].
  intros Hne. destruct (visit_rev dir cs) as [q |] eqn:V; [by eexists |].
  exfalso. apply Hne. destruct (each_app dir cs) as [| p l] eqn:A; [done |].
  assert (In p (each_app dir cs)) as Hp by (rewrite A; by left).
  apply In_each_app in Hp as (c & Hin & [[Hc _] | Hc]).
  - assert (existsb is_app_dir cs = true); [| congruence].
    apply existsb_exists. eauto.
  - rewrite Forall_forall in IH.
    destruct (IH c (proj2 (list_elem_of_In _ _) Hin) (path_join dir [entry_name c]))
      as [q Hq].
    + intros X. by rewrite X in Hc.
    + by rewrite (visit_rev_None _ _ V c Hin) in Hq.
Qed.

(** The path found extends the start path by directories not named "app"
    and ends with the segment "app". *)
Lemma first_app_in_shape e : forall dir p,
  first_app_in dir e = Some p ->
  exists q, p = dir ++ q ++ ["app"] /\ ~ In "app" q.
Proof.
  induction e as [n c | n cs IH] using entry_nested_ind; intros dir p; [done |].
  rewrite first_app_in_Dir, first_app_unfold.
  destruct (existsb is_app_dir cs) eqn:E.
  - intros [= <-]. exists []. split; [reflexivity | intros []].
  - intros H. apply visit_rev_Some in H as (c & Hin & Hc).
    rewrite Forall_forall in IH.
    destruct (IH c (proj2 (list_elem_of_In _ _) Hin) _ _ Hc) as (q & -> & Hq).
    exists (entry_name c :: q). split.
    + unfold path_join. by rewrite <- !app_assoc.
    + intros [Hn | Hq']; [| done].
      destruct c as [m ct | m cs']; [done |]. simpl in Hn. subst m.
      assert (existsb is_app_dir cs = true); [| congruence].
      apply existsb_exists. exists (Dir "app" cs'). by split.
Qed.

(** The traversal order, pinned on a tree with two candidates: the directory
    listed last is expanded first, so [lib/app] wins over [src/app]. *)
Example getAppDirectoryPath_order :
  getAppDirectoryPath two_apps_fs [] = Some (Returned (Some ["lib"; "app"]))
  /\ app_dirs [] two_apps_fs = [["src"; "app"]; ["lib"; "app"]].
Proof. split; reflexivity. Qed.

(** C2. On a finite directory tree (no two entries of a directory sharing a
    name), [getAppDirectoryPath] terminates and returns the first directory
    named "app" in the LIFO work-list order, i.e. [first_app]: with exactly
    one candidate at any depth it returns that candidate's path, with none it
    returns null, and with several it returns one of them. *)
Theorem getAppDirectoryPath_correct (fs : FS) (startDir : path) (items : list entry) :
  wf_fs fs = true ->
  readdir fs startDir = Some items ->
  (forall fuel, locate_fuel fs <= fuel ->
     locate_loop fuel fs [startDir] = Some (Returned (first_app startDir items)))
  /\ getAppDirectoryPath fs startDir = Some (Returned (first_app startDir items))
  /\ (forall p, app_dirs startDir items = [p] ->
        getAppDirectoryPath fs startDir = Some (Returned (Some p)))
  /\ (app_dirs startDir items = [] ->
        getAppDirectoryPath fs startDir = Some (Returned None))
  /\ (app_dirs startDir items <> [] ->
        exists p, getAppDirectoryPath fs startDir = Some (Returned (Some p))
                  /\ In p (app_dirs startDir items)).
Proof.
  intros Hwf Hread.
  assert (forall fuel, locate_fuel fs <= fuel ->
            locate_loop fuel fs [startDir]
            = Some (Returned (first_app startDir items))) as Hloop.
  { intros fuel Hfuel.
    assert (wf_fs items = true) as Hwi.
    { unfold readdir in Hread.
      destruct (stat fs startDir) as [[| es] |] eqn:E; try done.
      injection Hread as ->. eapply stat_wf; eauto. }
    assert (entries_size items <= entries_size fs) as Hsz.
    { unfold readdir in Hread.
      destruct (stat fs startDir) as [[| es] |] eqn:E; try done.
      injection Hread as ->. eapply stat_size; eauto. }
    change [startDir] with (map fst [(startDir, items)]).
    rewrite locate_loop_search.
    - cbn [search_stack]. by destruct (first_app startDir items).
    - constructor; [by split | constructor].
    - unfold locate_fuel in Hfuel. cbn [stack_weight]. lia. }
  assert (getAppDirectoryPath fs startDir
          = Some (Returned (first_app startDir items))) as Hget.
  { apply Hloop. unfold locate_fuel. lia. }
  split; [exact Hloop |]. split; [exact Hget |].
  assert (app_dirs startDir items <> [] ->
          exists p, first_app startDir items = Some p
                    /\ In p (app_dirs startDir items)) as Hsome.
  { intros Hne. destruct (first_app_in_finds _ _ Hne) as [p Hp].
    exists p. split; [exact Hp | by apply first_app_in_candidate]. }
  repeat split.
  - intros p Hp. rewrite Hget.
    destruct Hsome as (q & -> & Hq); [by rewrite Hp |].
    rewrite Hp in Hq. destruct Hq as [-> | []]. done.
  - intros Hnone. rewrite Hget.
    destruct (first_app startDir items) as [q |] eqn:E; [| done].
    apply first_app_in_candidate in E. unfold app_dirs in Hnone.
    by rewrite Hnone in E.
  - intros Hne. destruct (Hsome Hne) as (p & Hp & Hin).
    exists p. by rewrite Hget, Hp.
Qed.

Lemma getAppDirectoryPath_correct_witness :
  getAppDirectoryPath two_apps_fs [] = Some (Returned (Some ["lib"; "app"])).
Proof.
  exact (proj1 (proj2 (getAppDirectoryPath_correct two_apps_fs [] two_apps_fs
                         eq_refl eq_refl))).
Defined.

(** ** [slugify] *)

Example slugify_my_cool_app f : slugify f (js "My Cool App!!") = js "my-cool-app".
Proof. reflexivity. Qed.

Example slugify_sample : slugify ascii_only_lower sample_name = js "miles-app-2".
Proof. reflexivity. Qed.

Example slugify_foo f : slugify f (js "  --Foo--  ") = js "foo".
Proof. reflexivity. Qed.

(** *** Character classes *)

Ltac classes :=
  unfold is_slug_char, is_word, is_upper, is_hyphen, is_space, is_ascii_unit,
    ascii_lower, hyphen in *.

Lemma slug_char_ascii c : is_slug_char c = true -> is_ascii_unit c = true.
Proof. classes. lia. Qed.

Lemma slug_char_lower c : is_slug_char c = true -> ascii_lower c = c.
Proof.
  intros H. unfold ascii_lower.
  destruct (is_upper c) eqn:E; [| done]. classes. lia.
Qed.

Lemma slug_char_not_space c : is_slug_char c = true -> is_space c = false.
Proof. classes. lia. Qed.

Lemma slug_char_kept c : is_slug_char c = true -> is_word c || is_hyphen c = true.
Proof. classes. lia. Qed.

Lemma kept_lower_slug_char c :
  is_word c || is_hyphen c = true -> negb (is_upper c) = true ->
  is_slug_char c = true.
Proof. classes. lia. Qed.

Lemma ascii_lower_not_upper c : negb (is_upper (ascii_lower c)) = true.
Proof.
  unfold ascii_lower. destruct (is_upper c) eqn:E; classes; lia.
Qed.

Lemma hyphen_not_upper : negb (is_upper hyphen) = true.
Proof. reflexivity. Qed.

(** *** Each pass keeps a property of all characters *)

Section Pointwise.
Variable P : N -> bool.

Lemma replace_spaces_forallb s :
  P hyphen = true -> forallb P s = true -> forallb P (replace_spaces s) = true.
Proof.
  intros Hh. induction s as [| c s IH]; [done |].
  cbn [forallb replace_spaces]. intros H.
  apply andb_true_iff in H as [Hc Hs]. specialize (IH Hs).
  destruct (is_space c).
  - destruct s as [| c2 s']; [by cbn; rewrite Hh |].
    destruct (is_space c2); [done |]. cbn [forallb]. by rewrite Hh, IH.
  - cbn [forallb]. by rewrite Hc, IH.
Qed.

Lemma remove_non_word_forallb s :
  forallb P s = true -> forallb P (remove_non_word s) = true.
Proof.
  unfold remove_non_word. induction s as [| c s IH]; [done |].
  cbn [forallb List.filter]. intros H.
  apply andb_true_iff in H as [Hc Hs]. specialize (IH Hs).
  destruct (is_word c || is_hyphen c); [| done].
  cbn [forallb]. by rewrite Hc, IH.
Qed.

Lemma collapse_hyphens_forallb s :
  forallb P s = true -> forallb P (collapse_hyphens s) = true.
Proof.
  induction s as [| c s IH]; [done |].
  cbn [forallb collapse_hyphens]. intros H.
  apply andb_true_iff in H as [Hc Hs]. specialize (IH Hs).
  destruct (is_hyphen c).
  - destruct s as [| c2 s']; [by cbn; rewrite Hc |].
    destruct (is_hyphen c2); [done |]. cbn [forallb]. by rewrite Hc, IH.
  - cbn [forallb]. by rewrite Hc, IH.
Qed.

Lemma trim_start_forallb s :
  forallb P s = true -> forallb P (trim_start s) = true.
Proof.
  induction s as [| c s IH]; [done |].
  cbn [forallb trim_start]. intros H. pose proof H as H'.
  apply andb_true_iff in H as [Hc Hs].
  destruct (is_hyphen c); [auto | done].
Qed.

Lemma trim_end_forallb s :
  forallb P s = true -> forallb P (trim_end s) = true.
Proof.
  induction s as [| c s IH]; [done |].
  cbn [forallb trim_end]. intros H.
  apply andb_true_iff in H as [Hc Hs]. specialize (IH Hs).
  destruct (trim_end s) as [| r rs].
  - destruct (is_hyphen c); [done |]. cbn. by rewrite Hc.
  - cbn [forallb] in *. by rewrite Hc, IH.
Qed.
End Pointwise.

Lemma remove_non_word_kept s :
  forallb (fun c => is_word c || is_hyphen c) (remove_non_word s) = true.
Proof.
  unfold remove_non_word. induction s as [| c s IH]; [done |].
  cbn [List.filter]. destruct (is_word c || is_hyphen c) eqn:E; [| done].
  cbn [forallb]. by rewrite E, IH.
Qed.

Lemma toLowerCase_not_upper f s :
  lowers f -> forallb (fun c => negb (is_upper c)) (toLowerCase f s) = true.
Proof.
  intros Hf. unfold toLowerCase. destruct (forallb is_ascii_unit s); [| apply Hf].
  induction s as [| c s IH]; [done |].
  cbn [map forallb]. by rewrite ascii_lower_not_upper, IH.
Qed.

Lemma forallb_and (P Q R : N -> bool) s :
  (forall c, P c = true -> Q c = true -> R c = true) ->
  forallb P s = true -> forallb Q s = true -> forallb R s = true.
Proof.
  intros HR. induction s as [| c s IH]; [done |]. cbn [forallb].
  intros HP HQ. apply andb_true_iff in HP as [? ?], HQ as [? ?].
  apply andb_true_iff. auto.
Qed.

(** *** The shape of the result *)

Lemma collapse_hyphens_start s :
  starts_with_hyphen (collapse_hyphens s) = starts_with_hyphen s.
Proof.
  induction s as [| c s IH]; [done |]. cbn [collapse_hyphens].
  destruct (is_hyphen c) eqn:E.
  - destruct s as [| c2 s']; [by cbn |].
    destruct (is_hyphen c2) eqn:E2.
    + rewrite IH. cbn. by rewrite E, E2.
    + by cbn.
  - by cbn.
Qed.

Lemma no_double_hyphen_cons c d ds :
  no_double_hyphen (c :: d :: ds)
  = negb (is_hyphen c && is_hyphen d) && no_double_hyphen (d :: ds).
Proof. reflexivity. Qed.

Lemma collapse_hyphens_no_double s : no_double_hyphen (collapse_hyphens s) = true.
Proof.
  induction s as [| c s IH]; [done |]. cbn [collapse_hyphens].
  destruct (is_hyphen c) eqn:E.
  - destruct s as [| c2 s']; [done |].
    destruct (is_hyphen c2) eqn:E2; [done |].
    pose proof (collapse_hyphens_start (c2 :: s')) as Hs.
    destruct (collapse_hyphens (c2 :: s')) as [| d ds] eqn:C; [done |].
    rewrite no_double_hyphen_cons. cbn in Hs. rewrite E2 in Hs.
    by rewrite Hs, andb_false_r, IH.
  - destruct (collapse_hyphens s) as [| d ds] eqn:C; [done |].
    rewrite no_double_hyphen_cons. by rewrite E, IH.
Qed.

Lemma no_double_hyphen_tail c s :
  no_double_hyphen (c :: s) = true -> no_double_hyphen s = true.
Proof.
  cbn [no_double_hyphen]. destruct s; [done |].
  intros H. by apply andb_true_iff in H as [_ H].
Qed.

Lemma trim_start_no_double s :
  no_double_hyphen s = true -> no_double_hyphen (trim_start s) = true.
Proof.
  induction s as [| c s IH]; [done |]. intros H. cbn [trim_start].
  destruct (is_hyphen c); [| done]. apply IH. by eapply no_double_hyphen_tail.
Qed.

Lemma trim_end_start s :
  starts_with_hyphen s = false -> starts_with_hyphen (trim_end s) = false.
Proof.
  destruct s as [| c s]; [done |]. cbn [starts_with_hyphen trim_end].
  intros E. destruct (trim_end s); [by rewrite E | done].
Qed.

Lemma trim_end_head c s d ds : trim_end (c :: s) = d :: ds -> d = c.
Proof.
  cbn [trim_end]. destruct (trim_end s).
  - destruct (is_hyphen c); [done | by intros [= <- _]].
  - by intros [= <- _].
Qed.

Lemma trim_end_no_double s :
  no_double_hyphen s = true -> no_double_hyphen (trim_end s) = true.
Proof.
  induction s as [| c s IH]; [done |]. intros H.
  pose proof (IH (no_double_hyphen_tail _ _ H)) as IH'.
  cbn [trim_end]. destruct (trim_end s) as [| d ds] eqn:T.
  - by destruct (is_hyphen c).
  - destruct s as [| c2 s']; [done |].
    apply trim_end_head in T as ->.
    rewrite no_double_hyphen_cons in H |- *.
    apply andb_true_iff in H as [H _]. by rewrite H, IH'.
Qed.

Lemma trim_start_start s : starts_with_hyphen (trim_start s) = false.
Proof.
  induction s as [| c s IH]; [done |]. cbn [trim_start].
  destruct (is_hyphen c) eqn:E; [done | by cbn].
Qed.

Lemma trim_end_end s : ends_with_hyphen (trim_end s) = false.
Proof.
  induction s as [| c s IH]; [done |]. cbn [trim_end].
  destruct (trim_end s) as [| d ds] eqn:T.
  - destruct (is_hyphen c) eqn:E; [done | by cbn; rewrite E].
  - done.
Qed.

(** *** A slug is left as it is by every pass *)

Lemma toLowerCase_slug f s : forallb is_slug_char s = true -> toLowerCase f s = s.
Proof.
  intros H. unfold toLowerCase.
  assert (forallb is_ascii_unit s = true) as ->.
  { induction s as [| c s IH]; [done |]. cbn [forallb] in *.
    apply andb_true_iff in H as [Hc Hs]. by rewrite (slug_char_ascii _ Hc), IH. }
  induction s as [| c s IH]; [done |]. cbn [forallb map] in *.
  apply andb_true_iff in H as [Hc Hs]. by rewrite (slug_char_lower _ Hc), IH.
Qed.

Lemma replace_spaces_slug s : forallb is_slug_char s = true -> replace_spaces s = s.
Proof.
  induction s as [| c s IH]; [done |]. cbn [forallb replace_spaces]. intros H.
  apply andb_true_iff in H as [Hc Hs]. by rewrite (slug_char_not_space _ Hc), IH.
Qed.

Lemma remove_non_word_slug s : forallb is_slug_char s = true -> remove_non_word s = s.
Proof.
  unfold remove_non_word.
  induction s as [| c s IH]; [done |]. cbn [forallb List.filter]. intros H.
  apply andb_true_iff in H as [Hc Hs]. by rewrite (slug_char_kept _ Hc), IH.
Qed.

Lemma collapse_hyphens_slug s : no_double_hyphen s = true -> collapse_hyphens s = s.
Proof.
  induction s as [| c s IH]; [done |]. intros H.
  pose proof (IH (no_double_hyphen_tail _ _ H)) as IH'.
  cbn [collapse_hyphens]. destruct (is_hyphen c) eqn:E; [| by rewrite IH'].
  destruct s as [| c2 s']; [done |].
  rewrite no_double_hyphen_cons, E in H.
  destruct (is_hyphen c2); [done | by rewrite IH'].
Qed.

Lemma trim_start_slug s : starts_with_hyphen s = false -> trim_start s = s.
Proof. destruct s as [| c s]; [done |]. cbn. by intros ->. Qed.

Lemma trim_end_slug s : ends_with_hyphen s = false -> trim_end s = s.
Proof.
  induction s as [| c s IH]; [done |]. cbn [ends_with_hyphen trim_end].
  destruct s as [| c2 s'].
  - cbn. by intros ->.
  - intros H. rewrite (IH H). done.
Qed.

Lemma slugify_is_slug f s : lowers f -> is_slug (slugify f s) = true.
Proof.
  intros Hf. unfold is_slug, slugify.
  rewrite trim_end_end, trim_end_start by apply trim_start_start.
  rewrite trim_end_no_double
    by (apply trim_start_no_double, collapse_hyphens_no_double).
  rewrite !andb_true_r.
  apply trim_end_forallb, trim_start_forallb, collapse_hyphens_forallb.
  eapply forallb_and; [apply kept_lower_slug_char | apply remove_non_word_kept |].
  apply remove_non_word_forallb, replace_spaces_forallb;
    [apply hyphen_not_upper | by apply toLowerCase_not_upper].
Qed.

Lemma slugify_slug f s : is_slug s = true -> slugify f s = s.
Proof.
  unfold is_slug. intros H.
  apply andb_true_iff in H as [H He]. apply andb_true_iff in H as [H Hs].
  apply andb_true_iff in H as [Hc Hd].
  apply negb_true_iff in He, Hs. unfold slugify.
  rewrite toLowerCase_slug, replace_spaces_slug, remove_non_word_slug by done.
  by rewrite collapse_hyphens_slug, trim_start_slug, trim_end_slug.
Qed.

(** C9. [slugify] is idempotent on every string, and maps
    "My Cool App!!" to "my-cool-app" and "  --Foo--  " to "foo". *)
Theorem slugify_idempotent (unicode_lower : jsstring -> jsstring) (s : jsstring) :
  lowers unicode_lower ->
  slugify unicode_lower (slugify unicode_lower s) = slugify unicode_lower s
  /\ slugify unicode_lower (js "My Cool App!!") = js "my-cool-app"
  /\ slugify unicode_lower (js "  --Foo--  ") = js "foo".
Proof.
  intros Hf. split; [| split; reflexivity].
  apply slugify_slug, slugify_is_slug, Hf.
Qed.

Lemma ascii_only_lower_lowers : lowers ascii_only_lower.
Proof.
  intros s. unfold ascii_only_lower. induction s as [| c s IH]; [done |].
  cbn [map forallb]. by rewrite ascii_lower_not_upper, IH.
Qed.

Lemma slugify_idempotent_witness :
  slugify ascii_only_lower (slugify ascii_only_lower sample_name)
  = slugify ascii_only_lower sample_name.
Proof.
  exact (proj1 (slugify_idempotent ascii_only_lower sample_name
                  ascii_only_lower_lowers)).
Defined.

(** ** File-system operations *)

Lemma entry_name_of n nd : entry_name (entry_of n nd) = n.
Proof. by destruct nd. Qed.

Lemma find_entry_set_same n nd es :
  find_entry n (set_entry n nd es) = Some (entry_of n nd).
Proof.
  unfold find_entry. induction es as [| e es IH]; cbn [set_entry List.find].
  - by rewrite entry_name_of, String.eqb_refl.
  - destruct (String.eqb (entry_name e) n) eqn:E; cbn [List.find].
    + by rewrite entry_name_of, String.eqb_refl.
    + by rewrite E.
Qed.

Lemma find_entry_set_other m n nd es :
  m <> n -> find_entry m (set_entry n nd es) = find_entry m es.
Proof.
  intros Hne. unfold find_entry.
  induction es as [| e es IH]; cbn [set_entry List.find].
  - rewrite entry_name_of. by destruct (String.eqb_spec n m).
  - destruct (String.eqb_spec (entry_name e) n) as [E | E]; cbn [List.find].
    + rewrite entry_name_of. destruct (String.eqb_spec n m); [done |].
      by destruct (String.eqb_spec (entry_name e) m); [congruence |].
    + by rewrite IH.
Qed.



Lemma stat_cons n p es :
  stat es (n :: p) =
  match find_entry n es with
  | None => None
  | Some (File _ c) => match p with [] => Some (NFile c) | _ => None end
  | Some (Dir _ cs) => stat cs p
  end.
Proof. reflexivity. Qed.

Lemma stat_set_entry n nd es p :
  stat (set_entry n nd es) (n :: p) =
  match nd with
  | NFile c => match p with [] => Some (NFile c) | _ => None end
  | NDir cs => stat cs p
  end.
Proof. rewrite stat_cons, find_entry_set_same. by destruct nd. Qed.

(** What was stored is what is found. *)
Lemma stat_put_same p : forall fs nd fs',
  put fs p nd = Some fs' -> stat fs' p = Some nd.
Proof.
  induction p as [| n p IH]; intros fs nd fs'.
  - cbn. destruct nd; [done | by intros [= ->]].
  - cbn [put]. destruct p as [| m p'].
    + intros [= <-]. rewrite stat_set_entry. by destruct nd.
    + destruct (find_entry n fs) as [[? ? | ? cs] |]; try done.
      destruct (put cs (m :: p') nd) as [cs' |] eqn:E; [| done].
      intros [= <-]. rewrite stat_set_entry. eauto.
Qed.

(** Storing succeeds wherever something already is. *)
Lemma put_over p : forall fs nd0 nd,
  p <> [] -> stat fs p = Some nd0 -> exists fs', put fs p nd = Some fs'.
Proof.
  induction p as [| n p IH]; intros fs nd0 nd Hne; [done |].
  rewrite stat_cons. cbn [put]. destruct p as [| m p']; [by eexists |].
  destruct (find_entry n fs) as [[? ? | ? cs] |]; try done.
  intros H. destruct (IH cs nd0 nd) as [cs' ->]; [done | done |]. by eexists.
Qed.

(** Storing succeeds in every existing directory. *)
Lemma put_child dir : forall fs listing n nd,
  stat fs dir = Some (NDir listing) ->
  exists fs', put fs (dir ++ [n]) nd = Some fs'.
Proof.
  induction dir as [| m dir IH]; intros fs listing n nd.
  - intros _. by eexists.
  - rewrite stat_cons. cbn [app put].
    destruct (dir ++ [n]) as [| x xs] eqn:E; [by destruct dir |].
    destruct (find_entry m fs) as [[? ? | ? cs] |]; try done.
    + by destruct dir.
    + intros H. rewrite <- E. destruct (IH cs listing n nd H) as [cs' ->].
      by eexists.
Qed.

Lemma split_last_snoc p n : split_last (p ++ [n]) = Some (p, n).
Proof. induction p as [| m p IH]; [done |]. cbn. by rewrite IH. Qed.

Lemma dirname_snoc p n : dirname (p ++ [n]) = p.
Proof. unfold dirname. by rewrite split_last_snoc. Qed.



(** ** [writeEnvVariables] *)

Lemma writeEnvVariables_fresh es dir w listing :
  stat (w_fs w) dir = Some (NDir listing) ->
  stat (w_fs w) (envPath dir) = None ->
  exists fs',
    writeEnvVariables es dir w =
      (Returned tt,
       mkWorld fs'
         (w_log w ++
          [EvLog ("writing environment variables at " +:+ path_string (envPath dir))]
          ++ [EvWriteFile (envPath dir) (envData es)])
         (w_spinner w))
    /\ stat fs' (envPath dir) = Some (NFile (envData es)).
Proof.
  intros Hdir Hnone.
  destruct (put_child dir (w_fs w) listing ".env.local" (NFile (envData es)) Hdir)
    as [fs' Hput].
  exists fs'. split; [| by eapply stat_put_same].
  unfold writeEnvVariables, bind, existsSyncM, existsSync, console_log, emit,
    writeFile, fs_call, fs_writeFile.
  rewrite Hnone. cbn [w_fs w_log w_spinner]. rewrite Hnone.
  unfold envPath, path_join in *. rewrite split_last_snoc, Hdir, Hput.
  by rewrite <- app_assoc.
Qed.

Lemma writeEnvVariables_existing es dir w prior :
  stat (w_fs w) (envPath dir) = Some (NFile prior) ->
  exists fs',
    writeEnvVariables es dir w =
      (Returned tt,
       mkWorld fs'
         (w_log w ++
          [EvLog ("appending environment variables at " +:+ path_string (envPath dir))]
          ++ [EvAppendFile (envPath dir) (nl +:+ envData es)])
         (w_spinner w))
    /\ stat fs' (envPath dir) = Some (NFile (prior +:+ nl +:+ envData es)).
Proof.
  intros Hfile.
  destruct (put_over (envPath dir) (w_fs w) (NFile prior)
              (NFile (prior +:+ nl +:+ envData es))) as [fs' Hput];
    [by unfold envPath, path_join; destruct dir | done |].
  exists fs'. split; [| by eapply stat_put_same].
  unfold writeEnvVariables, bind, existsSyncM, existsSync, console_log, emit,
    appendFile, fs_call, fs_appendFile.
  rewrite Hfile. cbn [w_fs w_log w_spinner]. rewrite Hfile, Hput.
  by rewrite <- app_assoc.
Qed.

(** *** Lines *)

Lemma split_lines_nonempty s : split_lines s <> [].
Proof.
  destruct s as [| c s]; [done |]. cbn [split_lines].
  destruct (Ascii.eqb c (ascii_of_nat 10)); [done |].
  by destruct (split_lines s).
Qed.

Lemma append_String c a b : String c a +:+ b = String c (a +:+ b).
Proof. reflexivity. Qed.

Lemma split_lines_app a b :
  split_lines (a +:+ nl +:+ b) = split_lines a ++ split_lines b.
Proof.
  induction a as [| c a IH]; [done |].
  rewrite append_String. cbn [split_lines].
  destruct (Ascii.eqb c (ascii_of_nat 10)).
  - by rewrite IH.
  - rewrite IH. pose proof (split_lines_nonempty a).
    by destruct (split_lines a).
Qed.

Lemma split_lines_newline_free s : newline_free s = true -> split_lines s = [s].
Proof.
  induction s as [| c s IH]; [done |]. cbn [newline_free split_lines].
  intros H. apply andb_true_iff in H as [Hc Hs].
  apply negb_true_iff in Hc. by rewrite Hc, IH.
Qed.

Lemma newline_free_app a b :
  newline_free (a +:+ b) = newline_free a && newline_free b.
Proof.
  induction a as [| c a IH]; [done |]. rewrite append_String.
  cbn [newline_free]. by rewrite IH, andb_assoc.
Qed.

Lemma env_line_newline_free kv :
  entry_newline_free kv = true -> newline_free (env_line kv) = true.
Proof.
  unfold entry_newline_free, env_line. intros H.
  apply andb_true_iff in H as [Hk Hv].
  by rewrite !newline_free_app, Hk, Hv.
Qed.

Lemma join_cons sep x y l : join sep (x :: y :: l) = x +:+ sep +:+ join sep (y :: l).
Proof. reflexivity. Qed.

Lemma split_lines_join ls :
  ls <> [] -> forallb newline_free ls = true -> split_lines (join nl ls) = ls.
Proof.
  induction ls as [| x ls IH]; [done |]. intros _ H.
  cbn [forallb] in H. apply andb_true_iff in H as [Hx Hl].
  destruct ls as [| y ls'].
  - by apply split_lines_newline_free.
  - rewrite join_cons, split_lines_app, split_lines_newline_free by done.
    by rewrite IH.
Qed.

(** The lines of a serialized block are the entries' lines, in order. *)
Lemma split_lines_envData es :
  es <> [] -> forallb entry_newline_free es = true ->
  split_lines (envData es) = map env_line es.
Proof.
  intros Hne H. unfold envData. apply split_lines_join.
  - by destruct es.
  - clear Hne. induction es as [| kv es IH]; [done |].
    cbn [forallb map] in *. apply andb_true_iff in H as [Hkv Hes].
    by rewrite env_line_newline_free, IH.
Qed.

Lemma string_app_length a b : String.length (a +:+ b) = String.length a + String.length b.
Proof.
  induction a as [| c a IH]; [done |]. rewrite append_String.
  cbn [String.length]. by rewrite IH.
Qed.

Lemma append_changes prior block : prior +:+ nl +:+ block <> prior.
Proof.
  intros H. apply (f_equal String.length) in H.
  rewrite !string_app_length in H. cbn in H. lia.
Qed.

(** C3 (as amended).  The entries are serialized as newline-joined KEY=value
    lines in input order.  In an existing project directory without a
    configuration file the first write creates the file with exactly that
    block; a write to an existing file appends a newline and the block, the
    prior content staying in front.  When both writes carry at least one
    entry (with newline-free keys and values), the file after a first write
    of n entries to a fresh target and a second write of m entries has
    n + m lines, the entries' lines in order. *)
Theorem writeEnvVariables_create_then_append
    (first second : list (string * string)) (projectDir : path) (w : world)
    (listing : list entry) :
  stat (w_fs w) projectDir = Some (NDir listing) ->
  stat (w_fs w) (envPath projectDir) = None ->
  let w1 := after (writeEnvVariables first projectDir) w in
  let w2 := after (writeEnvVariables second projectDir) w1 in
  fst (writeEnvVariables first projectDir w) = Returned tt
  /\ fst (writeEnvVariables second projectDir w1) = Returned tt
  /\ envData first = join nl (map env_line first)
  /\ env_content w1 projectDir = Some (envData first)
  /\ env_content w2 projectDir = Some (envData first +:+ nl +:+ envData second)
  /\ (forall w' prior entries,
        env_content w' projectDir = Some prior ->
        env_content (after (writeEnvVariables entries projectDir) w') projectDir
        = Some (prior +:+ nl +:+ envData entries))
  /\ (forallb entry_newline_free first = true ->
      forallb entry_newline_free second = true ->
      first <> [] -> second <> [] ->
      split_lines (envData first +:+ nl +:+ envData second)
      = map env_line first ++ map env_line second
      /\ line_count (envData first +:+ nl +:+ envData second)
         = length first + length second).
Proof.
  intros Hdir Hnone w1 w2.
  destruct (writeEnvVariables_fresh first projectDir w listing Hdir Hnone)
    as (fs1 & E1 & S1).
  assert (w_fs w1 = fs1) as Hw1 by (unfold w1, after; by rewrite E1).
  destruct (writeEnvVariables_existing second projectDir w1 (envData first))
    as (fs2 & E2 & S2); [by rewrite Hw1 |].
  assert (w_fs w2 = fs2) as Hw2 by (unfold w2, after; by rewrite E2).
  repeat split.
  - by rewrite E1.
  - by rewrite E2.
  - unfold env_content. by rewrite Hw1, S1.
  - unfold env_content. by rewrite Hw2, S2.
  - intros w' prior entries. unfold env_content.
    destruct (stat (w_fs w') (envPath projectDir)) as [[c |] |] eqn:E; try done.
    intros [= ->].
    destruct (writeEnvVariables_existing entries projectDir w' prior E)
      as (fs' & E' & S'). unfold after. rewrite E'. cbn [snd w_fs]. by rewrite S'.
  - by rewrite split_lines_app, !split_lines_envData.
  - unfold line_count.
    rewrite split_lines_app, !split_lines_envData by done.
    by rewrite length_app, !length_map.
Qed.

Lemma writeEnvVariables_create_then_append_witness :
  split_lines (envData [("A", "1"); ("B", "2")] +:+ nl +:+ envData [("C", "3")])
  = map env_line [("A", "1"); ("B", "2")] ++ map env_line [("C", "3")]
  /\ line_count (envData [("A", "1"); ("B", "2")] +:+ nl +:+ envData [("C", "3")])
     = length [("A", "1"); ("B", "2")] + length [("C", "3")].
Proof.
  exact (proj2 (proj2 (proj2 (proj2 (proj2 (proj2
    (writeEnvVariables_create_then_append
       [("A", "1"); ("B", "2")] [("C", "3")] [] empty_project
       (w_fs empty_project) eq_refl eq_refl))))))
    eq_refl eq_refl ltac:(discriminate) ltac:(discriminate)).
Defined.

(** C3, as stated, fails when a write carries no entry: an empty first write
    creates an empty file, and a second write of one entry then yields a
    blank line followed by the entry, two lines instead of 0 + 1. *)
Lemma writeEnvVariables_line_count_counterexample :
  let first : list (string * string) := [] in
  let second := [("A", "1")] in
  let w1 := after (writeEnvVariables first []) empty_project in
  let w2 := after (writeEnvVariables second []) w1 in
  env_content w2 [] = Some (nl +:+ "A=1")
  /\ line_count (nl +:+ "A=1") = 2
  /\ line_count (nl +:+ "A=1") <> length first + length second.
Proof. cbv zeta. split; [reflexivity | split; [reflexivity | discriminate]]. Qed.

(** C4 (as amended).  Writing is not idempotent but append-only: a second
    write of the same entries yields the content of the first write followed
    by a newline and the block once more, which is never the content after
    one write. *)
Theorem writeEnvVariables_appends_again
    (entries : list (string * string)) (projectDir : path) (w : world)
    (listing : list entry) :
  stat (w_fs w) projectDir = Some (NDir listing) ->
  (stat (w_fs w) (envPath projectDir) = None
   \/ exists prior, stat (w_fs w) (envPath projectDir) = Some (NFile prior)) ->
  let w1 := after (writeEnvVariables entries projectDir) w in
  let w2 := after (writeEnvVariables entries projectDir) w1 in
  exists once,
    env_content w1 projectDir = Some once
    /\ env_content w2 projectDir = Some (once +:+ nl +:+ envData entries)
    /\ env_content w2 projectDir <> env_content w1 projectDir.
Proof.
  intros Hdir Hfile w1 w2.
  assert (exists once, stat (w_fs w1) (envPath projectDir) = Some (NFile once))
    as [once H1].
  { destruct Hfile as [Hnone | [prior Hprior]].
    - destruct (writeEnvVariables_fresh entries projectDir w listing Hdir Hnone)
        as (fs1 & E1 & S1).
      exists (envData entries). unfold w1, after. by rewrite E1.
    - destruct (writeEnvVariables_existing entries projectDir w prior Hprior)
        as (fs1 & E1 & S1).
      eexists. unfold w1, after. rewrite E1. exact S1. }
  destruct (writeEnvVariables_existing entries projectDir w1 once H1)
    as (fs2 & E2 & S2).
  exists once. unfold env_content.
  assert (w_fs w2 = fs2) as -> by (unfold w2, after; by rewrite E2).
  rewrite H1, S2. repeat split.
  intros [= H]. by apply append_changes in H.
Qed.

Lemma writeEnvVariables_appends_again_witness :
  exists once,
    env_content (after (writeEnvVariables [("A", "1")] []) empty_project) []
    = Some once
    /\ env_content
         (after (writeEnvVariables [("A", "1")] [])
            (after (writeEnvVariables [("A", "1")] []) empty_project)) []
       = Some (once +:+ nl +:+ envData [("A", "1")])
    /\ env_content
         (after (writeEnvVariables [("A", "1")] [])
            (after (writeEnvVariables [("A", "1")] []) empty_project)) []
       <> env_content (after (writeEnvVariables [("A", "1")] []) empty_project) [].
Proof.
  exact (writeEnvVariables_appends_again [("A", "1")] [] empty_project
           (w_fs empty_project) eq_refl (or_introl eq_refl)).
Defined.

(** C4, as stated, fails: written twice, the entry is there twice. *)
Lemma writeEnvVariables_not_idempotent :
  let write := writeEnvVariables [("A", "1")] [] in
  env_content (after write empty_project) [] = Some "A=1"
  /\ env_content (after write (after write empty_project)) [] = Some ("A=1" +:+ nl +:+ "A=1")
  /\ env_content (after write (after write empty_project)) []
     <> env_content (after write empty_project) [].
Proof. cbv zeta. split; [reflexivity | split; [reflexivity | discriminate]]. Qed.

(** ** Auth-profile selection *)






(** ** [getAvailablePort] *)

Local Open Scope Z_scope.

Lemma listen_valid net port :
  1 <= port <= 65535 ->
  listen net port = if port_free net port then Listening port else ListenError.
Proof.
  intros H. unfold listen.
  destruct (Z.ltb_spec port 0); [lia |].
  destruct (Z.ltb_spec 65535 port); [lia |].
  destruct (Z.eqb_spec port 0); [lia |]. done.
Qed.

Lemma probe_lowest_free (fuel : nat) : forall net startPort q,
  1 <= startPort -> startPort <= q <= 65535 -> port_free net q = true ->
  (Z.to_nat (q - startPort) < fuel)%nat ->
  exists port,
    probe fuel net startPort
    = Some (range startPort (S (Z.to_nat (port - startPort))), Returned port)
    /\ startPort <= port <= q
    /\ port_free net port = true
    /\ (forall r, startPort <= r < port -> port_free net r = false).
Proof.
  induction fuel as [| fuel IH]; intros net startPort q H1 Hq Hfree Hfuel; [lia |].
  cbn [probe]. rewrite listen_valid by lia.
  destruct (port_free net startPort) eqn:E.
  - exists startPort. rewrite Z.sub_diag. repeat split; try done; try lia.
  - assert (startPort <> q) by congruence.
    destruct (IH net (startPort + 1) q) as (port & -> & Hp & Hf & Hlow);
      [lia | lia | done | lia |].
    exists port. repeat split; try done; try lia.
    + replace (Z.to_nat (port - startPort))
        with (S (Z.to_nat (port - (startPort + 1)))) by lia.
      reflexivity.
    + intros r Hr. destruct (Z.eq_dec r startPort) as [-> | Hne]; [done |].
      apply Hlow. lia.
Qed.

(** C8 (as amended).  For a start port between 1 and 65535 and a network in
    which some port between the start port and 65535 is free,
    [getAvailablePort] returns the lowest free port at or above the start
    port, having tried the start port and its successors in order: the start
    port itself when it is free, a strictly greater port when it is
    occupied. *)
Theorem getAvailablePort_lowest_free (net : network) (startPort q : Z) :
  1 <= startPort -> startPort <= q <= 65535 -> port_free net q = true ->
  exists port,
    getAvailablePort net startPort
    = Some (range startPort (S (Z.to_nat (port - startPort))), Returned port)
    /\ startPort <= port <= q
    /\ port_free net port = true
    /\ (forall r, startPort <= r < port -> port_free net r = false)
    /\ (port_free net startPort = true -> port = startPort)
    /\ (port_free net startPort = false -> startPort < port).
Proof.
  intros H1 Hq Hfree. unfold getAvailablePort.
  destruct (probe_lowest_free (S (Z.to_nat (65536 - startPort))) net startPort q)
    as (port & E & Hp & Hf & Hlow); [done | done | done | lia |].
  exists port. repeat split; try done; try lia.
  - intros Hs. destruct (Z.eq_dec port startPort) as [-> | Hne]; [done |].
    rewrite Hlow in Hs by lia. done.
  - intros Hs. destruct (Z.eq_dec port startPort) as [-> | Hne]; [congruence | lia].
Qed.

Lemma getAvailablePort_lowest_free_witness :
  exists port,
    getAvailablePort dev_machine 3000
    = Some (range 3000 (S (Z.to_nat (port - 3000))), Returned port)
    /\ 3000 <= port <= 3002
    /\ port_free dev_machine port = true
    /\ (forall r, 3000 <= r < port -> port_free dev_machine r = false)
    /\ (port_free dev_machine 3000 = true -> port = 3000)
    /\ (port_free dev_machine 3000 = false -> 3000 < port).
Proof.
  apply (getAvailablePort_lowest_free dev_machine 3000 3002); [lia | lia | reflexivity].
Defined.

Example getAvailablePort_dev_machine :
  getAvailablePort dev_machine 3000 = Some ([3000; 3001; 3002], Returned 3002).
Proof. vm_compute. reflexivity. Qed.

(** C8, as stated, fails when no port at or above the start port is free:
    the start port is occupied and no port is returned at all. *)
Lemma getAvailablePort_all_busy_counterexample :
  port_free all_busy 65535 = false
  /\ getAvailablePort all_busy 65535
     = Some ([65535; 65536], Threw (RangeError "ERR_SOCKET_BAD_PORT"))
  /\ (forall tried port,
        getAvailablePort all_busy 65535 <> Some (tried, Returned port)).
Proof. split; [reflexivity | split; [reflexivity | discriminate]]. Qed.

Local Close Scope Z_scope.

(** ** The orchestrator: validation *)

Lemma log_styled_plain c style msg w :
  String.eqb style "orange" = false ->
  log_styled c style msg w
  = (Returned tt, mkWorld (w_fs w) (w_log w ++ [EvLog msg]) (w_spinner w)).
Proof. intros H. unfold log_styled, chalk, bind. by rewrite H. Qed.

Lemma error_styled_plain c style msg w :
  String.eqb style "orange" = false ->
  error_styled c style msg w
  = (Returned tt, mkWorld (w_fs w) (w_log w ++ [EvError msg]) (w_spinner w)).
Proof. intros H. unfold error_styled, chalk, bind. by rewrite H. Qed.

(** Symbolic execution of the monad's plumbing. *)
Ltac mrun :=
  cbv beta iota zeta delta
    [bind ret throw try_catch emit emit_all get_fs lift fs_call existsSyncM
     console_log console_error log_styled error_styled chalk spinner_create
     spinner_say getProjectDirectory getAppDirectoryPathM promptForPackageManager
     promptForBucketRoute inquirer_prompt
     andb negb String.eqb Ascii.eqb Bool.eqb];
  cbn [w_fs w_log w_spinner fst snd].

(** Validation failure in [locate_project]: the error is reported, nothing
    else happens. *)
Lemma locate_project_fails c w :
  validation_fails c (w_fs w) ->
  exists msg,
    locate_project c w
    = (Returned None,
       mkWorld (w_fs w) (w_log w ++ [EvPrompt ["projectDir"]; EvError msg])
               (w_spinner w)).
Proof.
  unfold validation_fails, locate_project. mrun.
  destruct (answer_projectDir c) as [dir |]; mrun.
  - intros [H | [H1 H2]].
    + rewrite H. mrun. rewrite <- app_assoc. by eexists.
    + rewrite H1. mrun. rewrite H2. mrun. rewrite <- app_assoc. by eexists.
  - intros _. rewrite <- app_assoc. by eexists.
Qed.

Lemma readJson_spec c p w :
  readJson c p w =
  match stat (w_fs w) p with
  | Some (NFile text) =>
      match parse_json c text with
      | Some m => (Returned m, w)
      | None => (Threw (SyntaxError (path_string p)), w)
      end
  | Some (NDir _) => (Threw (EISDIR p), w)
  | None => (Threw (ENOENT p), w)
  end.
Proof.
  unfold readJson, readFile, fs_readFile. mrun.
  destruct (stat (w_fs w) p) as [[text | es] |]; try done.
  by destruct (parse_json c text).
Qed.

Lemma checkLicenseStatus_runs c w :
  exists licensed added,
    checkLicenseStatus c w
    = (Returned licensed, mkWorld (w_fs w) (w_log w ++ added) (w_spinner w))
    /\ existsb mutates added = false.
Proof.
  unfold checkLicenseStatus.
  destruct (answer_isCommercial c); [destruct (answer_agreeToPay c) |];
    mrun; rewrite <- ?app_assoc; by do 2 eexists.
Qed.

(** C10.  When the host project fails validation (the chosen directory
    lacks package.json or next.config.js, or no app directory is found), the
    orchestrator, in both variants, reports the error and returns at once:
    the file system is unchanged and no effect on the disk was recorded. *)
Theorem validation_failure_writes_nothing (c : collaborators) (w : world) :
  validation_fails c (w_fs w) ->
  (exists added msg,
     integrateBucketCMS_A c w
     = (Returned tt,
        mkWorld (w_fs w) (w_log w ++ added ++ [EvError msg]) (w_spinner w))
     /\ existsb mutates added = false)
  /\ (exists added msg,
        integrateBucketCMS_B c w
        = (Returned tt,
           mkWorld (w_fs w) (w_log w ++ added ++ [EvError msg]) true)
        /\ existsb mutates added = false).
Proof.
  intros Hfail. split.
  - unfold integrateBucketCMS_A, bind at 1, try_catch.
    rewrite log_styled_plain by done. unfold bind at 1.
    edestruct locate_project_fails as [msg ->]; [exact Hfail |]. mrun.
    exists [EvLog "Welcome to Bucket CMS! Let's get started...";
            EvPrompt ["projectDir"]], msg.
    rewrite <- !app_assoc. by split.
  - unfold integrateBucketCMS_B, bind at 1.
    rewrite log_styled_plain by done. unfold bind at 1, spinner_create.
    unfold bind at 1.
    edestruct checkLicenseStatus_runs as (licensed & added & -> & Hadded).
    unfold try_catch, bind at 1.
    edestruct locate_project_fails as [msg ->]; [exact Hfail |]. mrun.
    exists ([EvLog "Welcome to Bucket CMS! Let's get started..."] ++ added
            ++ [EvPrompt ["projectDir"]]), msg.
    rewrite <- !app_assoc. split; [done |].
    cbn [existsb app mutates orb]. rewrite existsb_app, Hadded. done.
Qed.

Lemma validation_failure_writes_nothing_witness :
  (exists added msg,
     integrateBucketCMS_A quiet_user not_a_project
     = (Returned tt,
        mkWorld (w_fs not_a_project)
          (w_log not_a_project ++ added ++ [EvError msg])
          (w_spinner not_a_project))
     /\ existsb mutates added = false)
  /\ (exists added msg,
        integrateBucketCMS_B quiet_user not_a_project
        = (Returned tt,
           mkWorld (w_fs not_a_project)
             (w_log not_a_project ++ added ++ [EvError msg]) true)
        /\ existsb mutates added = false).
Proof.
  apply (validation_failure_writes_nothing quiet_user not_a_project).
  left. reflexivity.
Defined.

(** ** What a computation adds to the trace *)

Section Appends.
Variable ok : event -> Prop.

Lemma appends_silent {A} (m : M A) :
  (forall w, w_log (snd (m w)) = w_log w) ->
  (forall w, w_spinner w = true -> w_spinner (snd (m w)) = true) ->
  appends_only ok m.
Proof.
  intros H S w. exists []. split; [by rewrite H, app_nil_r |].
  split; [constructor | apply S].
Qed.

Lemma appends_ret {A} (a : A) : appends_only ok (ret a).
Proof. by apply appends_silent. Qed.

Lemma appends_throw {A} e : appends_only ok (@throw A e).
Proof. by apply appends_silent. Qed.

Lemma appends_bind {A B} (m : M A) (k : A -> M B) :
  appends_only ok m -> (forall a, appends_only ok (k a)) ->
  appends_only ok (bind m k).
Proof.
  intros Hm Hk w. unfold bind. destruct (Hm w) as (d1 & E1 & F1 & S1).
  destruct (m w) as [[a | e] w1]; cbn [snd] in *.
  - destruct (Hk a w1) as (d2 & E2 & F2 & S2). exists (d1 ++ d2).
    split; [by rewrite E2, E1, app_assoc |].
    split; [by apply Forall_app | auto].
  - by exists d1.
Qed.

Lemma appends_try {A} (body : M A) handler :
  appends_only ok body -> (forall e, appends_only ok (handler e)) ->
  appends_only ok (try_catch body handler).
Proof.
  intros Hm Hk w. unfold try_catch. destruct (Hm w) as (d1 & E1 & F1 & S1).
  destruct (body w) as [[a | e] w1]; cbn [snd] in *.
  - by exists d1.
  - destruct (Hk e w1) as (d2 & E2 & F2 & S2). exists (d1 ++ d2).
    split; [by rewrite E2, E1, app_assoc |].
    split; [by apply Forall_app | auto].
Qed.

Lemma appends_emit ev : ok ev -> appends_only ok (emit ev).
Proof. intros H w. exists [ev]. by repeat constructor. Qed.

Lemma appends_fs_call f ev : ok ev -> appends_only ok (fs_call f ev).
Proof.
  intros H w. unfold fs_call. destruct (f (w_fs w)); cbn [snd w_log w_spinner].
  - exists [ev]. by repeat constructor.
  - exists []. rewrite app_nil_r. by repeat constructor.
Qed.

Lemma appends_get_fs : appends_only ok get_fs.
Proof. by apply appends_silent. Qed.

Lemma appends_existsSyncM p : appends_only ok (existsSyncM p).
Proof. by apply appends_silent. Qed.

Lemma appends_lift {A} (f : FS -> outcome A) : appends_only ok (lift f).
Proof. by apply appends_silent. Qed.

Lemma appends_spinner_create : appends_only ok spinner_create.
Proof. by apply appends_silent. Qed.

Lemma appends_getAppDirectoryPathM dir : appends_only ok (getAppDirectoryPathM dir).
Proof.
  apply appends_silent; intros w; unfold getAppDirectoryPathM;
    by destruct (getAppDirectoryPath (w_fs w) dir) as [[|] |].
Qed.

Lemma appends_spinner_say msg :
  ok (EvSpinner msg) -> appends_only ok (spinner_say msg).
Proof.
  intros H w. unfold spinner_say. destruct (w_spinner w) eqn:E.
  - destruct (appends_emit _ H w) as (d & ? & ? & S). exists d.
    repeat split; [done | done |]. intros _. apply S. exact E.
  - exists []. rewrite app_nil_r. by repeat constructor.
Qed.

Lemma appends_exec c cmd : ok (EvExec cmd) -> appends_only ok (exec c cmd).
Proof.
  intros H w. unfold exec.
  destruct (run_process c cmd (w_fs w)); cbn [snd w_log w_spinner].
  - exists [EvExec cmd]. by repeat constructor.
  - exists []. rewrite app_nil_r. by repeat constructor.
Qed.

Lemma appends_getAvailablePortM c start :
  (forall p, ok (EvListen p)) -> appends_only ok (getAvailablePortM c start).
Proof.
  intros H w. unfold getAvailablePortM.
  destruct (getAvailablePort (net c) start) as [[tried r] |];
    cbn [snd w_log w_spinner].
  - exists (map EvListen tried). repeat split; [| done].
    apply Forall_forall. intros ev Hev.
    apply list_elem_of_In, in_map_iff in Hev as (p & <- & _). apply H.
  - exists []. rewrite app_nil_r. by repeat constructor.
Qed.

Lemma appends_chalk c style msg : appends_only ok (chalk c style msg).
Proof.
  unfold chalk. destruct (_ && _); [apply appends_throw | apply appends_ret].
Qed.

Lemma appends_log_styled c style msg :
  (forall m, ok (EvLog m)) -> appends_only ok (log_styled c style msg).
Proof.
  intros H. apply appends_bind; [apply appends_chalk |].
  intros s. by apply appends_emit.
Qed.

Lemma appends_error_styled c style msg :
  (forall m, ok (EvError m)) -> appends_only ok (error_styled c style msg).
Proof.
  intros H. apply appends_bind; [apply appends_chalk |].
  intros s. by apply appends_emit.
Qed.
End Appends.

(** One step through a computation built from the operations above; the
    side conditions on the events are left to [side]. *)
Ltac appends_step side :=
  lazymatch goal with
  | |- appends_only _ (bind _ _) => apply appends_bind; [| intros ?]
  | |- appends_only _ (try_catch _ _) => apply appends_try; [| intros ?]
  | |- appends_only _ (ret _) => apply appends_ret
  | |- appends_only _ (throw _) => apply appends_throw
  | |- appends_only _ (emit _) => apply appends_emit; side
  | |- appends_only _ (console_log _) => apply appends_emit; side
  | |- appends_only _ (console_error _) => apply appends_emit; side
  | |- appends_only _ (log_styled _ _ _) => apply appends_log_styled; side
  | |- appends_only _ (error_styled _ _ _) => apply appends_error_styled; side
  | |- appends_only _ (spinner_say _) => apply appends_spinner_say; side
  | |- appends_only _ spinner_create => apply appends_spinner_create
  | |- appends_only _ (exec _ _) => apply appends_exec; side
  | |- appends_only _ (mkdir _) => apply appends_fs_call; side
  | |- appends_only _ (ensureDir _) => apply appends_fs_call; side
  | |- appends_only _ (copy _ _ _) => apply appends_fs_call; side
  | |- appends_only _ (remove _) => apply appends_fs_call; side
  | |- appends_only _ (writeFile _ _) => apply appends_fs_call; side
  | |- appends_only _ (appendFile _ _) => apply appends_fs_call; side
  | |- appends_only _ (readFile _) => apply appends_lift
  | |- appends_only _ get_fs => apply appends_get_fs
  | |- appends_only _ (existsSyncM _) => apply appends_existsSyncM
  | |- appends_only _ (getAppDirectoryPathM _) => apply appends_getAppDirectoryPathM
  | |- appends_only _ (getAvailablePortM _ _) => apply appends_getAvailablePortM; side
  | |- appends_only _ (if ?b then _ else _) => destruct b
  | |- appends_only _ (match ?x with _ => _ end) => destruct x
  end.

Ltac appends side := repeat appends_step side.

Ltac easy_side := solve [auto].

Section AppendsStages.
Variable ok : event -> Prop.
Hypothesis ok_log : forall m, ok (EvLog m).
Hypothesis ok_error : forall m, ok (EvError m).
Hypothesis ok_prompt : forall l, ok (EvPrompt l).
Hypothesis ok_spinner : forall m, ok (EvSpinner m).
Hypothesis ok_fetch : forall u, ok (EvFetch u).
Hypothesis ok_exec : forall cmd, ok (EvExec cmd).
Hypothesis ok_listen : forall p, ok (EvListen p).
Hypothesis ok_open : forall p r, ok (EvOpen p r).
Hypothesis ok_mkdir : forall p, ok (EvMkdir p).
Hypothesis ok_ensureDir : forall p, ok (EvEnsureDir p).

Lemma appends_locate_project c : appends_only ok (locate_project c).
Proof. unfold locate_project, getProjectDirectory. appends easy_side. Qed.

Lemma appends_checkLicenseStatus c : appends_only ok (checkLicenseStatus c).
Proof. unfold checkLicenseStatus. appends easy_side. Qed.

Lemma appends_on_error c e : appends_only ok (on_error c e).
Proof. unfold on_error. appends easy_side. Qed.

Lemma appends_getDependenciesFromRepo c url :
  appends_only ok (getDependenciesFromRepo c url).
Proof. unfold getDependenciesFromRepo. appends easy_side. Qed.

Lemma appends_promptForPackageManager c : appends_only ok (promptForPackageManager c).
Proof. unfold promptForPackageManager. appends easy_side. Qed.

Lemma appends_promptForBucketRoute c : appends_only ok (promptForBucketRoute c).
Proof. unfold promptForBucketRoute. appends easy_side. Qed.

Lemma appends_readJson c p : appends_only ok (readJson c p).
Proof. unfold readJson. appends easy_side. Qed.

Lemma appends_getProjectName c dir : appends_only ok (getProjectName c dir).
Proof.
  unfold getProjectName. appends easy_side. apply appends_readJson.
Qed.

Lemma appends_inquirer_prompt c qs : appends_only ok (inquirer_prompt c qs).
Proof. unfold inquirer_prompt. appends easy_side. Qed.

Lemma appends_announce_env c : appends_only ok (announce_env c).
Proof. unfold announce_env. appends easy_side. Qed.

Lemma appends_copy_routes projectDir tempDir bucketRoute apiDir :
  (forall d, ok (EvCopy (path_join tempDir ["src"; "app"; "bucket"]) d true)) ->
  (forall d, ok (EvCopy (path_join tempDir ["src"; "app"; "api"; "bucket"]) d true)) ->
  appends_only ok (copy_routes projectDir tempDir bucketRoute apiDir).
Proof. intros H1 H2. unfold copy_routes. appends easy_side. Qed.

(** The two steps that remove something need that removal to be of the
    kind allowed. *)
Lemma appends_clone_template c tempDir :
  ok (EvRemove tempDir) -> appends_only ok (clone_template c tempDir).
Proof. intros H. unfold clone_template. appends easy_side. Qed.

Lemma appends_launch c projectDir bucketRoute packageManager :
  ok (EvRemove (path_join projectDir [".next"])) ->
  appends_only ok (launch c projectDir bucketRoute packageManager).
Proof. intros H. unfold launch. appends easy_side. Qed.
End AppendsStages.

(** The stages whose traces are already known. *)
Ltac appends_stage :=
  first [ apply appends_locate_project
        | apply appends_checkLicenseStatus
        | apply appends_on_error
        | apply appends_getDependenciesFromRepo
        | apply appends_promptForPackageManager
        | apply appends_promptForBucketRoute
        | apply appends_readJson
        | apply appends_getProjectName
        | apply appends_inquirer_prompt
        | apply appends_announce_env
        | apply appends_copy_routes
        | apply appends_clone_template
        | apply appends_launch ].

(** ** The environment step of the first variant *)

Lemma Forall_not_a_write added :
  Forall not_a_write added -> existsb writes_file added = false.
Proof.
  induction 1 as [| ev l H _ IH]; [done |]. cbn [existsb].
  unfold not_a_write in H. by rewrite H, IH.
Qed.

(** The answers object has the four question names as its only keys. *)
Lemma promptForEnvVariables_4_keys c dir w answers w' :
  promptForEnvVariables_4 c dir w = (Returned answers, w') ->
  map fst answers
  = ["AWS_ACCESS_KEY_ID"; "AWS_SECRET_ACCESS_KEY"; "AWS_REGION"; "AWS_S3_BUCKET_NAME"].
Proof.
  unfold promptForEnvVariables_4, bind at 1.
  destruct (getProjectName c dir w) as [[name | e] w1]; [| done].
  mrun. by intros [= <- _].
Qed.

Lemma js_prop_absent obj key :
  ~ In key (map fst obj) -> js_prop obj key = None.
Proof.
  unfold js_prop. induction obj as [| kv obj IH]; [done |].
  cbn [map In List.find]. intros H.
  destruct (String.eqb_spec (fst kv) key) as [E | _]; [by destruct H; left |].
  apply IH. tauto.
Qed.

Lemma answers_have_no_length c dir w answers w' :
  promptForEnvVariables_4 c dir w = (Returned answers, w') ->
  js_prop answers "length" = None.
Proof.
  intros H. apply promptForEnvVariables_4_keys in H.
  apply js_prop_absent. rewrite H. cbn. intuition discriminate.
Qed.

Lemma getProjectName_read_only c dir : read_only (getProjectName c dir).
Proof.
  intros w. unfold getProjectName, try_catch.
  destruct dir as [dir |]; [| by mrun].
  unfold bind at 1. rewrite readJson_spec.
  destruct (stat (w_fs w) _) as [[text | es] |]; mrun; try done.
  by destruct (parse_json c text); mrun.
Qed.

Lemma promptForEnvVariables_4_read_only c dir :
  read_only (promptForEnvVariables_4 c dir).
Proof.
  intros w. unfold promptForEnvVariables_4, bind at 1.
  pose proof (getProjectName_read_only c dir w) as H.
  destruct (getProjectName c dir w) as [[name | e] w1]; cbn [snd] in *; [| done].
  by mrun.
Qed.

(** Whatever argument the prompt gets, the guarded step does what the
    prompt does and nothing more. *)
Lemma guarded_env_step_run c promptArgument projectDir w :
  guarded_env_step c promptArgument projectDir w
  = match promptForEnvVariables_4 c promptArgument w with
    | (Returned _, w1) => (Returned tt, w1)
    | (Threw e, w1) => (Threw e, w1)
    end.
Proof.
  unfold guarded_env_step, bind at 1.
  destruct (promptForEnvVariables_4 c promptArgument w) as [[answers | e] w1] eqn:E;
    [| done].
  rewrite (answers_have_no_length _ _ _ _ _ E).
  cbn [js_gt js_strict_eq_number]. by mrun.
Qed.

Lemma guarded_env_step_read_only c promptArgument projectDir :
  read_only (guarded_env_step c promptArgument projectDir).
Proof.
  intros w. rewrite guarded_env_step_run.
  pose proof (promptForEnvVariables_4_read_only c promptArgument w) as H.
  by destruct (promptForEnvVariables_4 c promptArgument w) as [[answers | e] w1].
Qed.

(** Called without a project directory, the prompt step throws before any
    question is asked. *)
Lemma env_step_A_throws c projectDir w :
  env_step_A c projectDir w
  = (Threw (TypeError "The path argument must be of type string"),
     mkWorld (w_fs w)
       (w_log w ++ [EvError "Could not retrieve project name."]) (w_spinner w)).
Proof. reflexivity. Qed.

Ltac write_side := solve [intros; reflexivity].

Lemma appends_guarded_env_step c promptArgument projectDir :
  appends_only not_a_write (guarded_env_step c promptArgument projectDir).
Proof.
  intros w. rewrite guarded_env_step_run.
  assert (appends_only not_a_write (promptForEnvVariables_4 c promptArgument)) as Hp.
  { unfold promptForEnvVariables_4. appends write_side; appends_stage; write_side. }
  destruct (Hp w) as (d1 & L1 & F1 & S1). exists d1.
  by destruct (promptForEnvVariables_4 c promptArgument w) as [[answers | e] w1].
Qed.

Lemma appends_install_A c projectDir appDir :
  appends_only not_a_write (install_A c projectDir appDir).
Proof.
  unfold install_A. appends write_side; appends_stage; write_side.
Qed.

Lemma appends_finish_A c projectDir bucketRoute packageManager :
  appends_only not_a_write (finish_A c projectDir bucketRoute packageManager).
Proof.
  unfold finish_A, env_step_A. appends write_side;
    first [apply appends_guarded_env_step | appends_stage; write_side].
Qed.

Lemma appends_integrateBucketCMS_A c :
  appends_only not_a_write (integrateBucketCMS_A c).
Proof.
  unfold integrateBucketCMS_A. appends write_side;
    first [ apply appends_install_A | apply appends_finish_A
          | appends_stage; write_side ].
Qed.

(** C6.  In the first variant of the orchestrator the answers of the prompt
    form an object without a [length] property, so neither
    [envVariables.length > 0] nor [envVariables.length === 4] ever holds:
    the environment step, whatever the prompt is given, leaves the file
    system as it is, and no run ever performs a [writeFile] or an
    [appendFile], the only calls by which [writeEnvVariables] touches
    [.env.local]. *)
Theorem env_file_never_written_A (c : collaborators) (w : world) :
  (forall promptArgument w0 answers w1,
     promptForEnvVariables_4 c promptArgument w0 = (Returned answers, w1) ->
     js_prop answers "length" = None
     /\ js_gt (js_prop answers "length") 0 = false
     /\ js_strict_eq_number (js_prop answers "length") 4 = false)
  /\ (forall promptArgument projectDir,
        let w' := after (guarded_env_step c promptArgument projectDir) w in
        w_fs w' = w_fs w
        /\ exists added,
             w_log w' = w_log w ++ added /\ existsb writes_file added = false)
  /\ (forall projectDir,
        env_content (after (env_step_A c projectDir) w) projectDir
        = env_content w projectDir)
  /\ (exists added,
        w_log (after (integrateBucketCMS_A c) w) = w_log w ++ added
        /\ existsb writes_file added = false).
Proof.
  split; [| split; [| split]].
  - intros promptArgument w0 answers w1 H.
    by rewrite (answers_have_no_length _ _ _ _ _ H).
  - intros promptArgument projectDir w'. split.
    + apply guarded_env_step_read_only.
    + destruct (appends_guarded_env_step c promptArgument projectDir w)
        as (added & E & F & _).
      exists added. split; [exact E | by apply Forall_not_a_write].
  - intros projectDir. unfold env_content, after, env_step_A.
    by rewrite guarded_env_step_read_only.
  - destruct (appends_integrateBucketCMS_A c w) as (added & E & F & _).
    exists added. split; [exact E | by apply Forall_not_a_write].
Qed.

(** ** The shape of the located path *)

Lemma scan_items_shape start dir items : forall st,
  below start dir -> Forall (below start) st ->
  match scan_items dir items st with
  | inl p => exists q, p = start ++ q ++ ["app"] /\ ~ In "app" q
  | inr st' => Forall (below start) st'
  end.
Proof.
  induction items as [| c items IH]; intros st Hdir Hst; cbn [scan_items]; [done |].
  destruct (isDirectory c); [| by apply IH].
  destruct Hdir as (q & -> & Hq).
  destruct (String.eqb_spec (entry_name c) "app") as [E | E].
  - exists q. split; [| done]. unfold path_join. by rewrite E, <- app_assoc.
  - apply IH; [by exists q |]. constructor; [| done].
    exists (q ++ [entry_name c]). split.
    + unfold path_join. by rewrite <- app_assoc.
    + rewrite in_app_iff. cbn. intuition congruence.
Qed.

Lemma locate_loop_shape fs start fuel : forall st p,
  Forall (below start) st ->
  locate_loop fuel fs st = Some (Returned (Some p)) ->
  exists q, p = start ++ q ++ ["app"] /\ ~ In "app" q.
Proof.
  induction fuel as [| fuel IH]; intros st p Hst; cbn [locate_loop]; [done |].
  destruct st as [| dir rest]; [done |].
  apply Forall_cons in Hst as [Hdir Hrest].
  destruct (readdir fs dir) as [items |]; [| done].
  pose proof (scan_items_shape start dir items rest Hdir Hrest) as H.
  destruct (scan_items dir items rest) as [found | st'].
  - by intros [= <-].
  - by apply IH.
Qed.

(** The app directory found lies below the project directory, its last
    segment is "app" and no other segment is. *)
Lemma getAppDirectoryPath_shape fs dir appDir :
  getAppDirectoryPath fs dir = Some (Returned (Some appDir)) ->
  exists q, appDir = dir ++ q ++ ["app"] /\ ~ In "app" q.
Proof.
  apply locate_loop_shape. constructor; [| constructor].
  exists []. split; [by rewrite app_nil_r | intros []].
Qed.

(** ** The stages before the adapter step *)

Lemma locate_project_read_only c : read_only (locate_project c).
Proof.
  intros w. unfold locate_project. mrun.
  destruct (answer_projectDir c) as [dir |]; mrun; [| done].
  destruct (checkIsNextProject (w_fs w) dir); mrun; [| done].
  destruct (getAppDirectoryPath (w_fs w) dir) as [[[found |] | e] |];
    mrun; try done.
  by destruct (existsSync (w_fs w) found).
Qed.

Lemma locate_project_found c w dir appDir w1 :
  locate_project c w = (Returned (Some (dir, appDir)), w1) ->
  answer_projectDir c = Some dir
  /\ getAppDirectoryPath (w_fs w) dir = Some (Returned (Some appDir)).
Proof.
  unfold locate_project. mrun.
  destruct (answer_projectDir c) as [d |]; mrun; [| done].
  destruct (checkIsNextProject (w_fs w) d); mrun; [| done].
  destruct (getAppDirectoryPath (w_fs w) d) as [[[found |] | e] |] eqn:E;
    mrun; try done.
  destruct (existsSync (w_fs w) found); mrun; [| done].
  by intros [= -> -> _].
Qed.

Lemma detect_auth_read_only c dir : read_only (detect_auth c dir).
Proof.
  intros w. unfold detect_auth, bind at 1.
  rewrite log_styled_plain by done. unfold bind at 1. rewrite readJson_spec.
  cbn [w_fs].
  destruct (stat (w_fs w) _) as [[text | es] |]; try done.
  destruct (parse_json c text) as [m |]; [| done]. mrun.
  destruct (truthy (dependency m "next-auth")); [done |].
  destruct (truthy (dependency m "@clerk/nextjs")); [done |].
  by destruct (chalk_orange c).
Qed.


(** ** Copying a file *)





(** ** The adapter and the candidate directories are apart *)

Lemma is_prefix_app a p q : is_prefix (a ++ p) (a ++ q) = is_prefix p q.
Proof.
  induction a as [| x a IH]; [done |]. cbn [app is_prefix].
  by rewrite String.eqb_refl, IH.
Qed.




(** ** The adapter step itself *)



(** ** Traces of the stages of the second variant *)












(** ** The adapter is copied before the candidates are removed *)



(** In the minimal project the block is there, for the localhost bypass. *)
Example adapter_block_in_minimal_run :
  exists pre post,
    w_log (after (integrateBucketCMS_B (succeeding (fun _ => "") true))
                 minimal_project)
    = pre ++ adapter_block [".bucket-cms-temp"] ["app"; "api"; "bucket"]
               LocalhostBypass ++ post.
Proof.
  set (log := w_log (after (integrateBucketCMS_B (succeeding (fun _ => "") true))
                           minimal_project)).
  exists (firstn 31 log), (skipn 37 log). vm_compute. reflexivity.
Qed.

(** ** The minimal host project, end to end *)



(* ===================================================================== *)
(** * The recursive search [findAppDirectory] *)
(* ===================================================================== *)

Lemma head_app_cons {A} (x : A) l1 l2 : head ((x :: l1) ++ l2) = Some x.
Proof. reflexivity. Qed.

Lemma each_app_cons dir c l :
  each_app dir (c :: l) =
  (if is_app_dir c then [path_join dir [entry_name c]] else [])
    ++ app_dirs_in (path_join dir [entry_name c]) c ++ each_app dir l.
Proof. reflexivity. Qed.

(** The loop over the entries of a directory, given that the recursive call
    is right on every sub-directory listed. *)
Lemma find_in_entries_head recur dir : forall l,
  (forall n cs, In (Dir n cs) l -> String.eqb n "app" = false ->
     exists searched,
       recur (path_join dir [n])
       = Some (searched, Returned (head (each_app (path_join dir [n]) cs)))) ->
  exists searched,
    find_in_entries recur dir l = Some (searched, Returned (head (each_app dir l))).
Proof.
  induction l as [| c l IH]; intros Hrec; cbn [find_in_entries].
  - by exists [].
  - rewrite each_app_cons.
    destruct IH as (s2 & E2); [intros n cs Hin; apply Hrec; by right |].
    destruct c as [n content | n cs]; cbn [isDirectory is_app_dir entry_name andb].
    + cbn [app_dirs_in]. cbn [app]. by exists s2.
    + destruct (String.eqb n "app") eqn:En.
      * by exists [].
      * destruct (Hrec n cs (or_introl eq_refl) En) as (s1 & E1). rewrite E1.
        rewrite app_dirs_in_Dir. cbn [app].
        destruct (each_app (path_join dir [n]) cs) as [| p ps]; cbn [head].
        -- rewrite E2. by exists (s1 ++ s2).
        -- by exists s1.
Qed.

Lemma search_dir_head fs fuel : forall dir items,
  readdir fs dir = Some items -> wf_fs items = true ->
  entries_size items < fuel ->
  exists searched,
    search_dir fuel fs dir
    = Some (dir :: searched, Returned (head (each_app dir items))).
Proof.
  induction fuel as [| fuel IH]; intros dir items Hread Hwf Hsize; [lia |].
  cbn [search_dir]. rewrite Hread.
  destruct (find_in_entries_head (search_dir fuel fs) dir items) as (s & E).
  - intros n cs Hin _.
    destruct (IH (path_join dir [n]) cs) as (s & E); [| | | by eexists].
    + apply (readdir_child fs dir items (Dir n cs) Hread Hwf Hin eq_refl).
    + rewrite <- (wf_entry_Dir n). by apply (wf_fs_child items).
    + apply entries_size_In in Hin. rewrite entry_size_Dir in Hin. lia.
  - rewrite E. by exists s.
Qed.

Lemma readdir_wf fs dir items :
  wf_fs fs = true -> readdir fs dir = Some items -> wf_fs items = true.
Proof.
  unfold readdir. intros Hwf H.
  destruct (stat fs dir) as [[c | es] |] eqn:E; try done.
  injection H as <-. by apply (stat_wf fs dir).
Qed.

Lemma readdir_size fs dir items :
  readdir fs dir = Some items -> entries_size items <= entries_size fs.
Proof.
  unfold readdir. intros H.
  destruct (stat fs dir) as [[c | es] |] eqn:E; try done.
  injection H as <-. by apply (stat_size fs dir).
Qed.

(** X1.  On a well-formed tree, the recursive search [findAppDirectory]
    started at a directory terminates and returns the first candidate in
    depth-first listing order: the head of the list of all directories named
    "app" below the start, or null when there is none.  The first directory
    it reports searching is the start directory. *)
Theorem findAppDirectory_first_candidate (fs : FS) (dir : path) (items : list entry) :
  wf_fs fs = true ->
  readdir fs dir = Some items ->
  (forall fuel, search_fuel fs <= fuel ->
     found (search_dir fuel fs dir) = Some (Returned (head (app_dirs dir items))))
  /\ found (findAppDirectory fs dir) = Some (Returned (head (app_dirs dir items)))
  /\ (exists searched,
        findAppDirectory fs dir
        = Some (dir :: searched, Returned (head (app_dirs dir items))))
  /\ (app_dirs dir items = [] -> found (findAppDirectory fs dir) = Some (Returned None)).
Proof.
  intros Hwf Hread.
  assert (forall fuel, search_fuel fs <= fuel ->
            exists searched,
              search_dir fuel fs dir
              = Some (dir :: searched, Returned (head (app_dirs dir items)))) as H.
  { intros fuel Hfuel. unfold app_dirs. rewrite app_dirs_in_Dir.
    apply search_dir_head; [done | by apply (readdir_wf fs dir) |].
    apply readdir_size in Hread. unfold search_fuel in Hfuel. lia. }
  assert (forall fuel, search_fuel fs <= fuel ->
            found (search_dir fuel fs dir)
            = Some (Returned (head (app_dirs dir items)))) as H'.
  { intros fuel Hfuel. destruct (H fuel Hfuel) as (s & ->). reflexivity. }
  split; [exact H' |]. split; [by apply H' |]. split; [by apply H |].
  intros E. unfold findAppDirectory. rewrite H' by done. by rewrite E.
Qed.

Lemma findAppDirectory_first_candidate_witness :
  found (findAppDirectory two_apps_fs []) = Some (Returned (Some ["src"; "app"])).
Proof.
  exact (proj1 (proj2 (findAppDirectory_first_candidate two_apps_fs [] two_apps_fs
                         eq_refl eq_refl))).
Defined.

(** ** The two searches compared *)

Lemma first_app_head dir items :
  length (app_dirs dir items) <= 1 ->
  first_app dir items = head (app_dirs dir items).
Proof.
  intros Hlen. unfold first_app, app_dirs in *.
  destruct (first_app_in dir (Dir "" items)) as [p |] eqn:E.
  - apply first_app_in_candidate in E.
    destruct (app_dirs_in dir (Dir "" items)) as [| q [| q' l]]; cbn in *;
      [done | | lia].
    destruct E as [-> | []]. reflexivity.
  - destruct (app_dirs_in dir (Dir "" items)) as [| q l] eqn:A; [done |].
    destruct (first_app_in_finds (Dir "" items) dir) as (p & Hp); [| congruence].
    by rewrite A.
Qed.

Lemma getAppDirectoryPath_first_app fs dir items :
  wf_fs fs = true -> readdir fs dir = Some items ->
  getAppDirectoryPath fs dir = Some (Returned (first_app dir items)).
Proof.
  intros Hwf Hread. unfold getAppDirectoryPath.
  pose proof (locate_loop_search fs (locate_fuel fs) [(dir, items)]) as H.
  cbn [map fst search_stack] in H.
  rewrite H.
  - by destruct (first_app dir items).
  - constructor; [| constructor]. split; [exact Hread | by apply (readdir_wf fs dir)].
  - cbn [stack_weight]. apply readdir_size in Hread. unfold locate_fuel. lia.
Qed.

(** X2.  On a well-formed tree with at most one directory named "app" below
    the start directory, the recursive search [findAppDirectory] and the
    work-list search [getAppDirectoryPath] return the same result: that
    directory, or null. *)
Theorem search_variants_agree (fs : FS) (dir : path) (items : list entry) :
  wf_fs fs = true ->
  readdir fs dir = Some items ->
  length (app_dirs dir items) <= 1 ->
  found (findAppDirectory fs dir) = getAppDirectoryPath fs dir
  /\ getAppDirectoryPath fs dir = Some (Returned (head (app_dirs dir items))).
Proof.
  intros Hwf Hread Hlen.
  rewrite (getAppDirectoryPath_first_app fs dir items Hwf Hread).
  rewrite (first_app_head dir items Hlen).
  split; [| reflexivity].
  unfold findAppDirectory.
  destruct (search_dir_head fs (search_fuel fs) dir items Hread) as (s & ->).
  - by apply (readdir_wf fs dir).
  - apply readdir_size in Hread. unfold search_fuel. lia.
  - unfold app_dirs. by rewrite app_dirs_in_Dir.
Qed.

Lemma search_variants_agree_witness :
  found (findAppDirectory (w_fs empty_project) []) = getAppDirectoryPath (w_fs empty_project) []
  /\ getAppDirectoryPath (w_fs empty_project) [] = Some (Returned (Some ["app"])).
Proof.
  apply (search_variants_agree (w_fs empty_project) [] (w_fs empty_project));
    [reflexivity | reflexivity | cbn; lia].
Defined.

(** ** What the work-list search returns *)

Lemma getAppDirectoryPath_direct_child fs dir items :
  readdir fs dir = Some items -> existsb is_app_dir items = true ->
  getAppDirectoryPath fs dir = Some (Returned (Some (path_join dir ["app"]))).
Proof.
  intros Hread Happ. unfold getAppDirectoryPath, locate_fuel. cbn [locate_loop].
  by rewrite Hread, scan_items_found.
Qed.

(** X3.  A directory named "app" listed directly in the start directory
    always wins in [getAppDirectoryPath], whatever else the tree holds
    (nested candidates, entries listed before it, files named "app"): the
    first directory read is scanned completely before any sub-directory is
    opened. *)
Theorem getAppDirectoryPath_prefers_direct_child
    (fs : FS) (startDir : path) (items : list entry) :
  readdir fs startDir = Some items ->
  existsb is_app_dir items = true ->
  getAppDirectoryPath fs startDir = Some (Returned (Some (path_join startDir ["app"])))
  /\ forall fuel rest, 0 < fuel ->
       locate_loop fuel fs (startDir :: rest)
       = Some (Returned (Some (path_join startDir ["app"]))).
Proof.
  intros Hread Happ. split; [by apply (getAppDirectoryPath_direct_child fs _ items) |].
  intros [| fuel] rest Hfuel; [lia |]. cbn [locate_loop].
  by rewrite Hread, scan_items_found.
Qed.

Lemma getAppDirectoryPath_prefers_direct_child_witness :
  getAppDirectoryPath nested_first_fs [] = Some (Returned (Some ["app"])).
Proof.
  exact (proj1 (getAppDirectoryPath_prefers_direct_child nested_first_fs []
                  nested_first_fs eq_refl eq_refl)).
Defined.

(** X4.  The two searches are not interchangeable: on a well-formed tree
    whose start directory lists a directory named "app" while the first
    candidate in depth-first listing order is another one (nested in a
    directory listed earlier), [findAppDirectory] returns the nested
    candidate and [getAppDirectoryPath] the direct child. *)
Theorem search_variants_differ (fs : FS) (dir : path) (items : list entry) (p : path) :
  wf_fs fs = true ->
  readdir fs dir = Some items ->
  existsb is_app_dir items = true ->
  head (app_dirs dir items) = Some p ->
  p <> path_join dir ["app"] ->
  found (findAppDirectory fs dir) = Some (Returned (Some p))
  /\ getAppDirectoryPath fs dir = Some (Returned (Some (path_join dir ["app"])))
  /\ found (findAppDirectory fs dir) <> getAppDirectoryPath fs dir.
Proof.
  intros Hwf Hread Happ Hhead Hp.
  assert (found (findAppDirectory fs dir) = Some (Returned (Some p))) as E1.
  { unfold findAppDirectory.
    destruct (search_dir_head fs (search_fuel fs) dir items Hread) as (s & ->).
    - by apply (readdir_wf fs dir).
    - apply readdir_size in Hread. unfold search_fuel. lia.
    - cbn [found]. unfold app_dirs in Hhead. rewrite app_dirs_in_Dir in Hhead.
      by rewrite Hhead. }
  pose proof (getAppDirectoryPath_direct_child fs dir items Hread Happ) as E2.
  split; [exact E1 |]. split; [exact E2 |].
  rewrite E1, E2. intros [= E]. by apply Hp.
Qed.

Lemma search_variants_differ_witness :
  found (findAppDirectory nested_first_fs [])
  = Some (Returned (Some ["packages"; "admin"; "app"]))
  /\ getAppDirectoryPath nested_first_fs [] = Some (Returned (Some ["app"]))
  /\ found (findAppDirectory nested_first_fs []) <> getAppDirectoryPath nested_first_fs [].
Proof.
  apply (search_variants_differ nested_first_fs [] nested_first_fs
           ["packages"; "admin"; "app"]); [reflexivity .. | discriminate].
Defined.

Example search_variants_on_two_candidates :
  found (findAppDirectory two_apps_fs []) = Some (Returned (Some ["src"; "app"]))
  /\ getAppDirectoryPath two_apps_fs [] = Some (Returned (Some ["lib"; "app"])).
Proof. vm_compute. by split. Qed.

Lemma find_entry_listed c items : In c items -> find_entry (entry_name c) items <> None.
Proof.
  unfold find_entry. induction items as [| e items IH]; cbn [List.find]; [done |].
  intros [-> | Hin].
  - by rewrite String.eqb_refl.
  - destruct (String.eqb (entry_name e) (entry_name c)); [done | by apply IH].
Qed.

Lemma existsSync_child fs dir items c :
  readdir fs dir = Some items -> In c items ->
  existsSync fs (path_join dir [entry_name c]) = true.
Proof.
  unfold readdir, existsSync, path_join. intros Hread Hin. rewrite stat_app.
  destruct (stat fs dir) as [[content | es] |]; try done. injection Hread as ->.
  cbn [stat]. pose proof (find_entry_listed c items Hin) as H.
  destruct (find_entry (entry_name c) items) as [[n content | n cs] |]; done.
Qed.

Lemma scan_items_child dir items : forall st p,
  scan_items dir items st = inl p ->
  exists c, In c items /\ is_app_dir c = true /\ p = path_join dir [entry_name c].
Proof.
  induction items as [| c items IH]; intros st p; cbn [scan_items]; [done |].
  destruct (isDirectory c) eqn:Ed.
  - destruct (String.eqb (entry_name c) "app") eqn:En.
    + intros [= <-]. exists c. split; [by left |]. split; [| done].
      unfold is_app_dir. by rewrite Ed, En.
    + intros H. apply IH in H as (c' & Hin & H). exists c'. split; [by right | done].
  - intros H. apply IH in H as (c' & Hin & H). exists c'. split; [by right | done].
Qed.

(** Whatever the loop returns was listed, as a directory named "app", in a
    directory that it read. *)
Lemma locate_loop_child fs fuel : forall st p,
  locate_loop fuel fs st = Some (Returned (Some p)) ->
  exists dir items c,
    readdir fs dir = Some items /\ In c items /\ is_app_dir c = true
    /\ p = path_join dir [entry_name c].
Proof.
  induction fuel as [| fuel IH]; intros st p; cbn [locate_loop]; [done |].
  destruct st as [| dir rest]; [done |].
  destruct (readdir fs dir) as [items |] eqn:Hread; [| done].
  destruct (scan_items dir items rest) as [q | st'] eqn:Hscan.
  - intros [= <-]. apply scan_items_child in Hscan as (c & Hin & Hc & ->).
    by exists dir, items, c.
  - apply IH.
Qed.

(** X5.  Every path [getAppDirectoryPath] returns extends the start
    directory, ends in the segment "app", passes through no other directory
    named "app" (the search never looks inside one), and exists in the tree;
    on a well-formed tree it is a directory. *)
Theorem getAppDirectoryPath_result (fs : FS) (startDir appDir : path) :
  getAppDirectoryPath fs startDir = Some (Returned (Some appDir)) ->
  (exists q, appDir = startDir ++ q ++ ["app"] /\ ~ In "app" q)
  /\ existsSync fs appDir = true
  /\ (wf_fs fs = true -> exists listing, readdir fs appDir = Some listing).
Proof.
  intros H. split; [by apply (getAppDirectoryPath_shape fs) |].
  apply locate_loop_child in H as (dir & items & c & Hread & Hin & Hc & ->).
  split; [by apply (existsSync_child fs dir items) |].
  intros Hwf. exists (children_of c).
  apply (readdir_child fs dir items c Hread); [by apply (readdir_wf fs dir) | done |].
  unfold is_app_dir in Hc. by apply andb_true_iff in Hc as [Hc _].
Qed.

Lemma getAppDirectoryPath_result_witness :
  (exists q, ["lib"; "app"] = [] ++ q ++ ["app"] /\ ~ In "app" q)
  /\ existsSync two_apps_fs ["lib"; "app"] = true
  /\ (wf_fs two_apps_fs = true -> exists listing, readdir two_apps_fs ["lib"; "app"] = Some listing).
Proof.
  apply (getAppDirectoryPath_result two_apps_fs [] ["lib"; "app"]). reflexivity.
Defined.

(* ===================================================================== *)
(** * Validation and location of the host project *)
(* ===================================================================== *)

Lemma existsSync_parent fs dir n :
  existsSync fs (path_join dir [n]) = true ->
  exists items, readdir fs dir = Some items.
Proof.
  unfold existsSync, readdir, path_join. rewrite stat_app.
  destruct (stat fs dir) as [[content | es] |]; [done | by eexists | done].
Qed.

Lemma existsSync_listed fs dir n items :
  readdir fs dir = Some items ->
  existsSync fs (path_join dir [n]) = true ->
  In n (map entry_name items).
Proof.
  unfold existsSync, readdir, path_join. rewrite stat_app.
  destruct (stat fs dir) as [[content | es] |]; try done. intros [= ->].
  cbn [stat]. destruct (find_entry n items) as [e |] eqn:E; [| done].
  intros _. apply find_entry_name in E as [<- Hin]. by apply in_map.
Qed.

Lemma getAppDirectoryPath_found_exists fs dir p :
  getAppDirectoryPath fs dir = Some (Returned (Some p)) -> existsSync fs p = true.
Proof.
  intros H. apply locate_loop_child in H as (d & items & c & Hread & Hin & _ & ->).
  by apply (existsSync_child fs d items).
Qed.

Lemma existsSync_named fs dir n items :
  readdir fs dir = Some items -> In n (map entry_name items) ->
  existsSync fs (path_join dir [n]) = true.
Proof.
  intros Hread Hin. apply in_map_iff in Hin as (c & <- & Hin).
  by apply (existsSync_child fs dir items).
Qed.

(** X6.  [checkIsNextProject] accepts a path exactly when it is a
    directory whose listing has an entry named package.json and an entry
    named next.config.js; a missing path or a file is rejected.  Either
    entry may itself be a directory: only existence is tested. *)
Theorem checkIsNextProject_iff (fs : FS) (dir : path) :
  checkIsNextProject fs dir = true <->
  exists items,
    readdir fs dir = Some items
    /\ In "package.json" (map entry_name items)
    /\ In "next.config.js" (map entry_name items).
Proof.
  unfold checkIsNextProject. cbn [forallb]. rewrite andb_true_r. split.
  - intros H. apply andb_true_iff in H as [H1 H2].
    destruct (existsSync_parent fs dir _ H1) as (items & Hread). exists items.
    split; [exact Hread |].
    split; by apply (existsSync_listed fs dir).
  - intros (items & Hread & H1 & H2). apply andb_true_iff.
    split; by apply (existsSync_named fs dir _ items).
Qed.

Lemma checkIsNextProject_dir fs dir :
  checkIsNextProject fs dir = true -> exists items, readdir fs dir = Some items.
Proof.
  unfold checkIsNextProject. cbn [forallb]. intros H.
  apply andb_true_iff in H as [H _]. by apply (existsSync_parent fs dir _ H).
Qed.

(** X7.  On a well-formed tree the locating step of the orchestrator never
    throws and never changes the tree.  It returns the early-exit value
    exactly when validation fails, and otherwise the answered directory
    together with the directory [getAppDirectoryPath] found: the test
    [fs.existsSync(appDir)] that follows the search can only fail on null. *)
Theorem locate_project_outcome (c : collaborators) (w : world) :
  wf_fs (w_fs w) = true ->
  exists r w',
    locate_project c w = (Returned r, w')
    /\ w_fs w' = w_fs w
    /\ (r = None <-> validation_fails c (w_fs w))
    /\ (forall dir appDir, r = Some (dir, appDir) ->
          answer_projectDir c = Some dir
          /\ checkIsNextProject (w_fs w) dir = true
          /\ getAppDirectoryPath (w_fs w) dir = Some (Returned (Some appDir))
          /\ existsSync (w_fs w) appDir = true).
Proof.
  intros Hwf. unfold locate_project, validation_fails. mrun.
  destruct (answer_projectDir c) as [dir |]; mrun.
  - destruct (checkIsNextProject (w_fs w) dir) eqn:Hc; mrun.
    + destruct (checkIsNextProject_dir _ _ Hc) as (items & Hread).
      pose proof (getAppDirectoryPath_first_app _ _ _ Hwf Hread) as Hg.
      rewrite Hg. destruct (first_app dir items) as [found |] eqn:F; mrun.
      * rewrite (getAppDirectoryPath_found_exists _ _ _ Hg). mrun.
        do 2 eexists. split; [reflexivity |]. cbn [w_fs].
        split; [done |]. split.
        -- split; [done |]. intros [H | [_ H]]; congruence.
        -- intros d a [= <- <-]. repeat split; try done.
           by apply (getAppDirectoryPath_found_exists _ dir).
      * do 2 eexists. split; [reflexivity |]. cbn [w_fs].
        split; [done |]. split; [| done].
        split; [| done]. intros _. by right.
    + do 2 eexists. split; [reflexivity |]. cbn [w_fs].
      split; [done |]. split; [| done]. split; [| done]. intros _. by left.
  - do 2 eexists. split; [reflexivity |]. cbn [w_fs]. by repeat split.
Qed.

Lemma locate_project_outcome_witness :
  exists r w',
    locate_project quiet_user empty_project = (Returned r, w')
    /\ w_fs w' = w_fs empty_project
    /\ (r = None <-> validation_fails quiet_user (w_fs empty_project))
    /\ (forall dir appDir, r = Some (dir, appDir) ->
          answer_projectDir quiet_user = Some dir
          /\ checkIsNextProject (w_fs empty_project) dir = true
          /\ getAppDirectoryPath (w_fs empty_project) dir = Some (Returned (Some appDir))
          /\ existsSync (w_fs empty_project) appDir = true).
Proof. apply (locate_project_outcome quiet_user empty_project). reflexivity. Defined.

(* ===================================================================== *)
(** * [slugify]: what the result is made of *)
(* ===================================================================== *)

Lemma space_not_word c : is_space c = true -> is_word c = false.
Proof. classes. lia. Qed.

Lemma hyphen_not_word c : is_hyphen c = true -> is_word c = false.
Proof. classes. lia. Qed.

Lemma is_word_ascii_lower c : is_word (ascii_lower c) = is_word c.
Proof. unfold ascii_lower. destruct (is_upper c) eqn:E; [| done]. classes. lia. Qed.

Lemma filter_word_cons c s :
  List.filter is_word (c :: s)
  = if is_word c then c :: List.filter is_word s else List.filter is_word s.
Proof. reflexivity. Qed.

(** Each pass after the lower-casing keeps the word characters, in order. *)
Lemma words_replace_spaces s :
  List.filter is_word (replace_spaces s) = List.filter is_word s.
Proof.
  induction s as [| c s IH]; [done |]. cbn [replace_spaces].
  destruct (is_space c) eqn:E.
  - rewrite (filter_word_cons c), (space_not_word _ E).
    destruct s as [| c2 s']; [done |].
    destruct (is_space c2); [exact IH |].
    by rewrite (filter_word_cons hyphen).
  - rewrite !filter_word_cons. by rewrite IH.
Qed.

Lemma words_remove_non_word s :
  List.filter is_word (remove_non_word s) = List.filter is_word s.
Proof.
  unfold remove_non_word. induction s as [| c s IH]; [done |].
  cbn [List.filter]. destruct (is_word c) eqn:E; cbn [orb].
  - cbn [List.filter]. by rewrite E, IH.
  - destruct (is_hyphen c); [| done]. cbn [List.filter]. by rewrite E.
Qed.

Lemma words_collapse_hyphens s :
  List.filter is_word (collapse_hyphens s) = List.filter is_word s.
Proof.
  induction s as [| c s IH]; [done |]. cbn [collapse_hyphens].
  destruct (is_hyphen c) eqn:E.
  - rewrite (filter_word_cons c), (hyphen_not_word _ E).
    destruct s as [| c2 s']; [by cbn; rewrite (hyphen_not_word _ E) |].
    destruct (is_hyphen c2); [exact IH |].
    by rewrite (filter_word_cons c), (hyphen_not_word _ E).
  - rewrite !filter_word_cons. by rewrite IH.
Qed.

Lemma words_trim_start s :
  List.filter is_word (trim_start s) = List.filter is_word s.
Proof.
  induction s as [| c s IH]; [done |]. cbn [trim_start].
  destruct (is_hyphen c) eqn:E; [| done].
  by rewrite (filter_word_cons c), (hyphen_not_word _ E).
Qed.

Lemma words_trim_end s :
  List.filter is_word (trim_end s) = List.filter is_word s.
Proof.
  induction s as [| c s IH]; [done |]. cbn [trim_end].
  rewrite (filter_word_cons c), <- IH.
  destruct (trim_end s) as [| r rs].
  - destruct (is_hyphen c) eqn:E.
    + by rewrite (hyphen_not_word _ E).
    + cbn [List.filter]. by destruct (is_word c).
  - by rewrite filter_word_cons.
Qed.

Lemma words_map_ascii_lower s :
  List.filter is_word (map ascii_lower s) = map ascii_lower (List.filter is_word s).
Proof.
  induction s as [| c s IH]; [done |]. cbn [map List.filter].
  rewrite is_word_ascii_lower. destruct (is_word c); cbn [map]; by rewrite IH.
Qed.

(** X8.  [slugify] neither loses nor reorders a word character: the word
    characters of the slug are those of the lower-cased input, in order; on
    an ASCII input they are the letter-wise lower-casing of the input's word
    characters.  Everything else in the slug is a hyphen. *)
Theorem slugify_keeps_word_characters (unicode_lower : jsstring -> jsstring)
    (str : jsstring) :
  List.filter is_word (slugify unicode_lower str)
  = List.filter is_word (toLowerCase unicode_lower str)
  /\ forallb (fun c => is_word c || is_hyphen c) (slugify unicode_lower str) = true
  /\ (forallb is_ascii_unit str = true ->
      List.filter is_word (slugify unicode_lower str)
      = map ascii_lower (List.filter is_word str)).
Proof.
  assert (List.filter is_word (slugify unicode_lower str)
          = List.filter is_word (toLowerCase unicode_lower str)) as H.
  { unfold slugify.
    by rewrite words_trim_end, words_trim_start, words_collapse_hyphens,
      words_remove_non_word, words_replace_spaces. }
  split; [exact H |]. split.
  - unfold slugify.
    apply trim_end_forallb, trim_start_forallb, collapse_hyphens_forallb,
      remove_non_word_kept.
  - intros Ha. rewrite H. unfold toLowerCase. rewrite Ha.
    apply words_map_ascii_lower.
Qed.

Lemma slugify_ascii f s :
  forallb is_ascii_unit s = true -> slugify f s = slugify ascii_only_lower s.
Proof. intros H. unfold slugify, toLowerCase. by rewrite H. Qed.

(** X9.  The result of [slugify] is always a well-formed slug: it consists
    of lower-case letters, digits, underscores and hyphens only, holds no
    two hyphens in a row, and neither starts nor ends with a hyphen.  This
    holds for every ASCII input, and for every input when the built-in
    lower-casing leaves no ASCII capital behind. *)
Theorem slugify_valid_slug (unicode_lower : jsstring -> jsstring) (str : jsstring) :
  lowers unicode_lower \/ forallb is_ascii_unit str = true ->
  forallb (fun c => (is_word c && negb (is_upper c)) || is_hyphen c)
          (slugify unicode_lower str) = true
  /\ no_double_hyphen (slugify unicode_lower str) = true
  /\ starts_with_hyphen (slugify unicode_lower str) = false
  /\ ends_with_hyphen (slugify unicode_lower str) = false.
Proof.
  intros H.
  assert (is_slug (slugify unicode_lower str) = true) as Hs.
  { destruct H as [H | H]; [by apply slugify_is_slug |].
    rewrite (slugify_ascii _ _ H). apply slugify_is_slug, ascii_only_lower_lowers. }
  unfold is_slug in Hs.
  apply andb_true_iff in Hs as [Hs He]. apply andb_true_iff in Hs as [Hs Hb].
  apply andb_true_iff in Hs as [Hc Hd]. apply negb_true_iff in He, Hb.
  done.
Qed.

Lemma slugify_valid_slug_witness :
  forallb (fun c => (is_word c && negb (is_upper c)) || is_hyphen c)
          (slugify ascii_only_lower sample_name) = true
  /\ no_double_hyphen (slugify ascii_only_lower sample_name) = true
  /\ starts_with_hyphen (slugify ascii_only_lower sample_name) = false
  /\ ends_with_hyphen (slugify ascii_only_lower sample_name) = false.
Proof.
  apply (slugify_valid_slug ascii_only_lower sample_name).
  left. exact ascii_only_lower_lowers.
Defined.

(** X10.  The slugs are exactly the strings [slugify] leaves as they are:
    a project name that is already a slug is its own slug, and any string
    that [slugify] returns unchanged is a slug. *)
Theorem slugify_fixed_points (unicode_lower : jsstring -> jsstring) (str : jsstring) :
  lowers unicode_lower ->
  (slugify unicode_lower str = str <-> is_slug str = true).
Proof.
  intros Hf. split.
  - intros E. rewrite <- E. by apply slugify_is_slug.
  - apply slugify_slug.
Qed.

Lemma slugify_fixed_points_witness :
  slugify ascii_only_lower (js "my-cool-app") = js "my-cool-app"
  <-> is_slug (js "my-cool-app") = true.
Proof.
  exact (slugify_fixed_points ascii_only_lower (js "my-cool-app")
           ascii_only_lower_lowers).
Defined.



Lemma string_of_js_nil : string_of_js [] = "".
Proof. reflexivity. Qed.



(* ===================================================================== *)
(** * [getProjectName] and [promptForEnvVariables] *)
(* ===================================================================== *)

Lemma getProjectName_run c dir w :
  getProjectName c (Some dir) w
  = match manifest_of c (w_fs w) dir with
    | Some m => (Returned (match m_name m with Some n => n | None => [] end), w)
    | None =>
        (Threw (match stat (w_fs w) (path_join dir ["package.json"]) with
                | Some (NFile _) => SyntaxError (path_string (path_join dir ["package.json"]))
                | Some (NDir _) => EISDIR (path_join dir ["package.json"])
                | None => ENOENT (path_join dir ["package.json"])
                end),
         mkWorld (w_fs w) (w_log w ++ [EvError "Could not retrieve project name."])
                 (w_spinner w))
    end.
Proof.
  unfold getProjectName, try_catch, manifest_of. unfold bind at 1.
  rewrite readJson_spec.
  destruct (stat (w_fs w) _) as [[text | es] |]; mrun; try done.
  by destruct (parse_json c text); mrun.
Qed.

(** X12.  [getProjectName] returns the manifest's name, or the empty
    string when the manifest has none, and leaves the world as it is.  When
    the manifest cannot be read or parsed, or when no directory is passed,
    it prints "Could not retrieve project name." and throws the error again;
    the tree is untouched. *)
Theorem getProjectName_cases (c : collaborators) (projectDir : option path) (w : world) :
  (forall dir m,
     projectDir = Some dir -> manifest_of c (w_fs w) dir = Some m ->
     getProjectName c projectDir w
     = (Returned (match m_name m with Some n => n | None => [] end), w))
  /\ ((projectDir = None
       \/ exists dir, projectDir = Some dir /\ manifest_of c (w_fs w) dir = None) ->
      exists e,
        getProjectName c projectDir w
        = (Threw e,
           mkWorld (w_fs w) (w_log w ++ [EvError "Could not retrieve project name."])
                   (w_spinner w))).
Proof.
  split.
  - intros dir m -> Hm. by rewrite getProjectName_run, Hm.
  - intros [-> | (dir & -> & Hm)].
    + eexists. unfold getProjectName. by mrun.
    + rewrite getProjectName_run, Hm. by eexists.
Qed.

Lemma append_not_empty a b : b <> "" -> a +:+ b <> "".
Proof.
  intros Hb E. apply Hb. apply (f_equal String.length) in E.
  rewrite string_app_length in E. destruct b; [done | cbn in E; lia].
Qed.

Lemma input_answer_plain c k : input_answer c (k, None) = (k, answer_env c k).
Proof.
  unfold input_answer. cbn [fst snd].
  by destruct (String.eqb_spec (answer_env c k) "") as [-> | _].
Qed.

(** X13.  When the manifest of the project can be read, the prompt for the
    environment variables returns one answer per question, in question
    order.  The bucket name is what was typed, or on a bare Enter the
    default built from the slug of the project name; it is never empty,
    while every other answer is exactly what was typed and may be empty.
    The earlier version of the prompt asks the first four questions only.
    Neither touches the tree. *)
Theorem promptForEnvVariables_answers (c : collaborators) (projectDir : path)
    (w : world) (m : manifest) :
  manifest_of c (w_fs w) projectDir = Some m ->
  let projectName := match m_name m with Some n => n | None => [] end in
  let bucket :=
    if String.eqb (answer_env c "AWS_S3_BUCKET_NAME") ""
    then defaultBucketName c projectName
    else answer_env c "AWS_S3_BUCKET_NAME" in
  let answers :=
    [ ("AWS_ACCESS_KEY_ID", answer_env c "AWS_ACCESS_KEY_ID");
      ("AWS_SECRET_ACCESS_KEY", answer_env c "AWS_SECRET_ACCESS_KEY");
      ("AWS_REGION", answer_env c "AWS_REGION");
      ("AWS_S3_BUCKET_NAME", bucket);
      ("OPENAI_API_KEY", answer_env c "OPENAI_API_KEY") ] in
  promptForEnvVariables_5 c (Some projectDir) w
  = (Returned answers,
     mkWorld (w_fs w) (w_log w ++ [EvPrompt (map fst answers)]) (w_spinner w))
  /\ promptForEnvVariables_4 c (Some projectDir) w
     = (Returned (firstn 4 answers),
        mkWorld (w_fs w) (w_log w ++ [EvPrompt (map fst (firstn 4 answers))])
                (w_spinner w))
  /\ bucket <> ""
  /\ (answer_env c "AWS_S3_BUCKET_NAME" = "" ->
      bucket = string_of_js (slugify (unicode_lower c) projectName) +:+ "-bucket-cms").
Proof.
  intros Hm. cbv zeta. split; [| split; [| split]].
  - unfold promptForEnvVariables_5, bind.
    rewrite getProjectName_run, Hm. unfold inquirer_prompt, aws_questions.
    mrun. cbn [map app fst]. rewrite !input_answer_plain. reflexivity.
  - unfold promptForEnvVariables_4, bind.
    rewrite getProjectName_run, Hm. unfold inquirer_prompt, aws_questions.
    mrun. cbn [map firstn fst]. rewrite !input_answer_plain. reflexivity.
  - destruct (String.eqb_spec (answer_env c "AWS_S3_BUCKET_NAME") "") as [E | E];
      [| done].
    unfold defaultBucketName. by apply append_not_empty.
  - intros ->. reflexivity.
Qed.

Lemma promptForEnvVariables_answers_witness :
  (if String.eqb (answer_env quiet_user "AWS_S3_BUCKET_NAME") ""
   then defaultBucketName quiet_user (js "shop")
   else answer_env quiet_user "AWS_S3_BUCKET_NAME") <> ""
  /\ (answer_env quiet_user "AWS_S3_BUCKET_NAME" = "" ->
      (if String.eqb (answer_env quiet_user "AWS_S3_BUCKET_NAME") ""
       then defaultBucketName quiet_user (js "shop")
       else answer_env quiet_user "AWS_S3_BUCKET_NAME")
      = string_of_js (slugify (unicode_lower quiet_user) (js "shop")) +:+ "-bucket-cms").
Proof.
  exact (proj2 (proj2 (promptForEnvVariables_answers quiet_user [] empty_project
                         (mkManifest (Some (js "shop")) None) eq_refl))).
Defined.

(* ===================================================================== *)
(** * [writeEnvVariables]: when it fails, and what it leaves alone *)
(* ===================================================================== *)

(** Storing leaves every path untouched that is neither inside the place
    stored at nor an ancestor of it. *)
Lemma stat_put_incomparable p : forall fs nd fs' q,
  put fs p nd = Some fs' ->
  is_prefix p q = false -> is_prefix q p = false ->
  stat fs' q = stat fs q.
Proof.
  induction p as [| n p IH]; intros fs nd fs' q Hput Hpq Hqp; [done |].
  destruct q as [| m q]; [done |].
  cbn [is_prefix] in Hpq, Hqp. cbn [put] in Hput. rewrite !stat_cons.
  destruct p as [| x p'].
  - injection Hput as <-.
    destruct (String.eqb_spec n m) as [-> | Hne]; [done |].
    by rewrite find_entry_set_other.
  - destruct (find_entry n fs) as [[? ? | ? cs] |] eqn:E; try done.
    destruct (put cs (x :: p') nd) as [cs' |] eqn:Ep; [| done].
    injection Hput as <-.
    destruct (String.eqb_spec n m) as [-> | Hne].
    + rewrite String.eqb_refl in Hqp. cbn [andb] in Hpq, Hqp.
      rewrite find_entry_set_same, E. cbn [entry_of].
      by apply (IH cs nd).
    + by rewrite find_entry_set_other.
Qed.

Lemma stat_child_parent fs dir n nd :
  stat fs (dir ++ [n]) = Some nd -> exists listing, stat fs dir = Some (NDir listing).
Proof.
  rewrite stat_app. destruct (stat fs dir) as [[c | es] |]; [done | by eexists | done].
Qed.

Lemma envPath_not_root dir : envPath dir <> [].
Proof. unfold envPath, path_join. by destruct dir. Qed.

(** The cases of a call, by what the two paths denote. *)
Lemma writeEnvVariables_run es dir w :
  writeEnvVariables es dir w
  = match stat (w_fs w) (envPath dir) with
    | Some (NFile prior) =>
        let said := EvLog ("appending environment variables at "
                           +:+ path_string (envPath dir)) in
        match put (w_fs w) (envPath dir) (NFile (prior +:+ nl +:+ envData es)) with
        | Some fs' =>
            (Returned tt,
             mkWorld fs'
               (w_log w ++ [said; EvAppendFile (envPath dir) (nl +:+ envData es)])
               (w_spinner w))
        | None =>
            (Threw (ENOENT (envPath dir)),
             mkWorld (w_fs w) (w_log w ++ [said]) (w_spinner w))
        end
    | Some (NDir _) =>
        (Threw (EISDIR (envPath dir)),
         mkWorld (w_fs w)
           (w_log w ++ [EvLog ("appending environment variables at "
                               +:+ path_string (envPath dir))])
           (w_spinner w))
    | None =>
        let said := EvLog ("writing environment variables at "
                           +:+ path_string (envPath dir)) in
        match stat (w_fs w) dir, put (w_fs w) (envPath dir) (NFile (envData es)) with
        | Some (NDir _), Some fs' =>
            (Returned tt,
             mkWorld fs' (w_log w ++ [said; EvWriteFile (envPath dir) (envData es)])
                     (w_spinner w))
        | _, _ =>
            (Threw (ENOENT (envPath dir)),
             mkWorld (w_fs w) (w_log w ++ [said]) (w_spinner w))
        end
    end.
Proof.
  unfold writeEnvVariables, bind, existsSyncM, existsSync, console_log, emit,
    writeFile, appendFile, fs_call, fs_appendFile, fs_writeFile.
  destruct (stat (w_fs w) (envPath dir)) as [[prior | listing] |] eqn:E;
    cbn [w_fs w_log w_spinner]; rewrite E; cbv zeta.
  - destruct (put _ _ _); [| done]. by rewrite <- app_assoc.
  - done.
  - unfold envPath, path_join. rewrite split_last_snoc.
    destruct (stat (w_fs w) dir) as [[c | l] |]; try done.
    destruct (put _ _ _); [| done]. by rewrite <- app_assoc.
Qed.

(** X14.  [writeEnvVariables] succeeds exactly when the project directory
    is a directory and .env.local is not one.  When it fails, the tree is as
    it was, and the message announcing the write has been printed all the
    same. *)
Theorem writeEnvVariables_succeeds_iff
    (envVariables : list (string * string)) (projectDir : path) (w : world) :
  (fst (writeEnvVariables envVariables projectDir w) = Returned tt
   <-> (exists listing, stat (w_fs w) projectDir = Some (NDir listing))
       /\ (forall listing, stat (w_fs w) (envPath projectDir) <> Some (NDir listing)))
  /\ (forall e,
        fst (writeEnvVariables envVariables projectDir w) = Threw e ->
        w_fs (after (writeEnvVariables envVariables projectDir) w) = w_fs w
        /\ exists msg,
             w_log (after (writeEnvVariables envVariables projectDir) w)
             = w_log w ++ [EvLog msg]).
Proof.
  unfold after. rewrite writeEnvVariables_run.
  destruct (stat (w_fs w) (envPath projectDir)) as [[prior | listing] |] eqn:E;
    cbv zeta.
  - destruct (put_over (envPath projectDir) (w_fs w) (NFile prior)
                (NFile (prior +:+ nl +:+ envData envVariables))
                (envPath_not_root _) E) as (fs' & ->).
    cbn [fst snd]. split; [| done].
    split; [| done]. intros _. split; [| done].
    by apply (stat_child_parent _ _ ".env.local" (NFile prior)).
  - cbn [fst snd w_fs w_log]. split.
    + split; [done |]. intros [_ H]. by destruct (H listing).
    + intros e _. split; [done | by eexists].
  - destruct (stat (w_fs w) projectDir) as [[c | l] |] eqn:Ed.
    + cbn [fst snd w_fs w_log]. split.
      * split; [done |]. by intros [(? & ?) _].
      * intros e _. split; [done | by eexists].
    + destruct (put_child projectDir (w_fs w) l ".env.local"
                  (NFile (envData envVariables)) Ed) as (fs' & Hput).
      unfold envPath, path_join. rewrite Hput. cbn [fst snd].
      split; [| done]. split; [| done]. intros _. split; [by eexists | done].
    + cbn [fst snd w_fs w_log]. split.
      * split; [done |]. by intros [(? & ?) _].
      * intros e _. split; [done | by eexists].
Qed.

(** X15.  [writeEnvVariables] changes nothing but .env.local: every path
    that is neither .env.local nor one of its ancestors denotes after the
    call what it denoted before, whether the call succeeds or fails. *)
Theorem writeEnvVariables_frame
    (envVariables : list (string * string)) (projectDir : path) (w : world)
    (q : path) :
  is_prefix (envPath projectDir) q = false ->
  is_prefix q (envPath projectDir) = false ->
  stat (w_fs (after (writeEnvVariables envVariables projectDir) w)) q
  = stat (w_fs w) q.
Proof.
  intros Hpq Hqp. unfold after. rewrite writeEnvVariables_run.
  destruct (stat (w_fs w) (envPath projectDir)) as [[prior | listing] |]; cbv zeta.
  - destruct (put _ _ _) as [fs' |] eqn:Hput; [| done].
    cbn [snd w_fs]. by apply (stat_put_incomparable _ _ _ _ _ Hput).
  - done.
  - destruct (stat (w_fs w) projectDir) as [[c | l] |]; try done.
    destruct (put _ _ _) as [fs' |] eqn:Hput; [| done].
    cbn [snd w_fs]. by apply (stat_put_incomparable _ _ _ _ _ Hput).
Qed.

Lemma writeEnvVariables_frame_witness :
  stat (w_fs (after (writeEnvVariables [("A", "1")] []) empty_project)) ["package.json"]
  = stat (w_fs empty_project) ["package.json"].
Proof.
  apply (writeEnvVariables_frame [("A", "1")] [] empty_project ["package.json"]);
    reflexivity.
Defined.

Lemma manifest_after_write c es dir w :
  manifest_of c (w_fs (after (writeEnvVariables es dir) w)) dir
  = manifest_of c (w_fs w) dir.
Proof.
  unfold after. rewrite writeEnvVariables_run. unfold manifest_of.
  assert (forall fs' content,
            put (w_fs w) (envPath dir) (NFile content) = Some fs' ->
            stat fs' (path_join dir ["package.json"])
            = stat (w_fs w) (path_join dir ["package.json"])) as H.
  { intros fs' content Hput. apply (stat_put_incomparable _ _ _ _ _ Hput);
      unfold envPath, path_join; by rewrite is_prefix_app. }
  destruct (stat (w_fs w) (envPath dir)) as [[prior | listing] |]; cbv zeta.
  - destruct (put _ _ _) as [fs' |] eqn:Hput; [| done].
    cbn [snd w_fs]. by rewrite (H _ _ Hput).
  - done.
  - destruct (stat (w_fs w) dir) as [[c0 | l] |]; try done.
    destruct (put _ _ _) as [fs' |] eqn:Hput; [| done].
    cbn [snd w_fs]. by rewrite (H _ _ Hput).
Qed.

(* ===================================================================== *)
(** * [getAvailablePort]: what a returned port is, and termination *)
(* ===================================================================== *)

Local Open Scope Z_scope.

Lemma range_cons start n : range start (S n) = start :: range (start + 1) n.
Proof. reflexivity. Qed.

Lemma probe_sound (fuel : nat) : forall net startPort tried port,
  1 <= startPort ->
  probe fuel net startPort = Some (tried, Returned port) ->
  startPort <= port <= 65535
  /\ port_free net port = true
  /\ (forall r, startPort <= r < port -> port_free net r = false)
  /\ tried = range startPort (S (Z.to_nat (port - startPort))).
Proof.
  induction fuel as [| fuel IH]; intros net startPort tried port Hs; [done |].
  cbn [probe]. unfold listen.
  destruct ((startPort <? 0) || (65535 <? startPort)) eqn:Eb; [done |].
  destruct (startPort =? 0) eqn:E0; [lia |].
  destruct (port_free net startPort) eqn:Ef.
  - intros [= <- <-]. rewrite Z.sub_diag. cbn [Z.to_nat range].
    split; [lia |]. split; [done |]. split; [intros r Hr; lia | reflexivity].
  - destruct (probe fuel net (startPort + 1)) as [[tried' r'] |] eqn:Ep; [| done].
    intros [= <- ->].
    destruct (IH net (startPort + 1) tried' port ltac:(lia) Ep) as (Hp & Hfree & Hbusy & ->).
    split; [lia |]. split; [done |]. split.
    + intros r Hr. destruct (Z.eq_dec r startPort) as [-> | Hne]; [done |].
      apply Hbusy. lia.
    + replace (Z.to_nat (port - startPort))
        with (S (Z.to_nat (port - (startPort + 1)))) by lia.
      by rewrite (range_cons startPort).
Qed.

Lemma probe_total (fuel : nat) : forall net startPort,
  (Z.to_nat (65536 - startPort) < fuel)%nat ->
  exists tried r,
    probe fuel net startPort = Some (tried, r)
    /\ (forall e, r = Threw e -> e = RangeError "ERR_SOCKET_BAD_PORT")
    /\ (length tried <= fuel)%nat.
Proof.
  induction fuel as [| fuel IH]; intros net startPort Hfuel; [lia |].
  cbn [probe]. unfold listen.
  destruct ((startPort <? 0) || (65535 <? startPort)) eqn:Eb.
  { do 2 eexists. split; [reflexivity |]. split; [by intros e [= <-] | cbn; lia]. }
  destruct (startPort =? 0) eqn:E0.
  { do 2 eexists. split; [reflexivity |]. split; [done | cbn; lia]. }
  destruct (port_free net startPort) eqn:Ef.
  { do 2 eexists. split; [reflexivity |]. split; [done | cbn; lia]. }
  destruct (IH net (startPort + 1) ltac:(lia)) as (tried & r & -> & He & Hlen).
  do 2 eexists. split; [reflexivity |]. split; [exact He | cbn; lia].
Qed.

Lemma probe_all_busy (fuel : nat) : forall net startPort,
  1 <= startPort <= 65536 ->
  (forall q, startPort <= q <= 65535 -> port_free net q = false) ->
  (Z.to_nat (65536 - startPort) < fuel)%nat ->
  probe fuel net startPort
  = Some (range startPort (S (Z.to_nat (65536 - startPort))),
          Threw (RangeError "ERR_SOCKET_BAD_PORT")).
Proof.
  induction fuel as [| fuel IH]; intros net startPort Hs Hbusy Hfuel; [lia |].
  cbn [probe]. unfold listen.
  destruct (Z.eq_dec startPort 65536) as [-> | Hne]; [done |].
  destruct ((startPort <? 0) || (65535 <? startPort)) eqn:Eb; [lia |].
  destruct (startPort =? 0) eqn:E0; [lia |].
  rewrite Hbusy by lia.
  rewrite (IH net (startPort + 1)); [| lia | intros q Hq; apply Hbusy; lia | lia].
  replace (Z.to_nat (65536 - startPort))
    with (S (Z.to_nat (65536 - (startPort + 1)))) by lia.
  by rewrite (range_cons startPort).
Qed.

(** X16.  Whenever [getAvailablePort], started at a port from 1 upwards,
    resolves with a port, that port is free, is not below the start port nor
    above 65535, every port from the start up to it was busy, and the ports
    tried are exactly the consecutive ports from the start to it. *)
Theorem getAvailablePort_sound (net : network) (startPort : Z) (tried : list Z)
    (port : Z) :
  1 <= startPort ->
  getAvailablePort net startPort = Some (tried, Returned port) ->
  startPort <= port <= 65535
  /\ port_free net port = true
  /\ (forall r, startPort <= r < port -> port_free net r = false)
  /\ tried = range startPort (S (Z.to_nat (port - startPort))).
Proof. intros Hs. unfold getAvailablePort. by apply probe_sound. Qed.

Lemma getAvailablePort_sound_witness :
  3000 <= 3002 <= 65535
  /\ port_free dev_machine 3002 = true
  /\ (forall r, 3000 <= r < 3002 -> port_free dev_machine r = false)
  /\ [3000; 3001; 3002] = range 3000 (S (Z.to_nat (3002 - 3000))).
Proof.
  apply (getAvailablePort_sound dev_machine 3000 [3000; 3001; 3002] 3002);
    [lia | reflexivity].
Defined.

(** X17.  [getAvailablePort] always comes to an end: for every start port
    and every network it either resolves with a port or fails with the
    range error of [listen], after at most 65537 tries.  A start port
    outside 0..65535 fails at the first try; port 0 resolves at once with
    the port the system hands out. *)
Theorem getAvailablePort_terminates (net : network) (startPort : Z) :
  exists tried r,
    getAvailablePort net startPort = Some (tried, r)
    /\ (forall e, r = Threw e -> e = RangeError "ERR_SOCKET_BAD_PORT")
    /\ Z.of_nat (length tried) <= 65537
    /\ (startPort < 0 \/ 65535 < startPort ->
        tried = [startPort] /\ r = Threw (RangeError "ERR_SOCKET_BAD_PORT"))
    /\ (startPort = 0 -> tried = [0] /\ r = Returned (ephemeral net)).
Proof.
  unfold getAvailablePort.
  destruct (probe_total (S (Z.to_nat (65536 - startPort))) net startPort)
    as (tried & r & E & He & Hlen); [lia |].
  exists tried, r. split; [exact E |]. split; [exact He |].
  cbn [probe] in E. unfold listen in E. split; [| split].
  - destruct ((startPort <? 0) || (65535 <? startPort)) eqn:Eb.
    + injection E as <- <-. cbn [length]. lia.
    + lia.
  - intros H.
    destruct ((startPort <? 0) || (65535 <? startPort)) eqn:Eb; [| lia].
    by injection E as <- <-.
  - intros ->. cbn in E. by injection E as <- <-.
Qed.

(** X18.  When no port from the start port up to 65535 is free, the probe
    tries every one of them, then port 65536, where [listen] throws: the
    promise is rejected with the range error and no port is returned. *)
Theorem getAvailablePort_exhausted (net : network) (startPort : Z) :
  1 <= startPort <= 65535 ->
  (forall q, startPort <= q <= 65535 -> port_free net q = false) ->
  getAvailablePort net startPort
  = Some (range startPort (S (Z.to_nat (65536 - startPort))),
          Threw (RangeError "ERR_SOCKET_BAD_PORT"))
  /\ List.last (range startPort (S (Z.to_nat (65536 - startPort)))) 0 = 65536.
Proof.
  intros Hs Hbusy. split.
  - unfold getAvailablePort. apply probe_all_busy; [lia | done | lia].
  - assert (forall n start, List.last (range start (S n)) 0 = start + Z.of_nat n) as H.
    { induction n as [| n IH]; intros start; [cbn; lia |].
      rewrite range_cons. cbn [List.last]. rewrite range_cons, <- range_cons, IH. lia. }
    rewrite H. lia.
Qed.

Lemma getAvailablePort_exhausted_witness :
  getAvailablePort all_busy 65530
  = Some (range 65530 (S (Z.to_nat (65536 - 65530))),
          Threw (RangeError "ERR_SOCKET_BAD_PORT"))
  /\ List.last (range 65530 (S (Z.to_nat (65536 - 65530)))) 0 = 65536.
Proof. apply (getAvailablePort_exhausted all_busy 65530); [lia | done]. Defined.

Local Close Scope Z_scope.

(* ===================================================================== *)
(** * Substrings, and the validator of the route question *)
(* ===================================================================== *)

Lemma starts_with_spec needle : forall hay,
  starts_with needle hay = true <-> exists post, hay = needle +:+ post.
Proof.
  induction needle as [| a n IH]; intros hay; cbn [starts_with].
  - split; [intros _; by exists hay | done].
  - destruct hay as [| b h].
    + split; [done |]. intros (post & H). rewrite append_String in H. discriminate.
    + rewrite andb_true_iff, IH, Ascii.eqb_eq. split.
      * intros (-> & post & ->). exists post. by rewrite append_String.
      * intros (post & H). rewrite append_String in H. injection H as -> ->.
        split; [done | by exists post].
Qed.

(** [includes] is the substring test. *)
Lemma includes_spec needle : forall hay,
  includes needle hay = true <-> occurs_in needle hay.
Proof.
  unfold occurs_in. induction hay as [| a h IH]; cbn [includes].
  - rewrite orb_false_r, starts_with_spec. split.
    + intros (post & H). by exists "", post.
    + intros (pre & post & H). destruct pre as [| b pre].
      * by exists post.
      * rewrite append_String in H. discriminate.
  - rewrite orb_true_iff, starts_with_spec, IH. split.
    + intros [(post & H) | (pre & post & H)].
      * by exists "", post.
      * exists (String a pre), post. rewrite append_String. by f_equal.
    + intros (pre & post & H). destruct pre as [| b pre].
      * left. by exists post.
      * rewrite append_String in H. injection H as -> ->. right. by exists pre, post.
Qed.

(** X19.  The validator of the route question accepts an input exactly
    when "/app/" or "/pages/" occurs somewhere in it.  The message of a
    refusal asks for a route that starts with /app or /pages, but the start
    is not what is tested: the default route /src/app/bucket is accepted,
    and the routes /app and /pages/ are treated differently. *)
Theorem bucketRoute_validate_spec (input : string) :
  (bucketRoute_validate input = Valid
   <-> occurs_in "/app/" input \/ occurs_in "/pages/" input)
  /\ (bucketRoute_validate input <> Valid ->
      bucketRoute_validate input
      = Invalid "The route should start with either /app or /pages.")
  /\ bucketRoute_validate "/src/app/bucket" = Valid
  /\ bucketRoute_validate "/app" <> Valid
  /\ bucketRoute_validate "/pages/" = Valid.
Proof.
  split; [| split; [| by repeat split]].
  - rewrite <- !includes_spec. unfold bucketRoute_validate.
    destruct (includes "/app/" input), (includes "/pages/" input); cbn;
      split; intros H; try done; try (by left); try (by right).
    by destruct H.
  - unfold bucketRoute_validate. by destruct (_ && _).
Qed.

(* ===================================================================== *)
(** * Whole runs of the orchestrator *)
(* ===================================================================== *)

(** Unfold the stages of a run down to the operations of the monad. *)
Ltac stages :=
  unfold integrate_B, finish_B, install_B, install_A, env_step_B, detect_auth,
    configure_auth, remove_auth_directories, launch, announce_env, copy_routes,
    clone_template, locate_project, promptForEnvVariables_5, getProjectName,
    readJson, inquirer_prompt, writeEnvVariables, getDependenciesFromRepo,
    promptForPackageManager, promptForBucketRoute, getProjectDirectory,
    checkLicenseStatus, on_error;
  cbv zeta.

(** ** The trace of the second variant, for any property of events that
    holds of the events it can produce *)
Section TraceB.
Variable ok : event -> Prop.
Hypothesis ok_log : forall m, ok (EvLog m).
Hypothesis ok_error : forall m, ok (EvError m).
Hypothesis ok_prompt : forall l, ok (EvPrompt l).
Hypothesis ok_spinner : forall m, ok (EvSpinner m).
Hypothesis ok_fetch : forall u, ok (EvFetch u).
Hypothesis ok_listen : forall p, ok (EvListen p).
Hypothesis ok_open : forall p r, ok (EvOpen p r).
Hypothesis ok_mkdir : forall p, ok (EvMkdir p).
Hypothesis ok_ensureDir : forall p, ok (EvEnsureDir p).
Hypothesis ok_copy : forall s d o, ok (EvCopy s d o).
Hypothesis ok_remove : forall p, ok (EvRemove p).
Hypothesis ok_write : forall p d, ok (EvWriteFile p d).
Hypothesis ok_append : forall p d, ok (EvAppendFile p d).
Hypothesis ok_install : forall packageManager repoDependencies,
  ok (EvExec (packageManager :: "install" ::
              List.filter (includes "clerk")
                (List.filter (fun dep => negb (String.eqb dep "next-auth"))
                   repoDependencies))).
Hypothesis ok_clone : forall target, ok (EvExec ["git"; "clone"; repo_git; target]).
Hypothesis ok_dev : forall packageManager, ok (EvExec (dev_command packageManager)).

Lemma appends_try_block_B c :
  appends_only ok
    (let* located := locate_project c in
     match located with
     | None => ret tt
     | Some (projectDir, appDir) => integrate_B c projectDir appDir
     end).
Proof. stages. appends easy_side. Qed.

Lemma appends_run_B c : appends_only ok (integrateBucketCMS_B c).
Proof. unfold integrateBucketCMS_B. stages. appends easy_side. Qed.
End TraceB.

Lemma on_error_returns c e w :
  w_spinner w = true ->
  on_error c e w
  = (Returned tt,
     mkWorld (w_fs w)
       (w_log w ++ [EvSpinner "An error occurred while integrating Bucket CMS.";
                    EvError (show_error e)])
       true).
Proof.
  intros Hs. unfold on_error, bind, spinner_say. rewrite Hs.
  unfold emit. rewrite error_styled_plain by done.
  cbn [w_fs w_log w_spinner]. by rewrite Hs, <- app_assoc.
Qed.

(** X20.  A run of the second variant never fails as a whole: whatever the
    user answers and whatever goes wrong in the [try] block, the error is
    caught, reported through the spinner and on the error stream, and the
    run returns normally.  A caller cannot tell a failed installation from
    a successful one by the outcome of [integrateBucketCMS]. *)
Theorem integrateBucketCMS_B_always_returns (c : collaborators) (w : world) :
  fst (integrateBucketCMS_B c w) = Returned tt
  /\ w_spinner (after (integrateBucketCMS_B c) w) = true.
Proof.
  assert (exists w', integrateBucketCMS_B c w = (Returned tt, w')
                     /\ w_spinner w' = true) as (w' & E & Hs');
    [| unfold after; by rewrite E].
  unfold integrateBucketCMS_B.
  unfold bind at 1. rewrite log_styled_plain by done.
  unfold bind at 1, spinner_create. cbn [w_fs w_log w_spinner]. unfold bind at 1.
  edestruct checkLicenseStatus_runs as (licensed & d0 & -> & _).
  cbn [w_fs w_log w_spinner].
  match goal with
  | |- context [try_catch ?body ?h ?w0] =>
      set (w1 := w0); assert (w_spinner w1 = true) as Hspin by done; clearbody w1;
      assert (appends_only (fun _ => True) body) as Hbody
        by (apply appends_try_block_B; done)
  end.
  unfold try_catch. destruct (Hbody w1) as (d & _ & _ & Hs). specialize (Hs Hspin).
  match goal with
  | |- context [match ?m with _ => _ end] => destruct m as [[[] | e] w2]
  end; cbn [snd] in Hs.
  - by eexists.
  - rewrite on_error_returns by done. by eexists.
Qed.

(** X21.  The answer to the license questions has no influence on what
    follows: [checkLicenseStatus] returns false exactly for a commercial
    project whose owner does not agree to buy a license, it never throws
    and never touches the tree, and the orchestrator goes on to ask for the
    project directory right after the refusal was pointed out. *)
Theorem license_refusal_does_not_halt (c : collaborators) (w : world) :
  (exists added,
     checkLicenseStatus c w
     = (Returned (negb (answer_isCommercial c) || answer_agreeToPay c),
        mkWorld (w_fs w) (w_log w ++ added) (w_spinner w)))
  /\ (answer_isCommercial c = true -> answer_agreeToPay c = false ->
      exists pre post,
        w_log (after (integrateBucketCMS_B c) w)
        = w_log w ++ pre
            ++ [ EvLog "To use Bucket CMS for commercial projects, you are required to purchase a license";
                 EvPrompt ["projectDir"] ]
            ++ post).
Proof.
  split.
  - unfold checkLicenseStatus.
    destruct (answer_isCommercial c); [destruct (answer_agreeToPay c) |];
      mrun; rewrite <- ?app_assoc; by eexists.
  - intros Hc Hp. unfold after, integrateBucketCMS_B.
    unfold bind at 1. rewrite log_styled_plain by done.
    unfold bind at 1, spinner_create. cbn [w_fs w_log w_spinner]. unfold bind at 1.
    assert (forall w0,
              checkLicenseStatus c w0
              = (Returned false,
                 mkWorld (w_fs w0)
                   (w_log w0 ++ [ EvPrompt ["isCommercial"]; EvPrompt ["agreeToPay"];
                                  EvLog "To use Bucket CMS for commercial projects, you are required to purchase a license" ])
                   (w_spinner w0))) as ->.
    { intros w0. unfold checkLicenseStatus. rewrite Hc, Hp. mrun.
      by rewrite <- !app_assoc. }
    cbn [w_fs w_log w_spinner].
    match goal with
    | |- context [try_catch (bind (locate_project c) ?k) ?h ?w0] =>
        set (w1 := w0);
        assert (forall a, appends_only (fun _ => True) (k a)) as Hk
          by (intros [[projectDir appDir] |]; stages; appends easy_side);
        assert (forall e, appends_only (fun _ => True) (h e)) as Hh
          by (intros e; stages; appends easy_side)
    end.
    unfold try_catch. unfold bind at 1. unfold locate_project at 1.
    unfold bind at 1. unfold getProjectDirectory at 1. unfold bind at 1.
    unfold emit at 1, ret at 1. cbn [w_fs w_log w_spinner].
    match goal with
    | |- context [bind get_fs ?k2 ?w0] =>
        set (w2 := w0);
        assert (appends_only (fun _ => True) (bind get_fs k2)) as H2
          by (stages; appends easy_side)
    end.
    destruct (H2 w2) as (d2 & L2 & _ & _).
    destruct (bind get_fs _ w2) as [[located | e] w3]; cbn [snd] in L2.
    + destruct (Hk located w3) as (d3 & L3 & _ & _). cbv beta in L3 |- *.
      match type of L3 with
      | w_log (snd ?t) = _ => destruct t as [[[] | e] w4]
      end; cbn [snd] in L3.
      * cbn [snd]. rewrite L3, L2. subst w2 w1. cbn [w_log].
        exists [EvLog "Welcome to Bucket CMS! Let's get started...";
                EvPrompt ["isCommercial"]; EvPrompt ["agreeToPay"]], (d2 ++ d3).
        by rewrite <- !app_assoc.
      * destruct (Hh e w4) as (d4 & L4 & _ & _). rewrite L4, L3, L2.
        subst w2 w1. cbn [w_log].
        exists [EvLog "Welcome to Bucket CMS! Let's get started...";
                EvPrompt ["isCommercial"]; EvPrompt ["agreeToPay"]], (d2 ++ d3 ++ d4).
        by rewrite <- !app_assoc.
    + destruct (Hh e w3) as (d4 & L4 & _ & _). rewrite L4, L2.
      subst w2 w1. cbn [w_log].
      exists [EvLog "Welcome to Bucket CMS! Let's get started...";
              EvPrompt ["isCommercial"]; EvPrompt ["agreeToPay"]], (d2 ++ d4).
      by rewrite <- !app_assoc.
Qed.

Lemma license_refusal_does_not_halt_witness :
  exists pre post,
    w_log (after (integrateBucketCMS_B
                    (mkCollaborators (Some []) "pnpm" [] (fun _ => "") true false None
                       (fun _ fs => Some fs) (fun _ => None) dev_machine false
                       ascii_only_lower))
                 empty_project)
    = w_log empty_project ++ pre
        ++ [ EvLog "To use Bucket CMS for commercial projects, you are required to purchase a license";
             EvPrompt ["projectDir"] ]
        ++ post.
Proof.
  apply (proj2 (license_refusal_does_not_halt
                  (mkCollaborators (Some []) "pnpm" [] (fun _ => "") true false None
                     (fun _ fs => Some fs) (fun _ => None) dev_machine false
                     ascii_only_lower)
                  empty_project)); reflexivity.
Defined.

Lemma Forall_filter_includes needle l :
  Forall (occurs_in needle) (List.filter (includes needle) l).
Proof.
  apply Forall_forall. intros x Hx. apply list_elem_of_In, filter_In in Hx as [_ Hx].
  by apply includes_spec.
Qed.

(** X22.  The second variant installs no package whose name does not
    contain "clerk": the list fetched from the template's manifest is
    filtered down to such names before the package manager is called, so
    the template's other dependencies are never installed, whatever the
    package manager chosen and whether the run succeeds or not. *)
Theorem integrateBucketCMS_B_installs_only_clerk (c : collaborators) (w : world) :
  exists added,
    w_log (after (integrateBucketCMS_B c) w) = w_log w ++ added
    /\ Forall (installs_only (occurs_in "clerk")) added.
Proof.
  assert (appends_only (installs_only (occurs_in "clerk")) (integrateBucketCMS_B c))
    as H.
  { apply appends_run_B; try done.
    - intros pm deps _. apply Forall_filter_includes.
    - intros pm. unfold dev_command.
      destruct (String.eqb pm "yarn"); [by intros [=] |].
      destruct (String.eqb pm "pnpm"); by intros [=]. }
  destruct (H w) as (added & E & F & _). by exists added.
Qed.

(** ** The first variant never reaches the launch *)

Lemma appends_bind_never {A B} (ok : event -> Prop) (m : M A) (k : A -> M B) :
  appends_only ok m -> (forall w, exists e w', m w = (Threw e, w')) ->
  appends_only ok (bind m k).
Proof.
  intros Hm Hthrow w. unfold bind. destruct (Hthrow w) as (e & w' & E).
  specialize (Hm w). by rewrite E in *.
Qed.

Ltac launch_side :=
  solve [ intros; exact I
        | intros; cbn [not_a_launch]; intros pm; unfold dev_command;
          destruct (String.eqb pm "yarn"); [discriminate |];
          destruct (String.eqb pm "pnpm"); discriminate ].

Lemma finish_A_throws c projectDir bucketRoute packageManager w :
  exists w',
    finish_A c projectDir bucketRoute packageManager w
    = (Threw (TypeError "The path argument must be of type string"), w')
    /\ w_fs w' = w_fs w.
Proof.
  unfold finish_A, announce_env. unfold bind at 1. unfold bind at 1.
  rewrite log_styled_plain by done. unfold console_log.
  mrun. rewrite env_step_A_throws. by eexists.
Qed.

(** X23.  The first variant never gets as far as the launch.  Its
    environment step calls the prompt without the project directory, the
    look-up of the project name throws, and the error ends the [try] block:
    no run probes a port, schedules the browser or starts the dev server,
    and every run that completes the installation ends in the error
    report. *)
Theorem integrateBucketCMS_A_never_launches (c : collaborators) (w : world) :
  (exists added,
     w_log (after (integrateBucketCMS_A c) w) = w_log w ++ added
     /\ Forall not_a_launch added)
  /\ (forall projectDir bucketRoute packageManager w0,
        exists w1,
          finish_A c projectDir bucketRoute packageManager w0
          = (Threw (TypeError "The path argument must be of type string"), w1)
          /\ w_fs w1 = w_fs w0).
Proof.
  split; [| intros; apply finish_A_throws].
  assert (appends_only not_a_launch (integrateBucketCMS_A c)) as H.
  { unfold integrateBucketCMS_A.
    apply appends_bind; [apply appends_log_styled; launch_side | intros _].
    apply appends_try; [| intros e; stages; appends launch_side].
    apply appends_bind; [stages; appends launch_side |].
    intros [[projectDir appDir] |]; [| apply appends_ret].
    apply appends_bind; [stages; appends launch_side | intros installed].
    unfold finish_A.
    apply appends_bind; [stages; appends launch_side | intros _].
    apply appends_bind_never.
    - intros w0. rewrite env_step_A_throws. cbn [snd w_log w_spinner].
      exists [EvError "Could not retrieve project name."].
      split; [done |]. split; [by repeat constructor | done].
    - intros w0. rewrite env_step_A_throws. by do 2 eexists. }
  destruct (H w) as (added & E & F & _). by exists added.
Qed.

(** ** Where the second variant copies the routes *)




(** ** The environment step of the second variant, run again *)

Lemma promptForEnvVariables_5_run c dir w m :
  manifest_of c (w_fs w) dir = Some m ->
  promptForEnvVariables_5 c (Some dir) w
  = (Returned (env_answers c (manifest_name m)),
     mkWorld (w_fs w) (w_log w ++ [EvPrompt five_keys]) (w_spinner w)).
Proof.
  intros Hm. unfold promptForEnvVariables_5, bind.
  rewrite getProjectName_run, Hm. unfold inquirer_prompt. by mrun.
Qed.

Lemma env_step_B_run c dir w m :
  manifest_of c (w_fs w) dir = Some m ->
  env_step_B c dir w
  = match writeEnvVariables (env_answers c (manifest_name m)) dir
            (mkWorld (w_fs w) (w_log w ++ [EvPrompt five_keys]) (w_spinner w)) with
    | (Returned _, w') => (Returned tt, w')
    | (Threw e, w') => (Threw e, w')
    end.
Proof.
  intros Hm. unfold env_step_B. unfold bind at 1.
  rewrite (promptForEnvVariables_5_run _ _ _ _ Hm). unfold bind at 1.
  destruct (writeEnvVariables _ _ _) as [[[] | e] w']; [| done].
  by destruct (js_prop _ _).
Qed.

(** X25.  Running the environment step of the second variant a second
    time on the same project appends the same block of five assignments
    again: after two runs on a project without .env.local the file holds
    the block twice, separated by a newline, so every key is defined
    twice. *)
Theorem env_step_B_twice (c : collaborators) (projectDir : path) (w : world)
    (m : manifest) :
  manifest_of c (w_fs w) projectDir = Some m ->
  stat (w_fs w) (envPath projectDir) = None ->
  let block := envData (env_answers c (manifest_name m)) in
  let w1 := after (env_step_B c projectDir) w in
  let w2 := after (env_step_B c projectDir) w1 in
  fst (env_step_B c projectDir w) = Returned tt
  /\ fst (env_step_B c projectDir w1) = Returned tt
  /\ env_content w1 projectDir = Some block
  /\ env_content w2 projectDir = Some (block +:+ nl +:+ block)
  /\ map fst (env_answers c (manifest_name m)) = five_keys.
Proof.
  intros Hm Hnone. cbv zeta. unfold after, env_content.
  assert (exists listing, stat (w_fs w) projectDir = Some (NDir listing))
    as (listing & Hdir).
  { unfold manifest_of, path_join in Hm.
    destruct (stat (w_fs w) (projectDir ++ ["package.json"])) as [nd |] eqn:E;
      [| done].
    by apply (stat_child_parent _ _ _ _ E). }
  rewrite (env_step_B_run _ _ _ _ Hm).
  set (w0 := mkWorld (w_fs w) (w_log w ++ [EvPrompt five_keys]) (w_spinner w)).
  pose proof (manifest_after_write c (env_answers c (manifest_name m)) projectDir w0)
    as Hkeep.
  destruct (writeEnvVariables_fresh (env_answers c (manifest_name m)) projectDir w0
              listing Hdir Hnone) as (fs1 & E1 & H1).
  unfold after in Hkeep. rewrite E1 in *. cbn [fst snd w_fs] in *.
  assert (manifest_of c fs1 projectDir = Some m) as Hm1 by (by rewrite Hkeep).
  rewrite (env_step_B_run c projectDir (mkWorld fs1 _ _) m Hm1).
  cbn [w_fs w_log w_spinner].
  match goal with
  | |- context [writeEnvVariables ?es ?d ?w'] =>
      destruct (writeEnvVariables_existing es d w' _ H1) as (fs2 & E2 & H2)
  end.
  rewrite E2. cbn [fst snd w_fs]. by rewrite H1, H2.
Qed.

Lemma env_step_B_twice_witness :
  env_content
    (after (env_step_B quiet_user [])
       (after (env_step_B quiet_user []) empty_project)) []
  = Some (envData (env_answers quiet_user (js "shop")) +:+ nl
          +:+ envData (env_answers quiet_user (js "shop"))).
Proof.
  exact (proj1 (proj2 (proj2 (proj2
           (env_step_B_twice quiet_user [] empty_project
              (mkManifest (Some (js "shop")) None) eq_refl eq_refl))))).
Defined.

(** ** A project without an authentication library *)

Lemma integrate_B_no_orange c dir appDir w m :
  chalk_orange c = false ->
  manifest_of c (w_fs w) dir = Some m ->
  authProfile m = LocalhostBypass ->
  integrate_B c dir appDir w
  = (Threw (TypeError "chalk.orange is not a function"),
     mkWorld (w_fs w)
       (w_log w ++ [EvLog ("Reading " +:+ path_string (path_join dir ["package.json"])
                           +:+ "...")])
       (w_spinner w)).
Proof.
  intros Hno Hm Hp. unfold integrate_B. cbv zeta. unfold bind at 1.
  unfold detect_auth. cbv zeta. unfold bind at 1.
  rewrite log_styled_plain by done. unfold bind at 1. rewrite readJson_spec.
  cbn [w_fs]. unfold manifest_of in Hm.
  destruct (stat (w_fs w) (path_join dir ["package.json"])) as [[text | l] |];
    try done.
  rewrite Hm. unfold authProfile, select_profile in Hp.
  destruct (truthy (dependency m "next-auth")); [done |].
  destruct (truthy (dependency m "@clerk/nextjs")); [done |].
  mrun. by rewrite Hno.
Qed.

Lemma on_error_read_only c e : read_only (on_error c e).
Proof.
  intros w. unfold on_error, bind, spinner_say. destruct (w_spinner w); [| done].
  unfold emit. by rewrite error_styled_plain by done.
Qed.

(** X26.  When the styling library has no style called orange, a project
    that declares neither authentication library gets nothing installed by
    the second variant: the warning about the missing authentication is the
    first thing printed in orange, printing it throws, and the run ends in
    the error report with the tree as it was. *)
Theorem no_orange_style_nothing_installed (c : collaborators) (w : world)
    (projectDir : path) (m : manifest) :
  chalk_orange c = false ->
  answer_projectDir c = Some projectDir ->
  manifest_of c (w_fs w) projectDir = Some m ->
  authProfile m = LocalhostBypass ->
  w_fs (after (integrateBucketCMS_B c) w) = w_fs w
  /\ fst (integrateBucketCMS_B c w) = Returned tt
  /\ forall appDir w0,
       manifest_of c (w_fs w0) projectDir = Some m ->
       integrate_B c projectDir appDir w0
       = (Threw (TypeError "chalk.orange is not a function"),
          mkWorld (w_fs w0)
            (w_log w0 ++ [EvLog ("Reading "
                                 +:+ path_string (path_join projectDir ["package.json"])
                                 +:+ "...")])
            (w_spinner w0)).
Proof.
  intros Hno Hdir Hm Hp.
  split; [| split; [| intros; by apply (integrate_B_no_orange c _ _ _ m)]].
  2: { pose proof (appends_try_block_B (fun _ => True)) as Hbody.
       unfold integrateBucketCMS_B.
       unfold bind at 1. rewrite log_styled_plain by done.
       unfold bind at 1, spinner_create. cbn [w_fs w_log w_spinner]. unfold bind at 1.
       edestruct checkLicenseStatus_runs as (licensed & d0 & -> & _).
       cbn [w_fs w_log w_spinner]. unfold try_catch.
       match goal with
       | |- context [bind (locate_project c) ?k ?w0] =>
           destruct (Hbody ltac:(done) ltac:(done) ltac:(done) ltac:(done)
                       ltac:(done) ltac:(done) ltac:(done) ltac:(done)
                       ltac:(done) ltac:(done) ltac:(done) ltac:(done)
                       ltac:(done) ltac:(done) ltac:(done) ltac:(done) c w0)
             as (d & _ & _ & Hs);
           destruct (bind (locate_project c) k w0) as [[[] | e] w2]
       end; [done |].
       cbn [snd w_spinner] in Hs. by rewrite on_error_returns by auto. }
  unfold after, integrateBucketCMS_B.
  unfold bind at 1. rewrite log_styled_plain by done.
  unfold bind at 1, spinner_create. cbn [w_fs w_log w_spinner]. unfold bind at 1.
  edestruct checkLicenseStatus_runs as (licensed & d0 & -> & _).
  cbn [w_fs w_log w_spinner]. unfold try_catch, bind at 1.
  match goal with
  | |- context [locate_project c ?w0] =>
      pose proof (locate_project_read_only c w0) as R1;
      destruct (locate_project c w0) as [[[[dir appDir] |] | e] w2] eqn:E1
  end; cbn [snd w_fs] in *.
  - destruct (locate_project_found _ _ _ _ _ E1) as [Hd _].
    rewrite Hdir in Hd. injection Hd as <-.
    rewrite (integrate_B_no_orange c projectDir appDir w2 m Hno); [| by rewrite R1 | done].
    by rewrite on_error_read_only.
  - done.
  - by rewrite on_error_read_only.
Qed.

Lemma no_orange_style_nothing_installed_witness :
  w_fs (after (integrateBucketCMS_B (succeeding (fun _ => "") false)) minimal_project)
  = w_fs minimal_project.
Proof.
  exact (proj1 (no_orange_style_nothing_installed (succeeding (fun _ => "") false)
                  minimal_project [] minimal_manifest eq_refl eq_refl eq_refl eq_refl)).
Defined.

(** ** The port the browser is sent to *)

Lemma not_in_listens port r tried : ~ In (EvOpen port r) (map EvListen tried).
Proof. intros H. apply in_map_iff in H as (p & H & _). discriminate. Qed.

(** X27.  The address the browser is sent to by the launch is built from
    the route of the admin interface and the port the probe returned: the
    lowest port from 3000 upwards that is free, all ports below it down to
    3000 being busy.  When the probe fails, no browser is scheduled. *)
Theorem launch_opens_lowest_free_port (c : collaborators)
    (projectDir bucketRoute : path) (packageManager : string) (w : world)
    (port : Z) (route : path) :
  In (EvOpen port route)
     (w_log (after (launch c projectDir bucketRoute packageManager) w)) ->
  ~ In (EvOpen port route) (w_log w) ->
  route = bucketRoute
  /\ (3000 <= port <= 65535)%Z
  /\ port_free (net c) port = true
  /\ (forall q, (3000 <= q < port)%Z -> port_free (net c) q = false).
Proof.
  unfold after, launch. unfold bind at 1. rewrite log_styled_plain by done.
  unfold bind at 1. unfold getAvailablePortM. cbn [w_fs w_log w_spinner].
  destruct (getAvailablePort (net c) 3000) as [[tried [found | e]] |] eqn:E.
  - intros Hin Hnot.
    assert (In (EvOpen port route)
              ((w_log w ++ [EvLog "Bucket CMS has been successfully integrated!"])
               ++ map EvListen tried)
            \/ EvOpen port route = EvOpen found bucketRoute) as [H | H].
    { revert Hin. mrun. unfold remove, fs_call, exec. cbn [w_fs w_log w_spinner].
      destruct (run_process c _ _); cbn [snd w_log];
        rewrite ?in_app_iff; cbn [In]; intuition (try discriminate); right; congruence. }
    + exfalso. rewrite !in_app_iff in H. cbn [In] in H.
      destruct H as [[H | [H | []]] | H]; [done | discriminate |].
      by apply not_in_listens in H.
    + injection H as -> ->.
      unfold getAvailablePort in E.
      destruct (probe_sound _ (net c) 3000%Z tried found ltac:(lia) E)
        as (H1 & H2 & H3 & _).
      done.
  - cbn [snd w_log]. intros Hin Hnot. exfalso.
    rewrite !in_app_iff in Hin. cbn [In] in Hin.
    destruct Hin as [[H | [H | []]] | H]; [done | discriminate |].
    by apply not_in_listens in H.
  - cbn [snd w_log]. intros Hin Hnot. exfalso.
    rewrite !in_app_iff in Hin. cbn [In] in Hin.
    destruct Hin as [H | [H | []]]; [done | discriminate].
Qed.

Lemma launch_opens_lowest_free_port_witness :
  ["app"; "bucket"] = ["app"; "bucket"]
  /\ (3000 <= 3002 <= 65535)%Z
  /\ port_free (net quiet_user) 3002 = true
  /\ (forall q, (3000 <= q < 3002)%Z -> port_free (net quiet_user) q = false).
Proof.
  apply (launch_opens_lowest_free_port quiet_user [] ["app"; "bucket"] "pnpm"
           empty_project 3002%Z ["app"; "bucket"]).
  - vm_compute. tauto.
  - intros [].
Defined.

(** ** When the list of dependencies cannot be fetched *)

Lemma never_bind_m {A B} (m : M A) (k : A -> M B) :
  never_returns m -> never_returns (bind m k).
Proof. intros Hm w. unfold bind. destruct (Hm w) as (e & w' & ->). by do 2 eexists. Qed.

Lemma never_bind_k {A B} (m : M A) (k : A -> M B) :
  (forall a, never_returns (k a)) -> never_returns (bind m k).
Proof.
  intros Hk w. unfold bind. destruct (m w) as [[a | e] w1]; [apply Hk |].
  by do 2 eexists.
Qed.

Lemma getDependenciesFromRepo_fails c url :
  repo_dependencies c = None -> never_returns (getDependenciesFromRepo c url).
Proof.
  intros H w. unfold getDependenciesFromRepo. rewrite H. unfold bind, emit.
  rewrite error_styled_plain by done. by do 2 eexists.
Qed.

Ltac mkdir_side := solve [intros; exact I | intros; reflexivity].

(** Step through a computation up to the fetch of the dependencies, where
    it stops. *)
Ltac appends_to_fetch H :=
  repeat first
    [ lazymatch goal with
      | |- appends_only _ (bind (getDependenciesFromRepo _ _) _) =>
          apply appends_bind_never;
          [ unfold getDependenciesFromRepo; appends mkdir_side
          | apply getDependenciesFromRepo_fails; exact H ]
      end
    | appends_step mkdir_side ].

Lemma install_B_never_returns c dir appDir :
  repo_dependencies c = None -> never_returns (install_B c dir appDir).
Proof.
  intros H. unfold install_B. cbv zeta.
  do 3 (apply never_bind_k; intros ?).
  by apply never_bind_m, getDependenciesFromRepo_fails.
Qed.

Lemma install_A_never_returns c dir appDir :
  repo_dependencies c = None -> never_returns (install_A c dir appDir).
Proof.
  intros H. unfold install_A. cbv zeta.
  do 4 (apply never_bind_k; intros ?).
  by apply never_bind_m, getDependenciesFromRepo_fails.
Qed.

(** X28.  When the list of dependencies cannot be fetched from the
    template's repository, the installation stops there in both variants:
    no package manager and no git is ever started, nothing is copied,
    removed or written.  The one change that can already have been made to
    the project is the creation of the api directory, which comes before
    the fetch. *)
Theorem fetch_failure_stops_installation (c : collaborators) (w : world) :
  repo_dependencies c = None ->
  (exists added,
     w_log (after (integrateBucketCMS_A c) w) = w_log w ++ added
     /\ Forall at_most_mkdir added)
  /\ (exists added,
        w_log (after (integrateBucketCMS_B c) w) = w_log w ++ added
        /\ Forall at_most_mkdir added).
Proof.
  intros H.
  assert (appends_only at_most_mkdir (integrateBucketCMS_A c)) as HA.
  { unfold integrateBucketCMS_A.
    apply appends_bind; [apply appends_log_styled; mkdir_side | intros _].
    apply appends_try; [| intros e; stages; appends mkdir_side].
    apply appends_bind; [stages; appends mkdir_side |].
    intros [[projectDir appDir] |]; [| apply appends_ret].
    apply appends_bind_never; [| by apply install_A_never_returns].
    unfold install_A. cbv zeta. appends_to_fetch H. }
  assert (appends_only at_most_mkdir (integrateBucketCMS_B c)) as HB.
  { unfold integrateBucketCMS_B.
    apply appends_bind; [apply appends_log_styled; mkdir_side | intros _].
    apply appends_bind; [apply appends_spinner_create | intros _].
    apply appends_bind; [stages; appends mkdir_side | intros _].
    apply appends_try; [| intros e; stages; appends mkdir_side].
    apply appends_bind; [stages; appends mkdir_side |].
    intros [[projectDir appDir] |]; [| apply appends_ret].
    unfold integrate_B. cbv zeta.
    apply appends_bind; [stages; appends mkdir_side | intros detected].
    apply appends_bind_never; [| by apply install_B_never_returns].
    unfold install_B. cbv zeta. appends_to_fetch H. }
  split.
  - destruct (HA w) as (added & E & F & _). by exists added.
  - destruct (HB w) as (added & E & F & _). by exists added.
Qed.

Lemma fetch_failure_stops_installation_witness :
  exists added,
    w_log (after (integrateBucketCMS_B
                    (mkCollaborators (Some []) "pnpm" [] (fun _ => "") false false None
                       (fun _ fs => Some fs) (fun _ => Some minimal_manifest)
                       dev_machine true ascii_only_lower))
                 minimal_project)
    = w_log minimal_project ++ added
    /\ Forall at_most_mkdir added.
Proof.
  apply (proj2 (fetch_failure_stops_installation
                  (mkCollaborators (Some []) "pnpm" [] (fun _ => "") false false None
                     (fun _ fs => Some fs) (fun _ => Some minimal_manifest)
                     dev_machine true ascii_only_lower)
                  minimal_project eq_refl)).
Defined.

